(** * SysMon: the sampling-and-delta engine and the interaction loop

    A shallow embedding of [sysmon.cpp].  The C++ types are modelled as
    follows:

    - [unsigned long long] and [size_t] are [Z] with the wrap-around modulo
      [2^64] written out ([wrap64]);
    - [int] is [Z]; signed arithmetic that leaves the 32-bit range is
      undefined behaviour and is modelled by [Undef] in the monad [Res];
    - [double] is IEEE 754 binary64, modelled by [spec_float] with the
      operations of [SpecFloat] at precision 53 and [emax = 1024];
    - [std::map<int, ProcInfo>] is [gmap Z ProcInfo], iterated in ascending
      key order;
    - [std::vector<ProcInfo>] is [list ProcInfo];
    - [steady_clock] time points and durations are [Z], counted in
      nanoseconds;
    - everything read from the operating system or the terminal is an
      explicit input of the function that reads it: the outcomes of
      [read_total_cpu], [read_meminfo], [list_pids] with [read_proc_times],
      [getpwuid], [getch], [wgetch], [getmaxy], [steady_clock::now] and
      [kill]; everything done to them is an explicit output: the arguments
      of [draw_header] and [draw_processes], the dialog and the signal. *)

From Stdlib Require Import ZArith Lia Bool List Ascii String.
From Stdlib Require Import Floats.SpecFloat.
From stdpp Require Import base option list sorting gmap.

Local Open Scope Z_scope.

(** ** Machine integers *)

Module U64.

Definition modulus : Z := 2 ^ 64.

(** Reduction of a mathematical integer to [unsigned long long]. *)
Definition wrap64 (x : Z) : Z := x mod modulus.

Definition add (a b : Z) : Z := wrap64 (a + b).
Definition sub (a b : Z) : Z := wrap64 (a - b).

Definition in_range (x : Z) : Prop := 0 <= x < modulus.

End U64.

(** Undefined behaviour of the C++ program that the model makes explicit. *)
Inductive Fault := SignedOverflow | OutOfBounds.

Inductive Res (A : Type) : Type :=
  | Ok (a : A)
  | Undef (f : Fault).

Arguments Ok {A} a.
Arguments Undef {A} f.

Definition bind {A B : Type} (m : Res A) (k : A -> Res B) : Res B :=
  match m with
  | Ok a => k a
  | Undef f => Undef f
  end.

Notation "x <- m ;; k" := (bind m (fun x => k))
  (at level 100, m at next level, right associativity).

Module Int.

Definition min_int : Z := - 2 ^ 31.
Definition max_int : Z := 2 ^ 31 - 1.

Definition in_range (x : Z) : Prop := min_int <= x <= max_int.

(** The result of a signed operation; leaving the range of [int] is
    undefined. *)
Definition checked (x : Z) : Res Z :=
  if (min_int <=? x) && (x <=? max_int) then Ok x else Undef SignedOverflow.

Definition add (a b : Z) : Res Z := checked (a + b).
Definition sub (a b : Z) : Res Z := checked (a - b).

(** Conversion of an unsigned value to [int], as in [(int)pv.size()]:
    reduction modulo [2^32] into the signed range. *)
Definition of_unsigned (x : Z) : Z := (x + 2 ^ 31) mod 2 ^ 32 - 2 ^ 31.

End Int.

(** ** IEEE 754 binary64 *)

Module Double.

Definition prec : Z := 53.
Definition emax : Z := 1024.

Definition double := spec_float.

Definition mul : double -> double -> double := SFmul prec emax.
Definition div : double -> double -> double := SFdiv prec emax.
Definition sub : double -> double -> double := SFsub prec emax.

(** [a == b], [a < b], [a > b] and [a <= b] on doubles. *)
Definition eqb : double -> double -> bool := SFeqb.
Definition ltb : double -> double -> bool := SFltb.
Definition gtb (a b : double) : bool := SFltb b a.
Definition leb : double -> double -> bool := SFleb.

(** [(double)x] for an unsigned 64-bit [x]: round to nearest, ties to
    even. *)
Definition of_u64 (x : Z) : double := binary_normalize prec emax x 0 false.

Definition zero : double := S754_zero false.
Definition one : double := Eval vm_compute in of_u64 1.
Definition hundred : double := Eval vm_compute in of_u64 100.

Definition is_nan (x : double) : bool :=
  match x with S754_nan => true | _ => false end.

(** Zero, a positive finite number or plus infinity. *)
Definition nonneg (x : double) : Prop :=
  match x with
  | S754_zero _ => True
  | S754_finite s _ _ | S754_infinity s => s = false
  | S754_nan => False
  end.

Definition finite_pos (x : double) : Prop :=
  match x with
  | S754_finite false _ _ => True
  | _ => False
  end.

End Double.

Import Double.

(** ** Data model *)

Record ProcTimes := mkProcTimes {
  utime : Z;
  stime : Z
}.

Record ProcInfo := mkProcInfo {
  pid : Z;
  user : string;
  name : string;
  cpu_percent : double;
  mem_kb : Z;
  mem_percent : double;
  times : ProcTimes;
  total_time : Z   (* utime+stime *)
}.

Inductive SortMode := SORT_CPU | SORT_MEM | SORT_PID.

Definition set_cpu_percent (p : ProcInfo) (c : double) : ProcInfo :=
  mkProcInfo (pid p) (user p) (name p) c (mem_kb p) (mem_percent p)
             (times p) (total_time p).

Definition set_mem_percent (p : ProcInfo) (m : double) : ProcInfo :=
  mkProcInfo (pid p) (user p) (name p) (cpu_percent p) (mem_kb p) m
             (times p) (total_time p).

(** What [read_proc_times] hands back for one pid when it succeeds. *)
Record ProcRead := mkProcRead {
  rd_times : ProcTimes;
  rd_rss_kb : Z;
  rd_comm : string;
  rd_uid : Z
}.

(** ** Snapshot reader *)

Definition total_cpu_time (vals : list Z) : Z :=
  foldl U64.add 0 vals.

(** [username_from_uid]: [getpwuid] is the oracle [passwd]; the fallback is
    the uid printed as an [unsigned]. *)
Definition username_from_uid (passwd : Z -> option string) (uid : Z) : string :=
  match passwd uid with
  | Some n => n
  | None => pretty.pretty (Z.to_N (uid mod 2 ^ 32))
  end.

(** [100.0 * (double)mem_kb / (double)mem_total_kb], guarded as in the
    source. *)
Definition mem_percent_of (mem_kb mem_total_kb : Z) : double :=
  if 0 <? mem_total_kb
  then div (mul hundred (of_u64 mem_kb)) (of_u64 mem_total_kb)
  else zero.

Definition proc_of_read (passwd : Z -> option string) (mem_total_kb : Z)
    (p : Z) (rd : ProcRead) : ProcInfo :=
  let mem := U64.wrap64 (rd_rss_kb rd) in
  {| pid := p;
     user := username_from_uid passwd (rd_uid rd);
     name := rd_comm rd;
     cpu_percent := zero;
     mem_kb := mem;
     mem_percent := mem_percent_of mem mem_total_kb;
     times := rd_times rd;
     total_time := U64.add (utime (rd_times rd)) (stime (rd_times rd)) |}.

(** [collect_processes]: [reads] pairs every pid returned by [list_pids]
    with the outcome of [read_proc_times] for it; a failed read is skipped. *)
Definition collect_processes (passwd : Z -> option string)
    (reads : list (Z * option ProcRead)) (mem_total_kb : Z) : gmap Z ProcInfo :=
  foldl (fun procs '(p, r) =>
           match r with
           | None => procs
           | Some rd => <[p := proc_of_read passwd mem_total_kb p rd]> procs
           end) ∅ reads.

(** ** Rate engine *)

Definition total_delta_of (old_total_cpu new_total_cpu : Z) : Z :=
  let total_delta := U64.sub new_total_cpu old_total_cpu in
  if total_delta =? 0 then 1 else total_delta.

Definition old_total_proc_of (oldp : gmap Z ProcInfo) (p : Z) : Z :=
  match oldp !! p with
  | Some o => total_time o
  | None => 0
  end.

Definition delta_proc_of (new_total_time old_total_proc : Z) : Z :=
  if old_total_proc <=? new_total_time
  then U64.sub new_total_time old_total_proc
  else 0.

Definition pct_of (delta_proc total_delta : Z) : double :=
  div (mul hundred (of_u64 delta_proc)) (of_u64 total_delta).

Definition update_cpu_percent (oldp newp : gmap Z ProcInfo)
    (old_total_cpu new_total_cpu : Z) : gmap Z ProcInfo :=
  let total_delta := total_delta_of old_total_cpu new_total_cpu in
  map_imap (fun p npi =>
              let old_total_proc := old_total_proc_of oldp p in
              let delta_proc := delta_proc_of (total_time npi) old_total_proc in
              Some (set_cpu_percent npi (pct_of delta_proc total_delta)))
           newp.

(** The idle figure of [main]: field 3 plus field 4 when present. *)
Definition idle_of (fields : list Z) : Z :=
  if 4 <=? Z.of_nat (length fields)
  then U64.add (nth 3 fields 0)
               (if 4 <? Z.of_nat (length fields) then nth 4 fields 0 else 0)
  else 0.

Definition system_cpu_percent (old_fields cur_fields : list Z)
    (old_total_cpu cur_total_cpu : Z) : double :=
  let idle_delta := U64.sub (idle_of cur_fields) (idle_of old_fields) in
  let total_delta := total_delta_of old_total_cpu cur_total_cpu in
  mul hundred (sub one (div (of_u64 idle_delta) (of_u64 total_delta))).

(** ** View builder *)

Definition cmp_cpu (a b : ProcInfo) : bool :=
  if eqb (cpu_percent a) (cpu_percent b) then pid a <? pid b
  else gtb (cpu_percent a) (cpu_percent b).

Definition cmp_mem (a b : ProcInfo) : bool :=
  if eqb (mem_percent a) (mem_percent b) then pid a <? pid b
  else gtb (mem_percent a) (mem_percent b).

Definition cmp_pid (a b : ProcInfo) : bool := pid a <? pid b.

Definition comparator (mode : SortMode) : ProcInfo -> ProcInfo -> bool :=
  match mode with
  | SORT_CPU => cmp_cpu
  | SORT_MEM => cmp_mem
  | SORT_PID => cmp_pid
  end.

(** [a] may stand before [b] in a vector sorted with the strict comparator
    [comp]: [b] is not strictly before [a]. *)
Definition not_after (comp : ProcInfo -> ProcInfo -> bool) : relation ProcInfo :=
  fun a b => comp b a = false.

Global Instance not_after_dec comp a b : Decision (not_after comp a b) :=
  decide (comp b a = false).

(** [std::sort] with the comparator of the mode.  The standard fixes the
    result only up to the order of equivalent elements; [sorted_by_unique]
    below shows that on the vectors of this program no two elements are
    equivalent, so that every conforming [std::sort] returns this list. *)
Definition sort_processes (vec : list ProcInfo) (mode : SortMode) : list ProcInfo :=
  merge_sort (not_after (comparator mode)) vec.

Definition key_le : relation (Z * ProcInfo) := fun a b => a.1 <= b.1.

Global Instance key_le_dec a b : Decision (key_le a b) :=
  decide (a.1 <= b.1).

(** [for (auto &kv : procs) pv.push_back(kv.second)]: the values of the map
    in ascending key order. *)
Definition map_values (procs : gmap Z ProcInfo) : list ProcInfo :=
  (merge_sort key_le (map_to_list procs)).*2.

(** ** Interaction controller *)

Record State := mkState {
  refresh_sec : Z;
  sort_mode : SortMode;
  selected : Z;
  page_offset : Z;
  old_procs : gmap Z ProcInfo;
  cur_procs : gmap Z ProcInfo;
  old_cpu_fields : list Z;
  cur_cpu_fields : list Z;
  old_total_cpu : Z;
  mem_total_kb : Z;
  mem_free_kb : Z;
  mem_available_kb : Z;
  total_cpu_percent : double;
  running : bool;
  last_refresh : Z   (* steady_clock time point, in nanoseconds *)
}.

Definition set_selected (st : State) (v : Z) : State :=
  mkState (refresh_sec st) (sort_mode st) v (page_offset st) (old_procs st)
    (cur_procs st) (old_cpu_fields st) (cur_cpu_fields st) (old_total_cpu st)
    (mem_total_kb st) (mem_free_kb st) (mem_available_kb st)
    (total_cpu_percent st) (running st) (last_refresh st).

Definition set_page_offset (st : State) (v : Z) : State :=
  mkState (refresh_sec st) (sort_mode st) (selected st) v (old_procs st)
    (cur_procs st) (old_cpu_fields st) (cur_cpu_fields st) (old_total_cpu st)
    (mem_total_kb st) (mem_free_kb st) (mem_available_kb st)
    (total_cpu_percent st) (running st) (last_refresh st).

Definition set_sort_mode (st : State) (v : SortMode) : State :=
  mkState (refresh_sec st) v (selected st) (page_offset st) (old_procs st)
    (cur_procs st) (old_cpu_fields st) (cur_cpu_fields st) (old_total_cpu st)
    (mem_total_kb st) (mem_free_kb st) (mem_available_kb st)
    (total_cpu_percent st) (running st) (last_refresh st).

Definition set_running (st : State) (v : bool) : State :=
  mkState (refresh_sec st) (sort_mode st) (selected st) (page_offset st)
    (old_procs st) (cur_procs st) (old_cpu_fields st) (cur_cpu_fields st)
    (old_total_cpu st) (mem_total_kb st) (mem_free_kb st) (mem_available_kb st)
    (total_cpu_percent st) v (last_refresh st).

Definition set_last_refresh (st : State) (v : Z) : State :=
  mkState (refresh_sec st) (sort_mode st) (selected st) (page_offset st)
    (old_procs st) (cur_procs st) (old_cpu_fields st) (cur_cpu_fields st)
    (old_total_cpu st) (mem_total_kb st) (mem_free_kb st) (mem_available_kb st)
    (total_cpu_percent st) (running st) v.

(** What the program does to the outside world. *)
Inductive Output :=
  | ODialog (target : Z)                 (* the confirmation dialog of [confirm_kill] *)
  | OSignal (target sig : Z)             (* [kill(pid, sig)] *)
  | OMessage (delivered : bool)          (* the success or failure window *)
  | ODrawHeader (mem_total : Z) (cpu : double) (refresh : Z) (mode : SortMode)
  | ODrawProcesses (procs : list ProcInfo) (sel offset : Z).

(** Everything one iteration of the main loop reads from outside. *)
Record Input := mkInput {
  in_getch : Z;                          (* [getch()], [ERR] when no key *)
  in_clock_key : Z;                      (* [steady_clock::now()] in the key handler *)
  in_dialog_key : Z;                     (* [wgetch(dlg)] in [confirm_kill] *)
  in_kill_ret : Z;                       (* the return value of [kill] *)
  in_body_maxy : Z;                      (* [getmaxy(body)] *)
  in_now : Z;                            (* [steady_clock::now()] before the refresh test *)
  in_stat : option (list Z);             (* [read_total_cpu]: the new fields, if it got that far *)
  in_meminfo : option (Z * Z * Z);       (* [read_meminfo]: total, free, available *)
  in_procs : list (Z * option ProcRead); (* [list_pids] with [read_proc_times] *)
  in_passwd : Z -> option string         (* [getpwuid] *)
}.

Definition chr (c : ascii) : Z := Z.of_N (N_of_ascii c).

Definition ERR : Z := -1.
Definition KEY_DOWN : Z := 258.
Definition KEY_UP : Z := 259.
Definition KEY_NPAGE : Z := 338.
Definition KEY_PPAGE : Z := 339.
Definition SIGKILL : Z := 9.
Definition SIGTERM : Z := 15.

Definition is_key (ch : Z) (lower upper : ascii) : bool :=
  (ch =? chr lower) || (ch =? chr upper).

Definition seconds (s : Z) : Z := s * 1000000000.

Definition next_sort_mode (m : SortMode) : SortMode :=
  match m with
  | SORT_CPU => SORT_MEM
  | SORT_MEM => SORT_PID
  | SORT_PID => SORT_CPU
  end.

(** [confirm_kill]: the outputs and the returned flag. *)
Definition confirm_kill (ch kill_ret target : Z) : list Output * bool :=
  let sig :=
    if is_key ch "t" "T" then Some SIGTERM
    else if is_key ch "k" "K" then Some SIGKILL
    else None in
  match sig with
  | Some sg =>
      if kill_ret =? 0
      then ([ODialog target; OSignal target sg; OMessage true], true)
      else ([ODialog target; OSignal target sg; OMessage false], false)
  | None => ([ODialog target], false)
  end.

(** [pv[i]] on a vector: reading outside the vector is undefined. *)
Definition vec_at (pv : list ProcInfo) (i : Z) : Res ProcInfo :=
  if i <? 0 then Undef OutOfBounds
  else match pv !! Z.to_nat i with
       | Some p => Ok p
       | None => Undef OutOfBounds
       end.

(** The vector the kill handler builds from [cur_procs]. *)
Definition kill_view (st : State) : list ProcInfo :=
  sort_processes (map_values (cur_procs st)) (sort_mode st).

Definition handle_kill (inp : Input) (st : State) : Res (State * list Output) :=
  let pv := kill_view st in
  if (0 <=? selected st) && (selected st <? Int.of_unsigned (Z.of_nat (length pv)))
  then
    p <- vec_at pv (selected st) ;;
    let '(outs, _) := confirm_kill (in_dialog_key inp) (in_kill_ret inp) (pid p) in
    Ok (set_last_refresh st (in_clock_key inp - seconds (refresh_sec st)), outs)
  else Ok (st, []).

(** The key dispatch of the main loop, for a key other than [ERR]. *)
Definition handle_key (inp : Input) (st : State) : Res (State * list Output) :=
  let ch := in_getch inp in
  if is_key ch "q" "Q" then Ok (set_running st false, [])
  else if ch =? KEY_UP then
    let st1 := if 0 <? selected st then set_selected st (selected st - 1) else st in
    let st2 := if selected st1 <? page_offset st1
               then set_page_offset st1 (selected st1) else st1 in
    Ok (st2, [])
  else if ch =? KEY_DOWN then
    s <- Int.add (selected st) 1 ;;
    Ok (set_selected st s, [])
  else if ch =? KEY_NPAGE then
    body_rows <- Int.sub (in_body_maxy inp) 3 ;;
    s <- Int.add (selected st) (Z.max 1 body_rows) ;;
    Ok (set_selected st s, [])
  else if ch =? KEY_PPAGE then
    body_rows <- Int.sub (in_body_maxy inp) 3 ;;
    s <- Int.sub (selected st) (Z.max 1 body_rows) ;;
    Ok (set_selected st (if s <? 0 then 0 else s), [])
  else if is_key ch "s" "S" then
    Ok (set_sort_mode st (next_sort_mode (sort_mode st)), [])
  else if is_key ch "r" "R" then
    Ok (set_last_refresh st (in_clock_key inp - seconds (refresh_sec st)), [])
  else if is_key ch "k" "K" then handle_kill inp st
  else Ok (st, []).

(** The vector prepared for drawing in the refresh cycle. *)
Definition refresh_view (procs : gmap Z ProcInfo) (mem_total : Z)
    (mode : SortMode) : list ProcInfo :=
  sort_processes
    (map (fun p => set_mem_percent p (mem_percent_of (mem_kb p) mem_total))
         (map_values procs))
    mode.

(** "adjust selected bounds" *)
Definition clamp_selected (sel size : Z) : Res Z :=
  s1 <- (if Int.of_unsigned size <=? sel
         then (m <- Int.sub (Int.of_unsigned size) 1 ;; Ok (Z.max 0 m))
         else Ok sel) ;;
  Ok (if s1 <? 0 then 0 else s1).

(** "adjust page offset to keep selected visible" *)
Definition adjust_page_offset (sel offset maxy : Z) : Res Z :=
  r <- Int.sub maxy 3 ;;
  let body_rows := if r <? 1 then 1 else r in
  if sel <? offset then Ok sel
  else
    bottom <- Int.add offset body_rows ;;
    if bottom <=? sel
    then (d <- Int.sub sel body_rows ;; Int.add d 1)
    else Ok offset.

(** The body of [if (now - last_refresh >= seconds(refresh_sec))]. *)
Definition refresh (inp : Input) (st : State) : Res (State * list Output) :=
  let cur_fields := match in_stat inp with
                    | Some f => f
                    | None => cur_cpu_fields st
                    end in
  let cur_total_cpu := total_cpu_time cur_fields in
  let '(mt, mf, ma) := match in_meminfo inp with
                       | Some m => m
                       | None => (mem_total_kb st, mem_free_kb st, mem_available_kb st)
                       end in
  let collected := collect_processes (in_passwd inp) (in_procs inp) mt in
  let procs := update_cpu_percent (old_procs st) collected
                 (old_total_cpu st) cur_total_cpu in
  let cpu := system_cpu_percent (old_cpu_fields st) cur_fields
               (old_total_cpu st) cur_total_cpu in
  let pv := refresh_view procs mt (sort_mode st) in
  sel <- clamp_selected (selected st) (Z.of_nat (length pv)) ;;
  off <- adjust_page_offset sel (page_offset st) (in_body_maxy inp) ;;
  Ok (mkState (refresh_sec st) (sort_mode st) sel off
        procs procs cur_fields cur_fields (total_cpu_time cur_fields)
        mt mf ma cpu (running st) (in_now inp),
      [ODrawHeader mt cpu (refresh_sec st) (sort_mode st);
       ODrawProcesses pv sel off]).

(** One pass through the body of [while (running)]. *)
Definition iteration (inp : Input) (st : State) : Res (State * list Output) :=
  r1 <- (if in_getch inp =? ERR then Ok (st, []) else handle_key inp st) ;;
  let '(st1, outs1) := r1 in
  if negb (running st1) then Ok (st1, outs1)
  else if seconds (refresh_sec st1) <=? in_now inp - last_refresh st1
  then (r2 <- refresh inp st1 ;; Ok (r2.1, outs1 ++ r2.2))
  else Ok (st1, outs1).

(** ** Command line *)

(** What [std::stoi] does with its argument: a value, or one of the two
    exceptions it throws. *)
Inductive StoiResult :=
  | StoiOk (v : Z)
  | StoiInvalidArgument
  | StoiOutOfRange.

Definition isspace (c : ascii) : bool :=
  let n := Z.of_N (N_of_ascii c) in
  (n =? 32) || ((9 <=? n) && (n <=? 13)).

Definition digit_of (c : ascii) : option Z :=
  let n := Z.of_N (N_of_ascii c) in
  if (48 <=? n) && (n <=? 57) then Some (n - 48) else None.

Fixpoint skip_spaces (s : string) : string :=
  match s with
  | String c r => if isspace c then skip_spaces r else s
  | EmptyString => s
  end.

(** The longest run of decimal digits at the head of [s], as a number;
    [seen] tells whether a digit has been consumed already. *)
Fixpoint read_digits (s : string) (acc : Z) (seen : bool) : option Z :=
  match s with
  | String c r =>
      match digit_of c with
      | Some d => read_digits r (acc * 10 + d) true
      | None => if seen then Some acc else None
      end
  | EmptyString => if seen then Some acc else None
  end.

Definition split_sign (s : string) : bool * string :=
  match s with
  | String c r =>
      if Ascii.eqb c "-" then (true, r)
      else if Ascii.eqb c "+" then (false, r)
      else (false, s)
  | EmptyString => (false, s)
  end.

(** [std::stoi(s)] in base 10: leading white space, an optional sign, the
    longest run of digits; the rest of the string is ignored. *)
Definition stoi (s : string) : StoiResult :=
  let '(neg, body) := split_sign (skip_spaces s) in
  match read_digits body 0 false with
  | None => StoiInvalidArgument
  | Some v =>
      let v' := if neg then - v else v in
      if (Int.min_int <=? v') && (v' <=? Int.max_int)
      then StoiOk v' else StoiOutOfRange
  end.

(** The first statements of [main]: [argv] holds [argc] strings. *)
Definition parse_refresh_sec (argv : list string) : Z :=
  match argv with
  | _ :: a1 :: _ =>
      match stoi a1 with
      | StoiOk v => if v <? 1 then 1 else v
      | StoiInvalidArgument | StoiOutOfRange => 2
      end
  | _ => 2
  end.

(** ** The program *)

Record InitInput := mkInitInput {
  init_stat : option (list Z);
  init_meminfo : option (Z * Z * Z);
  init_clock : Z
}.

Definition initial_state (argv : list string) (ini : InitInput) : State :=
  let refresh_sec := parse_refresh_sec argv in
  let old_fields := match init_stat ini with Some f => f | None => [] end in
  let '(mt, mf, ma) := match init_meminfo ini with
                       | Some m => m
                       | None => (0, 0, 0)
                       end in
  {| refresh_sec := refresh_sec;
     sort_mode := SORT_CPU;
     selected := 0;
     page_offset := 0;
     old_procs := ∅;
     cur_procs := ∅;
     old_cpu_fields := old_fields;
     cur_cpu_fields := [];
     old_total_cpu := total_cpu_time old_fields;
     mem_total_kb := mt;
     mem_free_kb := mf;
     mem_available_kb := ma;
     total_cpu_percent := zero;
     running := true;
     last_refresh := init_clock ini - seconds refresh_sec |}.

(** How a run over a finite sequence of loop inputs ends. *)
Inductive Outcome :=
  | Exited (code : Z) (final : State) (outs : list Output)
  | Pending (st : State) (outs : list Output)
  | Faulted (f : Fault) (outs : list Output).

(** [while (running) { ... }] over the inputs of successive iterations,
    followed by [return 0]. *)
Fixpoint run (inputs : list Input) (st : State) (outs : list Output) : Outcome :=
  if running st then
    match inputs with
    | [] => Pending st outs
    | inp :: rest =>
        match iteration inp st with
        | Ok (st', outs') => run rest st' (outs ++ outs')
        | Undef f => Faulted f outs
        end
    end
  else Exited 0 st outs.

Definition main (argv : list string) (ini : InitInput) (inputs : list Input) : Outcome :=
  run inputs (initial_state argv ini) [].

(** ** Notions used to state the properties *)

(** A string of decimal digits and nothing else, as a number. *)
Fixpoint digits_only (s : string) (acc : Z) (seen : bool) : option Z :=
  match s with
  | String c r =>
      match digit_of c with
      | Some d => digits_only r (acc * 10 + d) true
      | None => None
      end
  | EmptyString => if seen then Some acc else None
  end.

(** The argument is numeric: an optional sign followed by decimal digits and
    nothing else; the result is the number it denotes. *)
Definition numeric_value (s : string) : option Z :=
  let '(neg, body) := split_sign s in
  match digits_only body 0 false with
  | Some v => Some (if neg then - v else v)
  | None => None
  end.

(** After white space and an optional sign the argument goes on with a
    decimal digit. *)
Definition leading_digit (s : string) : bool :=
  match (split_sign (skip_spaces s)).2 with
  | String c _ => bool_decide (is_Some (digit_of c))
  | EmptyString => false
  end.

(** The entries of a vector that the engine can produce: the percentages
    are numbers, not NaN. *)
Definition ordered_entry (p : ProcInfo) : Prop :=
  is_nan (cpu_percent p) = false /\ is_nan (mem_percent p) = false.

(** A conforming result of [std::sort(vec, comp)]: a rearrangement of [vec]
    in which no element is strictly before one of its predecessors. *)
Definition sorted_by (comp : ProcInfo -> ProcInfo -> bool)
    (vec out : list ProcInfo) : Prop :=
  out ≡ₚ vec /\ StronglySorted (not_after comp) out.

(** The position of a double on the number line, as a triple compared
    lexicographically: class, exponent, mantissa. *)
Definition rank (x : double) : Z * Z * Z :=
  match x with
  | S754_nan | S754_zero _ => (0, 0, 0)
  | S754_infinity s => (if s then -2 else 2, 0, 0)
  | S754_finite s m e => if s then (-1, - e, Zneg m) else (1, e, Zpos m)
  end.

Definition lt3 (a b : Z * Z * Z) : Prop :=
  let '(a1, a2, a3) := a in
  let '(b1, b2, b3) := b in
  a1 < b1 \/ (a1 = b1 /\ (a2 < b2 \/ (a2 = b2 /\ a3 < b3))).

(** Descending by a ranked metric, ties broken by ascending pid. *)
Definition desc_then_pid (ka kb : Z * Z * Z) (pa pb : Z) : Prop :=
  lt3 kb ka \/ (ka = kb /\ pa < pb).

Definition metric (mode : SortMode) (p : ProcInfo) : Z * Z * Z :=
  match mode with
  | SORT_CPU => rank (cpu_percent p)
  | SORT_MEM => rank (mem_percent p)
  | SORT_PID => (0, 0, 0)
  end.

Definition before (mode : SortMode) (a b : ProcInfo) : Prop :=
  desc_then_pid (metric mode a) (metric mode b) (pid a) (pid b).

(** The order of each mode in the words of its description: descending
    percentage with ties broken by ascending pid, or ascending pid. *)
Definition listed_before (mode : SortMode) (a b : ProcInfo) : Prop :=
  match mode with
  | SORT_CPU =>
      gtb (cpu_percent a) (cpu_percent b) = true \/
      (eqb (cpu_percent a) (cpu_percent b) = true /\ pid a < pid b)
  | SORT_MEM =>
      gtb (mem_percent a) (mem_percent b) = true \/
      (eqb (mem_percent a) (mem_percent b) = true /\ pid a < pid b)
  | SORT_PID => pid a < pid b
  end.

(** What the sorting theorem asks of a vector: pairwise distinct pids and
    percentages that are numbers. *)
Definition sortable (vec : list ProcInfo) : Prop :=
  NoDup (pid <$> vec) /\ Forall ordered_entry vec.

(** The comparator of [mode] is a strict total order on [vec], and sorting
    [vec] has one possible result. *)
Definition total_order_sorting (mode : SortMode) (vec : list ProcInfo) : Prop :=
  let comp := comparator mode in
  (forall a b, comp a b = true <-> listed_before mode a b) /\
  (forall a, a ∈ vec -> comp a a = false) /\
  (forall a b c, a ∈ vec -> b ∈ vec -> c ∈ vec ->
     comp a b = true -> comp b c = true -> comp a c = true) /\
  (forall a b, a ∈ vec -> b ∈ vec -> a <> b -> comp a b = true \/ comp b a = true) /\
  sorted_by comp vec (sort_processes vec mode) /\
  (forall out, sorted_by comp vec out -> out = sort_processes vec mode) /\
  (forall vec', vec' ≡ₚ vec -> sort_processes vec' mode = sort_processes vec mode) /\
  sort_processes (sort_processes vec mode) mode = sort_processes vec mode /\
  (mode = SORT_PID ->
   StronglySorted (fun a b => pid a < pid b) (sort_processes vec mode)).

(** The pid stored in an entry is the key it is stored under. *)
Definition keyed_by_pid (m : gmap Z ProcInfo) : Prop :=
  forall k p, m !! k = Some p -> pid p = k.

(** What a completed refresh cycle leaves behind. *)
Record refreshed (inp : Input) (st st' : State) (outs : list Output) : Prop := {
  rf_fields : cur_cpu_fields st' =
              match in_stat inp with Some f => f | None => cur_cpu_fields st end;
  rf_mem : mem_total_kb st' =
           match in_meminfo inp with Some m => m.1.1 | None => mem_total_kb st end;
  rf_cur : cur_procs st' =
           update_cpu_percent (old_procs st)
             (collect_processes (in_passwd inp) (in_procs inp) (mem_total_kb st'))
             (old_total_cpu st) (total_cpu_time (cur_cpu_fields st'));
  rf_old : old_procs st' = cur_procs st';
  rf_old_fields : old_cpu_fields st' = cur_cpu_fields st';
  rf_old_total : old_total_cpu st' = total_cpu_time (cur_cpu_fields st');
  rf_cpu : total_cpu_percent st' =
           system_cpu_percent (old_cpu_fields st) (cur_cpu_fields st')
             (old_total_cpu st) (total_cpu_time (cur_cpu_fields st'));
  rf_mode : sort_mode st' = sort_mode st;
  rf_sec : refresh_sec st' = refresh_sec st;
  rf_running : running st' = running st;
  rf_last : last_refresh st' = in_now inp;
  rf_selected : clamp_selected (selected st)
                  (Z.of_nat (length (refresh_view (cur_procs st') (mem_total_kb st')
                                       (sort_mode st)))) = Ok (selected st');
  rf_offset : adjust_page_offset (selected st') (page_offset st) (in_body_maxy inp)
              = Ok (page_offset st');
  rf_outs : outs =
            [ODrawHeader (mem_total_kb st') (total_cpu_percent st')
               (refresh_sec st) (sort_mode st);
             ODrawProcesses
               (refresh_view (cur_procs st') (mem_total_kb st') (sort_mode st))
               (selected st') (page_offset st')]
}.

(** The keys that move the selection. *)
Definition movement_key (ch : Z) : Prop :=
  ch = KEY_UP \/ ch = KEY_DOWN \/ ch = KEY_NPAGE \/ ch = KEY_PPAGE.

(** The state of the controller is consistent with the counters it keeps. *)
Definition totals_consistent (st : State) : Prop :=
  old_total_cpu st = total_cpu_time (old_cpu_fields st).

(** What the key handler may change: the selection, the scroll offset, the
    sort mode, the running flag and the refresh timer; nothing else. *)
Record key_frame (st st' : State) : Prop := {
  kf_old_procs : old_procs st' = old_procs st;
  kf_cur_procs : cur_procs st' = cur_procs st;
  kf_old_fields : old_cpu_fields st' = old_cpu_fields st;
  kf_cur_fields : cur_cpu_fields st' = cur_cpu_fields st;
  kf_old_total : old_total_cpu st' = old_total_cpu st;
  kf_mem_total : mem_total_kb st' = mem_total_kb st;
  kf_refresh_sec : refresh_sec st' = refresh_sec st;
  kf_cpu : total_cpu_percent st' = total_cpu_percent st
}.

(** The invariant of the main loop. *)
Definition loop_invariant (st : State) : Prop :=
  totals_consistent st /\ 0 <= selected st /\ 0 <= page_offset st /\
  1 <= refresh_sec st.

(** The input of an iteration in which no key is waiting. *)
Definition no_key (inp : Input) : Input :=
  mkInput ERR (in_clock_key inp) (in_dialog_key inp) (in_kill_ret inp)
          (in_body_maxy inp) (in_now inp) (in_stat inp) (in_meminfo inp)
          (in_procs inp) (in_passwd inp).

(** The memory total of an input fits the type it is read into. *)
Definition typed_meminfo (m : option (Z * Z * Z)) : Prop :=
  match m with
  | Some (mt, _, _) => U64.in_range mt
  | None => True
  end.

(** The process map of a state holds entries that the comparators order:
    stored under their pids, with percentages that are numbers. *)
Definition view_invariant (st : State) : Prop :=
  U64.in_range (mem_total_kb st) /\
  keyed_by_pid (cur_procs st) /\
  (forall k p, cur_procs st !! k = Some p -> ordered_entry p).

(** ** Outcomes named in the theorems *)



(** What a refresh that follows leaves of the selection and of the window,
    with [rows] the height of the window: the index is inside the list it
    draws (index 0 when that list is empty) and inside the window; an index
    beyond the list becomes its last index, any other is kept; the window
    moves up to an index above it, down just far enough for an index below
    it, and stays for an index inside it. *)
Definition selection_restored (st1 : State) : Prop :=
  forall inp' st2 outs pv sel off,
    refresh inp' st1 = Ok (st2, outs) ->
    ODrawProcesses pv sel off ∈ outs ->
    Z.of_nat (length pv) <= Int.max_int ->
    let rows := Z.max 1 (in_body_maxy inp' - 3) in
    sel = selected st2 /\ off = page_offset st2 /\
    0 <= selected st2 <= Z.max 0 (Z.of_nat (length pv) - 1) /\
    page_offset st2 <= selected st2 < page_offset st2 + rows /\
    selected st2 =
      (if Z.of_nat (length pv) <=? selected st1
       then Z.max 0 (Z.of_nat (length pv) - 1)
       else Z.max 0 (selected st1)) /\
    page_offset st2 =
      (if selected st2 <? page_offset st1 then selected st2
       else if page_offset st1 + rows <=? selected st2
            then selected st2 - rows + 1
            else page_offset st1).

(** The arithmetic of the movement key stays inside [int]: the down key
    can add 1 to the index, the page keys can compute the height of the
    window, page down can add it to the index, and for page up the index is
    an [int].  The up key asks for nothing. *)
Definition movement_defined (inp : Input) (st : State) : Prop :=
  (in_getch inp = KEY_DOWN -> selected st + 1 <= Int.max_int) /\
  (in_getch inp = KEY_NPAGE ->
   Int.in_range (in_body_maxy inp - 3) /\
   selected st + Z.max 1 (in_body_maxy inp - 3) <= Int.max_int) /\
  (in_getch inp = KEY_PPAGE ->
   Int.in_range (in_body_maxy inp - 3) /\ selected st <= Int.max_int).

(** The effect of a movement key on state [st]: nothing is drawn; the index
    stays at or above 0 and has no upper clamp; only the up key moves the
    window, and only upwards; the refresh that follows restores the rest. *)
Definition movement_outcome (inp : Input) (st : State) : Prop :=
  exists st1,
    handle_key inp st = Ok (st1, []) /\
    0 <= selected st1 /\
    page_offset st1 <= page_offset st /\
    (in_getch inp = KEY_UP ->
     selected st1 = Z.max 0 (selected st - 1) /\
     page_offset st1 = Z.min (page_offset st) (selected st1)) /\
    (in_getch inp <> KEY_UP -> page_offset st1 = page_offset st) /\
    (in_getch inp = KEY_DOWN -> selected st1 = selected st + 1) /\
    (in_getch inp = KEY_NPAGE ->
     selected st1 = selected st + Z.max 1 (in_body_maxy inp - 3)) /\
    (in_getch inp = KEY_PPAGE ->
     selected st1 = Z.max 0 (selected st - Z.max 1 (in_body_maxy inp - 3))) /\
    selection_restored st1.

(** ** Concrete runs *)

Module Sample.

Definition reading (u s rss : Z) : ProcRead :=
  mkProcRead (mkProcTimes u s) rss "proc" 1000.

Definition no_passwd : Z -> option string := fun _ => None.

(** Start-up: /proc/stat holds 1000 ticks in total, 8,000,000 KB of memory. *)
Definition boot : InitInput :=
  mkInitInput (Some [100; 0; 50; 800; 50]) (Some (8000000, 4000000, 6000000)) 0.

Definition started : State := initial_state ["sysmon"%string] boot.

(** A loop iteration with key [key] at time [now] (in nanoseconds) that
    finds the counters [stat] and the processes [procs]; the answer in a
    kill dialog is [t] and [kill] succeeds. *)
Definition tick (key now : Z) (stat : list Z)
    (procs : list (Z * option ProcRead)) : Input :=
  mkInput key now (chr "t") 0 24 now (Some stat)
          (Some (8000000, 4000000, 6000000)) procs no_passwd.

(** 100 ticks after start-up: pid 10 has used 10 ticks and holds 80,000 KB,
    pid 20 has used none and holds 800,000 KB, pid 30 vanished while it was
    being read. *)
Definition first_tick : Input :=
  tick ERR 0 [150; 0; 50; 850; 50]
    [(10, Some (reading 5 5 80000)); (20, Some (reading 0 0 800000)); (30, None)].

(** Two seconds later nothing has moved: the same counters everywhere. *)
Definition idle_tick : Input :=
  tick ERR 2000000000 [150; 0; 50; 850; 50]
    [(10, Some (reading 5 5 80000)); (20, Some (reading 0 0 800000))].

(** Two seconds later /proc/stat has not moved, pid 10 is two ticks on. *)
Definition busy_tick : Input :=
  tick ERR 2000000000 [150; 0; 50; 850; 50]
    [(10, Some (reading 6 6 80000)); (20, Some (reading 0 0 800000))].

(** Two seconds later pid 10 is another process: its counter restarted. *)
Definition reuse_tick : Input :=
  tick ERR 2000000000 [250; 0; 50; 850; 50]
    [(10, Some (reading 2 2 4000)); (20, Some (reading 0 0 800000))].

(** Key presses half a second after the first refresh. *)
Definition sort_tick : Input := tick (chr "s") 500000000 [] [].
Definition down_tick : Input := tick KEY_DOWN 500000000 [] [].

(** The kill key one second after the first refresh; afterwards only
    pid 10 is left. *)
Definition kill_tick : Input :=
  tick (chr "k") 1000000000 [160; 0; 50; 860; 50]
    [(10, Some (reading 6 6 80000))].

Definition state_after (inp : Input) (st : State) : State :=
  match iteration inp st with
  | Ok r => r.1
  | Undef _ => st
  end.

Definition after_first : State :=
  Eval vm_compute in state_after first_tick started.

Definition entry (p : Z) (cpu mem : Z) : ProcInfo :=
  mkProcInfo p "user" "proc" (of_u64 cpu) (mem * 80000) (of_u64 mem)
             (mkProcTimes 0 0) 0.

(** Three entries: two with the same CPU percentage. *)
Definition entries : list ProcInfo :=
  [entry 30 5 1; entry 10 5 7; entry 20 50 3].

End Sample.


(** * The readers of /proc and the process table

    The second part of the model: the functions that produce what the
    main loop above takes as its inputs, and the function that prints the
    table.

    - The content of a file is a [string]; a file that cannot be opened is
      [None].  A directory is the list of its entries.
    - A reader ends in [Done] with its result, or in [Fails]: with an
      exception that nothing in the program catches ([Thrown]), with
      undefined arithmetic ([Faulty]) or with the use of a variable that was
      never written ([Indeterminate]).
    - [stream >> x] follows the rules of [num_get] since C++11: white space
      is skipped; at the end of the stream [x] is left alone; without a
      digit the extraction fails and [x] is 0; a number beyond the type
      fails and [x] is the largest value.
    - [::isdigit] is true of the ten digits, [isspace] of the blank and of
      the characters 9 to 13; the bytes above 127 are neither.
    - The loops over a stream are bounded by the length of the text; the
      lemmas [meminfo_loop_fuel] and [extract_all_fuel] show that the bound
      is never reached. *)

(** ** The standard library, as the readers use it *)

(** The exceptions of the string conversions and of [substr]. *)
Inductive Exception := InvalidArgument | OutOfRange.

(** How a reader ends when it does not return: an exception that nothing
    catches, undefined arithmetic, or the use of a variable that was never
    written. *)
Inductive Failure :=
  | Thrown (e : Exception)
  | Faulty (f : Fault)
  | Indeterminate.

Inductive Run (A : Type) : Type :=
  | Done (a : A)
  | Fails (x : Failure).

Arguments Done {A} a.
Arguments Fails {A} x.

Definition and_then {A B : Type} (m : Run A) (k : A -> Run B) : Run B :=
  match m with
  | Done a => k a
  | Fails x => Fails x
  end.

Notation "x <~ m ;; k" := (and_then m (fun x => k))
  (at level 100, m at next level, right associativity).

(** [std::to_string] of an integer. *)
Definition to_string (x : Z) : string := pretty.pretty x.

(** [::isdigit] on a character of a name. *)
Definition isdigit (c : ascii) : bool :=
  match digit_of c with Some _ => true | None => false end.

(** [s.size()], [s.find(c)], [s.rfind(c)]: positions are counted from 0,
    [None] is [npos]. *)
Fixpoint find_char (c : ascii) (s : string) : option nat :=
  match s with
  | EmptyString => None
  | String a r =>
      if Ascii.eqb a c then Some 0%nat
      else match find_char c r with
           | Some i => Some (S i)
           | None => None
           end
  end.

Fixpoint rfind_char (c : ascii) (s : string) : option nat :=
  match s with
  | EmptyString => None
  | String a r =>
      match rfind_char c r with
      | Some i => Some (S i)
      | None => if Ascii.eqb a c then Some 0%nat else None
      end
  end.

Fixpoint sdrop (n : nat) (s : string) : string :=
  match n, s with
  | O, _ => s
  | S n', String _ r => sdrop n' r
  | S _, EmptyString => EmptyString
  end.

Fixpoint stake (n : nat) (s : string) : string :=
  match n, s with
  | O, _ => EmptyString
  | S n', String a r => String a (stake n' r)
  | S _, EmptyString => EmptyString
  end.

(** [s.substr(pos, len)] and [s.substr(pos)]: [out_of_range] when [pos] is
    beyond the end. *)
Definition substr (s : string) (pos len : nat) : Run string :=
  if (pos <=? String.length s)%nat then Done (stake len (sdrop pos s))
  else Fails (Thrown OutOfRange).

Definition substr_from (s : string) (pos : nat) : Run string :=
  if (pos <=? String.length s)%nat then Done (sdrop pos s)
  else Fails (Thrown OutOfRange).

(** [s.rfind(prefix, 0) == 0]: [s] starts with [prefix]. *)
Fixpoint starts_with (prefix s : string) : bool :=
  match prefix, s with
  | EmptyString, _ => true
  | String a p, String b r => Ascii.eqb a b && starts_with p r
  | String _ _, EmptyString => false
  end.

(** [std::getline]: the text up to the first newline, and what follows the
    newline. *)
Fixpoint line_break (s : string) : string * string :=
  match s with
  | EmptyString => (EmptyString, EmptyString)
  | String c r =>
      if Ascii.eqb c "010" then (EmptyString, r)
      else let '(l, rest) := line_break r in (String c l, rest)
  end.

Definition first_line (s : string) : string := (line_break s).1.

(** The lines that [while (getline(f, line))] goes through. *)
Fixpoint lines_of (s : string) : list string :=
  match s with
  | EmptyString => []
  | String c r =>
      if Ascii.eqb c "010" then EmptyString :: lines_of r
      else match lines_of r with
           | l :: ls => String c l :: ls
           | [] => [String c EmptyString]
           end
  end.

(** The strings that [while (iss >> tok)] goes through: the maximal runs of
    characters that are not white space. *)
Fixpoint tokens (s : string) : list string :=
  match s with
  | EmptyString => []
  | String c r =>
      if isspace c then tokens r
      else match r with
           | String c' _ =>
               if isspace c' then String c EmptyString :: tokens r
               else match tokens r with
                    | t :: ts => String c t :: ts
                    | [] => [String c EmptyString]
                    end
           | EmptyString => [String c EmptyString]
           end
  end.

(** [stream >> str]: skip white space, then take the characters up to the
    next white space; fails when nothing is left. *)
Fixpoint take_token (s : string) : string * string :=
  match s with
  | EmptyString => (EmptyString, EmptyString)
  | String c r =>
      if isspace c then (EmptyString, s)
      else let '(t, rest) := take_token r in (String c t, rest)
  end.

Definition extract_token (s : string) : option (string * string) :=
  match skip_spaces s with
  | EmptyString => None
  | s' => Some (take_token s')
  end.

(** The digits at the head of [s]: their value, how many there are, and
    what follows them. *)
Fixpoint take_digits (s : string) (acc : Z) (n : nat) : Z * nat * string :=
  match s with
  | String c r =>
      match digit_of c with
      | Some d => take_digits r (acc * 10 + d) (S n)
      | None => (acc, n, s)
      end
  | EmptyString => (acc, n, s)
  end.

(** What [stream >> x] does for an unsigned 64-bit [x]. *)
Inductive Extracted :=
  | ExtValue (v : Z) (rest : string)   (* success *)
  | ExtNoDigits                         (* failbit, [x] set to 0 *)
  | ExtOverflow                         (* failbit, [x] set to the maximum *)
  | ExtEnd.                             (* nothing but white space: [x] untouched *)

Definition extract_u64 (s : string) : Extracted :=
  match skip_spaces s with
  | EmptyString => ExtEnd
  | s' =>
      let '(neg, body) := split_sign s' in
      let '(v, n, rest) := take_digits body 0 0 in
      if (n =? 0)%nat then ExtNoDigits
      else if U64.modulus <=? v then ExtOverflow
      else ExtValue (if neg then U64.wrap64 (- v) else v) rest
  end.

(** [std::stoull] and [std::stol] (64-bit [long]), in base 10. *)
Definition stoull (s : string) : Run Z :=
  let '(neg, body) := split_sign (skip_spaces s) in
  match read_digits body 0 false with
  | None => Fails (Thrown InvalidArgument)
  | Some v =>
      if U64.modulus <=? v then Fails (Thrown OutOfRange)
      else Done (if neg then U64.wrap64 (- v) else v)
  end.

Definition stol (s : string) : Run Z :=
  let '(neg, body) := split_sign (skip_spaces s) in
  match read_digits body 0 false with
  | None => Fails (Thrown InvalidArgument)
  | Some v =>
      let v' := if neg then - v else v in
      if (- 2 ^ 63 <=? v') && (v' <=? 2 ^ 63 - 1) then Done v'
      else Fails (Thrown OutOfRange)
  end.

(** [parse_ull]: [stoull] with every exception turned into 0. *)
Definition parse_ull (s : string) : Z :=
  match stoull s with
  | Done v => v
  | Fails _ => 0
  end.

(** Signed 64-bit arithmetic ([long]). *)
Definition long_checked (x : Z) : Run Z :=
  if (- 2 ^ 63 <=? x) && (x <=? 2 ^ 63 - 1) then Done x
  else Fails (Faulty SignedOverflow).

(** ** The readers of /proc *)

(** The body of [while (f >> key >> val >> unit)] in [read_meminfo]. *)
Definition meminfo_assign (key : string) (val : Z) (m : Z * Z * Z) : Z * Z * Z :=
  let '(total, free, avail) := m in
  if String.eqb key "MemTotal:" then (val, free, avail)
  else if String.eqb key "MemFree:" then (total, val, avail)
  else if String.eqb key "MemAvailable:" then (total, free, val)
  else m.

(** The loop of [read_meminfo] on what is left of the file; every round
    consumes at least one character, so [fuel] at least the length of [s]
    is never exhausted. *)
Fixpoint meminfo_loop (fuel : nat) (s : string) (m : Z * Z * Z) : Z * Z * Z :=
  match fuel with
  | O => m
  | S fuel' =>
      match extract_token s with
      | None => m
      | Some (key, s1) =>
          match extract_u64 s1 with
          | ExtValue val s2 =>
              match extract_token s2 with
              | None => m
              | Some (_, s3) => meminfo_loop fuel' s3 (meminfo_assign key val m)
              end
          | _ => m
          end
      end
  end.

(** [read_meminfo]: [file] is the content of /proc/meminfo, [None] when it
    cannot be opened; the result is the returned flag and the variables as
    the call leaves them. *)
Definition read_meminfo (file : option string) (old : Z * Z * Z) : bool * (Z * Z * Z) :=
  match file with
  | None => (false, old)
  | Some s =>
      let m := meminfo_loop (S (String.length s)) s (0, 0, 0) in
      (0 <? m.1.1, m)
  end.

(** [while (iss >> v) fields.push_back(v)]. *)
Fixpoint extract_all (fuel : nat) (s : string) : list Z :=
  match fuel with
  | O => []
  | S fuel' =>
      match extract_u64 s with
      | ExtValue v rest => v :: extract_all fuel' rest
      | _ => []
      end
  end.

(** [read_total_cpu]: [file] is the content of /proc/stat. *)
Definition read_total_cpu (file : option string) (fields : list Z) : bool * list Z :=
  match file with
  | None => (false, fields)
  | Some s =>
      let line := first_line s in
      match extract_token line with
      | Some (cpu, rest) =>
          if String.eqb cpu "cpu"
          then let fs := extract_all (S (String.length rest)) rest in
               (negb (bool_decide (fs = [])), fs)
          else (false, fields)
      | None => (false, fields)
      end
  end.

(** The uid that [read_proc_times] takes from /proc/[pid]/status: the number
    after the first line that starts with [Uid:], as a [uid_t]; all ones
    when there is no such line or no file. *)
Definition uid_none : Z := 2 ^ 32 - 1.

Fixpoint scan_uid (lines : list string) : Run Z :=
  match lines with
  | [] => Done uid_none
  | line :: rest =>
      if starts_with "Uid:" line
      then match extract_u64 (sdrop 4 line) with
           | ExtValue v _ => Done (v mod 2 ^ 32)
           | ExtNoDigits => Done 0
           | ExtOverflow => Done ((U64.modulus - 1) mod 2 ^ 32)
           | ExtEnd => Fails Indeterminate
           end
      else scan_uid rest
  end.

Definition read_uid (status : option string) : Run Z :=
  match status with
  | None => Done uid_none
  | Some s => scan_uid (lines_of s)
  end.

(** [toks[i]]; the reader indexes the vector only after it has checked
    that it holds 22 tokens. *)
Definition token_at (toks : list string) (i : nat) : string :=
  nth i toks EmptyString.

(** The resident set size in kB, from the text of the field and
    [sysconf(_SC_PAGE_SIZE)]: [rss_pages], [page_size_kb] and their product
    are of type [long]. *)
Definition rss_kb_of (tok : string) (page_size : Z) : Run Z :=
  let rss_pages := match stol tok with
                   | Done v => v
                   | Fails _ => 0
                   end in
  let page_size_kb := Z.quot page_size 1024 in
  if 0 <? rss_pages
  then (r <~ long_checked (rss_pages * page_size_kb) ;; Done (U64.wrap64 r))
  else Done 0.

(** [read_proc_times]: [stat] and [status] are the contents of the two files
    of the pid ([None]: cannot be opened), [page_size] is
    [sysconf(_SC_PAGE_SIZE)].  [Done None] is the return value [false]. *)
Definition read_proc_times (stat status : option string) (page_size : Z)
    : Run (option ProcRead) :=
  match stat with
  | None => Done None
  | Some s =>
      let content := first_line s in
      match find_char "(" content, rfind_char ")" content with
      | Some p1, Some p2 =>
          if (p2 <=? p1)%nat then Done None
          else
            comm <~ substr content (p1 + 1) (p2 - p1 - 1) ;;
            after <~ substr_from content (p2 + 2) ;;
            let toks := tokens after in
            if (length toks <? 22)%nat then Done None
            else
              let utime := parse_ull (token_at toks 13) in
              let stime := parse_ull (token_at toks 14) in
              rss_kb <~ rss_kb_of (token_at toks 21) page_size ;;
              uid <~ read_uid status ;;
              Done (Some (mkProcRead (mkProcTimes utime stime) rss_kb comm uid))
      | _, _ => Done None
      end
  end.

(** One entry of the directory /proc: whether it is a directory, and its
    name. *)
Record Dirent := mkDirent {
  d_is_dir : bool;
  d_name : string
}.

Fixpoint all_digits (s : string) : bool :=
  match s with
  | EmptyString => true
  | String c r => isdigit c && all_digits r
  end.

(** [list_pids]: [dir] is what [readdir] delivers, [None] when /proc cannot
    be opened.  [stoi] may throw, and nothing catches it. *)
Fixpoint pids_of (entries : list Dirent) : Run (list Z) :=
  match entries with
  | [] => Done []
  | e :: rest =>
      if d_is_dir e && negb (String.eqb (d_name e) EmptyString) && all_digits (d_name e)
      then match stoi (d_name e) with
           | StoiOk v => (ps <~ pids_of rest ;; Done (v :: ps))
           | StoiInvalidArgument => Fails (Thrown InvalidArgument)
           | StoiOutOfRange => Fails (Thrown OutOfRange)
           end
      else pids_of rest
  end.

Definition list_pids (dir : option (list Dirent)) : Run (list Z) :=
  match dir with
  | None => Done []
  | Some entries => ps <~ pids_of entries ;; Done (merge_sort Z.le ps)
  end.

(** The files of the processes: for a pid, the contents of its [stat] and
    [status]. *)
Definition ProcFiles := Z -> option string * option string.

(** The loop of [collect_processes] up to the map update: every pid of
    [list_pids] with the outcome of [read_proc_times]. *)
Fixpoint read_all (files : ProcFiles) (page_size : Z) (pids : list Z)
    : Run (list (Z * option ProcRead)) :=
  match pids with
  | [] => Done []
  | p :: rest =>
      r <~ read_proc_times (files p).1 (files p).2 page_size ;;
      rs <~ read_all files page_size rest ;;
      Done ((p, r) :: rs)
  end.

(** [collect_processes] from the directory and the files. *)
Definition collect_from_proc (passwd : Z -> option string)
    (dir : option (list Dirent)) (files : ProcFiles) (page_size : Z)
    (mem_total_kb : Z) : Run (gmap Z ProcInfo) :=
  pids <~ list_pids dir ;;
  reads <~ read_all files page_size pids ;;
  Done (collect_processes passwd reads mem_total_kb).

(** ** The process table *)

(** A line of the table as [draw_processes] prints it: the screen line, the
    entry, and whether it is printed in reverse video. *)
Record Row := mkRow {
  row_y : Z;
  row_proc : ProcInfo;
  row_reverse : bool
}.

(** The loop [for (int i = 0; i < maxlines; ++i)] of [draw_processes] with
    [n] rounds to go, at counter [i]. *)
Fixpoint draw_rows (n : nat) (procs : list ProcInfo) (selected page_offset i : Z)
    : Res (list Row) :=
  match n with
  | O => Ok []
  | S n' =>
      idx <- Int.add page_offset i ;;
      if Int.of_unsigned (Z.of_nat (length procs)) <=? idx then Ok []
      else
        p <- vec_at procs idx ;;
        y <- Int.add i 2 ;;
        i' <- Int.add i 1 ;;
        rest <- draw_rows n' procs selected page_offset i' ;;
        Ok (mkRow y p (idx =? selected) :: rest)
  end.

(** [draw_processes]: [maxy] is [getmaxy(win)]; the result is the rows it
    prints below the column titles. *)
Definition draw_processes (procs : list ProcInfo) (selected page_offset maxy : Z)
    : Res (list Row) :=
  maxlines <- Int.sub maxy 3 ;;
  draw_rows (Z.to_nat maxlines) procs selected page_offset 0.

(** The memory figures of [draw_header]: nothing when the total it is given
    is 0; otherwise [read_meminfo] is called again, on variables of its
    own, and the header shows the total in MB and the percentage in use.
    [mem_free] and [mem_avail] are not initialised, so a [read_meminfo]
    that cannot open the file leaves [mem_avail] unwritten. *)
Definition header_memory (meminfo : option string) (mem_total_kb : Z)
    : Run (option (Z * double)) :=
  if mem_total_kb =? 0 then Done None
  else match meminfo with
       | None => Fails Indeterminate
       | Some _ =>
           let '(mem_total, _, mem_avail) :=
             (read_meminfo meminfo (mem_total_kb, 0, 0)).2 in
           let used := U64.sub mem_total mem_avail in
           let mempct := div (mul hundred (of_u64 used)) (of_u64 mem_total) in
           Done (Some (mem_total / 1024, mempct))
       end.

(** ** Notions used to state the properties of the readers *)

(** A run of decimal digits, most significant first, and its value. *)
Definition digit_char (d : Z) : ascii := pretty.pretty_N_char (Z.to_N d).

Fixpoint render_digits (ds : list Z) : string :=
  match ds with
  | [] => EmptyString
  | d :: r => String (digit_char d) (render_digits r)
  end.

Definition digits_value (acc : Z) (ds : list Z) : Z :=
  foldl (fun a d => a * 10 + d) acc ds.

Definition decimal_digits (ds : list Z) : Prop :=
  Forall (fun d => 0 <= d <= 9) ds.

(** No character of [s] is white space; a word is a non-empty such string. *)
Fixpoint no_space (s : string) : bool :=
  match s with
  | EmptyString => true
  | String c r => negb (isspace c) && no_space r
  end.

Definition word (t : string) : Prop := t <> EmptyString /\ no_space t = true.

(** [c] does not occur in [s]. *)
Definition lacks (c : ascii) (s : string) : Prop := find_char c s = None.

Definition newline : ascii := "010".

(** [n + 1] blanks. *)
Fixpoint blanks (n : nat) : string :=
  match n with
  | O => String " " EmptyString
  | S n' => String " " (blanks n')
  end.

(** The fields of a line, each one after a blank. *)
Fixpoint join_fields (ts : list string) : string :=
  match ts with
  | [] => EmptyString
  | t :: r => String " " (t ++ join_fields r)
  end.

(** The directory entry [e] is the directory of the process [v]. *)
Definition pid_entry (e : Dirent) (v : Z) : Prop :=
  d_is_dir e = true /\ all_digits (d_name e) = true /\
  numeric_value (d_name e) = Some v.

(** The directory that the kernel shows for the process [p]. *)
Definition pid_dir (p : Z) : Dirent := mkDirent true (to_string p).

(** [s] is at its end or goes on with white space. *)
Definition at_break (s : string) : Prop :=
  match s with
  | EmptyString => True
  | String c _ => isspace c = true
  end.

(** [ws] is white space only. *)
Definition all_space (ws : string) : Prop := skip_spaces ws = EmptyString.

(** [s] does not begin with a decimal digit. *)
Definition no_digit_head (s : string) : Prop :=
  match s with
  | String c _ => digit_of c = None
  | EmptyString => True
  end.


(** The text [a] is white space [ws], an optional sign [sign], the digits
    [ds], at least one, and a rest [tail] that does not go on with a
    digit. *)
Record stoi_shape (a ws sign : string) (ds : list Z) (tail : string) : Prop := {
  shape_text : a = (ws ++ sign ++ render_digits ds ++ tail)%string;
  shape_space : all_space ws;
  shape_sign : sign = EmptyString \/ sign = "+"%string \/ sign = "-"%string;
  shape_digits : decimal_digits ds;
  shape_digit : ds <> [];
  shape_tail : no_digit_head tail
}.

(** The first line of /proc/[pid]/stat: [pre] up to the first opening
    parenthesis, [comm] up to the last closing parenthesis, and [post]. *)
Definition stat_line (pre comm post : string) : string :=
  pre ++ String "(" (comm ++ String ")" post).

(** A file that starts with the line [l]. *)
Definition with_line (l more : string) : string := l ++ String newline more.

(** Numbers printed in decimal, each after [n + 1] blanks. *)
Fixpoint number_fields (vs : list (nat * Z)) : string :=
  match vs with
  | [] => EmptyString
  | (n, v) :: r => blanks n ++ to_string v ++ number_fields r
  end.

(** The line "cpu" of /proc/stat with the counters [vs]. *)
Definition cpu_line (vs : list (nat * Z)) : string :=
  String "c" (String "p" (String "u" (number_fields vs))).

(** [ws] is white space, and not empty. *)
Definition blank (ws : string) : Prop := ws <> EmptyString /\ all_space ws.

(** One entry of /proc/meminfo as [read_meminfo] takes it: the key, the
    value and the unit, each followed by white space. *)
Record MemLine := mkMemLine {
  ml_key : string;
  ml_pad : string;
  ml_val : Z;
  ml_sep : string;
  ml_unit : string;
  ml_end : string
}.

Definition mem_line (e : MemLine) (rest : string) : string :=
  ml_key e ++ ml_pad e ++ to_string (ml_val e) ++ ml_sep e ++ ml_unit e
  ++ ml_end e ++ rest.

Definition meminfo_text (es : list MemLine) (tail : string) : string :=
  foldr mem_line tail es.

Definition well_formed_line (e : MemLine) : Prop :=
  word (ml_key e) /\ blank (ml_pad e) /\ 0 <= ml_val e < U64.modulus /\
  blank (ml_sep e) /\ word (ml_unit e) /\ blank (ml_end e).

(** What follows is not one more key, number and unit. *)
Definition no_entry (tail : string) : Prop :=
  match extract_token tail with
  | None => True
  | Some (_, s1) =>
      match extract_u64 s1 with
      | ExtValue _ s2 => extract_token s2 = None
      | _ => True
      end
  end.

(** The value of the last line with the key [key], [d] when there is none. *)
Definition last_value (key : string) (d : Z) (es : list MemLine) : Z :=
  foldl (fun acc e => if String.eqb (ml_key e) key then ml_val e else acc) d es.

(** The lines [ls] followed by [rest]. *)
Definition lines_then (ls : list string) (rest : string) : string :=
  foldr with_line rest ls.

(** The line "Uid:" of /proc/[pid]/status. *)
Definition uid_line (ws : string) (u : Z) (rest : string) : string :=
  String "U" (String "i" (String "d" (String ":" (ws ++ to_string u ++ rest)))).

(** The signals among the outputs, in the order they are sent. *)
Definition signals (outs : list Output) : list (Z * Z) :=
  omap (fun o => match o with
                 | OSignal target sg => Some (target, sg)
                 | _ => None
                 end) outs.

(** The key of the iteration is one of the two letters. *)
Definition pressed (inp : Input) (lower upper : ascii) : Prop :=
  is_key (in_getch inp) lower upper = true.

(** The rows that show the entries [ps], the first one being entry [idx] of
    the table on screen line [y]; entry [sel] is the one in reverse video. *)
Fixpoint rows_of (ps : list ProcInfo) (sel idx y : Z) : list Row :=
  match ps with
  | [] => []
  | p :: r => mkRow y p (idx =? sel) :: rows_of r sel (idx + 1) (y + 1)
  end.

(** The reads of [pids] agree with the files. *)
Definition reads_of (files : ProcFiles) (page_size : Z) (k : Z)
    : Run (option ProcRead) :=
  read_proc_times (files k).1 (files k).2 page_size.

(** ** Sample files *)

Module Proc.

Definition tab : string := String "009" EmptyString.
Definition nl : string := String newline EmptyString.

(** The fields of a stat line after the state, from the parent pid to the
    resident set size. *)
Definition fields : list Z :=
  [1; 1234; 1234; 0; -1; 4194560; 1107; 0; 0; 0; 12; 7; 3; 4; 20; 0; 1; 0;
   5381; 9105408; 1024].

Definition comm : string := "tmux: server (1)".

Definition stat : string :=
  with_line (stat_line (to_string 1234 ++ " ") comm
                       (join_fields ("S"%string :: map to_string fields)))
            EmptyString.

Definition status : string :=
  lines_then ["Name:" ++ tab ++ "tmux: server"; "Umask:" ++ tab ++ "0022"]%string
    (with_line (uid_line tab 1000 (tab ++ "1000"))
               ("Gid:" ++ tab ++ "100" ++ nl)).

(** A line that stops after the command name. *)
Definition cut_stat : string :=
  with_line (stat_line (to_string 77 ++ " ") "sh" EmptyString) EmptyString.

Definition dir : list Dirent :=
  [mkDirent true "1234"; mkDirent true "self"; mkDirent false "7";
   mkDirent true "42"].

Definition files : ProcFiles :=
  fun p => if p =? 1234 then (Some stat, Some status) else (None, None).

Definition meminfo_entries : list MemLine :=
  [mkMemLine "MemTotal:" "       " 16318480 " " "kB" nl;
   mkMemLine "MemFree:" "         " 1234567 " " "kB" nl;
   mkMemLine "MemAvailable:" "    " 9876543 " " "kB" nl;
   mkMemLine "HugePages_Total:" "       " 0 nl "HugePages_Free:" "        "].

Definition meminfo_tail : string :=
  "0" ++ nl ++ "Hugepagesize:       2048 kB" ++ nl.

Definition counters : list (nat * Z) :=
  [(1%nat, 100); (0%nat, 0); (0%nat, 50); (0%nat, 800); (0%nat, 50)].

Definition cut_files : ProcFiles :=
  fun p => if p =? 1234 then (Some cut_stat, Some status) else (None, None).

(** A key press half a second after the first refresh of [Sample]. *)
Definition press (key : Z) : Input := Sample.tick key 500000000 [] [].

End Proc.


(** * Facts *)

(** ** Machine integers and the monad *)

Lemma wrap64_range x : U64.in_range (U64.wrap64 x).
Proof. unfold U64.in_range, U64.wrap64. apply Z.mod_pos_bound. reflexivity. Qed.

Lemma wrap64_small x : U64.in_range x -> U64.wrap64 x = x.
Proof. intros H. apply Z.mod_small. exact H. Qed.

Lemma add_range a b : U64.in_range (U64.add a b).
Proof. apply wrap64_range. Qed.

Lemma sub_diag a : U64.sub a a = 0.
Proof. unfold U64.sub. rewrite Z.sub_diag. reflexivity. Qed.

Lemma checked_in_range x : Int.in_range x -> Int.checked x = Ok x.
Proof.
  unfold Int.in_range, Int.checked. intros [H1 H2].
  destruct (Z.leb_spec Int.min_int x); [ | lia].
  destruct (Z.leb_spec x Int.max_int); [reflexivity | lia].
Qed.

Lemma checked_Ok x y : Int.checked x = Ok y -> y = x /\ Int.in_range x.
Proof.
  unfold Int.in_range, Int.checked.
  destruct (Z.leb_spec Int.min_int x); [ | discriminate].
  destruct (Z.leb_spec x Int.max_int); [ | discriminate].
  intros [= <-]. auto.
Qed.

Lemma of_unsigned_le x : 0 <= x -> Int.of_unsigned x <= x.
Proof.
  intros H. unfold Int.of_unsigned.
  pose proof (Z.mod_le (x + 2 ^ 31) (2 ^ 32)). lia.
Qed.

Lemma of_unsigned_small x : 0 <= x <= Int.max_int -> Int.of_unsigned x = x.
Proof.
  unfold Int.of_unsigned, Int.max_int. intros H.
  rewrite Z.mod_small; lia.
Qed.

Lemma bind_Ok {A B} (m : Res A) (k : A -> Res B) b :
  bind m k = Ok b -> exists a, m = Ok a /\ k a = Ok b.
Proof. destruct m as [a | f]; simpl; [eauto | discriminate]. Qed.

(** ** Rounding to binary64

    [binary_round_aux] shifts the mantissa right until it fits in 53 bits,
    rounds, and shifts once more if rounding carried into a 54th bit.  The
    lemmas follow the digit count through these steps. *)

Section IterPos.
Context {A : Type} (f : A -> A) (P : A -> Prop).
Hypothesis step : forall x, P x -> P (f x).

Lemma iter_pos_invariant (n : positive) : forall x, P x -> P (SpecFloat.iter_pos f n x).
Proof.
  induction n as [n IH | n IH | ]; intros x Hx; simpl; auto.
Qed.
End IterPos.

Lemma shr_1_nonneg mrs : 0 <= shr_m mrs -> 0 <= shr_m (shr_1 mrs).
Proof.
  destruct mrs as [m r s]; simpl.
  destruct m as [ | [p | p | ] | p ]; simpl; lia.
Qed.

Lemma shr_nonneg mrs e n : 0 <= shr_m mrs -> 0 <= shr_m (fst (shr mrs e n)).
Proof.
  intros H. destruct n; simpl; auto.
  apply (iter_pos_invariant shr_1 (fun r => 0 <= shr_m r)); auto using shr_1_nonneg.
Qed.

Lemma shr_m_of_loc m l : shr_m (shr_record_of_loc m l) = m.
Proof. destruct l as [ | [ | | ] ]; reflexivity. Qed.

Lemma round_nearest_even_cases m l :
  round_nearest_even m l = m \/ round_nearest_even m l = m + 1.
Proof.
  destruct l as [ | [ | | ] ]; simpl; auto.
  destruct (Z.even m); auto.
Qed.

Lemma binary_round_aux_nonneg p e mx ex lx :
  0 <= mx -> nonneg (binary_round_aux p e false mx ex lx).
Proof.
  intros Hmx. unfold binary_round_aux, shr_fexp.
  destruct (shr (shr_record_of_loc mx lx) ex _) as [mrs' e'] eqn:E1.
  assert (H1 : 0 <= shr_m mrs').
  { change mrs' with (fst (mrs', e')). rewrite <- E1.
    apply shr_nonneg. rewrite shr_m_of_loc. exact Hmx. }
  set (m2 := round_nearest_even (shr_m mrs') (loc_of_shr_record mrs')).
  assert (H2 : 0 <= m2).
  { subst m2. destruct (round_nearest_even_cases (shr_m mrs') (loc_of_shr_record mrs')) as [-> | ->]; lia. }
  destruct (shr (shr_record_of_loc m2 loc_Exact) e' _) as [mrs'' e''] eqn:E2.
  assert (H3 : 0 <= shr_m mrs'').
  { change mrs'' with (fst (mrs'', e'')). rewrite <- E2.
    apply shr_nonneg. simpl. exact H2. }
  destruct (shr_m mrs'') as [ | m | m ]; [exact I | | lia].
  destruct (Z.leb _ _); reflexivity.
Qed.

(** Digits *)
Lemma digits2_pos_size p : digits2_pos p = Pos.size p.
Proof. induction p; simpl; congruence. Qed.

Lemma digits2_pos_succ p :
  Zpos (digits2_pos (Pos.succ p)) <= Zpos (digits2_pos p) + 1.
Proof. induction p; simpl; lia. Qed.

Lemma digits2_pos_iter_xO p d :
  Zpos (digits2_pos (Pos.iter xO p d)) = Zpos (digits2_pos p) + Zpos d.
Proof.
  induction d as [ | d IH] using Pos.peano_ind.
  - simpl. lia.
  - rewrite Pos.iter_succ. simpl. lia.
Qed.

Lemma digits2_pos_bound p n :
  0 <= n -> Zpos p < 2 ^ n -> Zpos (digits2_pos p) <= n.
Proof.
  intros Hn Hp. rewrite digits2_pos_size.
  pose proof (Pos.size_le p) as Hle.
  assert (H2 : 2 ^ Zpos (Pos.size p) <= 2 * Zpos p).
  { rewrite <- Pos2Z.inj_pow. change (2 * Zpos p) with (Zpos (p~0)). lia. }
  assert (H3 : 2 ^ Zpos (Pos.size p) < 2 ^ (n + 1)).
  { rewrite Z.pow_add_r by lia. lia. }
  apply Z.pow_lt_mono_r_iff in H3; lia.
Qed.

(** Shifting right by fewer places than the mantissa has digits leaves a
    positive mantissa with that many digits less. *)
Lemma shr_1_digits mrs q :
  shr_m mrs = Zpos q -> 1 < Zpos (digits2_pos q) ->
  exists q', shr_m (shr_1 mrs) = Zpos q' /\
             Zpos (digits2_pos q') = Zpos (digits2_pos q) - 1.
Proof.
  destruct mrs as [m r s]; simpl. intros -> Hd.
  destruct q as [p | p | ]; simpl in *; try lia; exists p; split; auto; lia.
Qed.

Lemma iter_shr_1_digits n : forall mrs q,
  shr_m mrs = Zpos q -> Zpos n < Zpos (digits2_pos q) ->
  exists q', shr_m (SpecFloat.iter_pos shr_1 n mrs) = Zpos q' /\
             Zpos (digits2_pos q') = Zpos (digits2_pos q) - Zpos n.
Proof.
  induction n as [n IH | n IH | ]; intros mrs q Hm Hd; simpl.
  - destruct (shr_1_digits mrs q Hm) as (q1 & H1 & D1); [lia | ].
    destruct (IH _ _ H1) as (q2 & H2 & D2); [lia | ].
    destruct (IH _ _ H2) as (q3 & H3 & D3); [lia | ].
    exists q3; split; auto; lia.
  - destruct (IH _ _ Hm) as (q2 & H2 & D2); [lia | ].
    destruct (IH _ _ H2) as (q3 & H3 & D3); [lia | ].
    exists q3; split; auto; lia.
  - apply shr_1_digits; auto.
Qed.

(** One normalisation step of [binary_round_aux] at binary64. *)
Lemma shr_fexp_digits q ex lx :
  -1074 <= ex ->
  exists mrs q',
    shr_fexp 53 1024 (Zpos q) ex lx
      = (mrs, ex + Z.max 0 (Zpos (digits2_pos q) - 53)) /\
    shr_m mrs = Zpos q' /\
    Zpos (digits2_pos q') = Z.min (Zpos (digits2_pos q)) 53.
Proof.
  intros Hex. unfold shr_fexp, shr, fexp, emin. cbn [Zdigits2].
  set (d := Zpos (digits2_pos q)).
  destruct (Z.max (d + ex - 53) (3 - 1024 - 53) - ex) as [ | n | n ] eqn:En.
  - exists (shr_record_of_loc (Zpos q) lx), q.
    rewrite shr_m_of_loc. repeat split; [f_equal | ]; lia.
  - destruct (iter_shr_1_digits n (shr_record_of_loc (Zpos q) lx) q)
      as (q' & H1 & D1); [apply shr_m_of_loc | fold d; lia | ].
    exists (SpecFloat.iter_pos shr_1 n (shr_record_of_loc (Zpos q) lx)), q'.
    fold d in D1. repeat split; [f_equal | | ]; auto; lia.
  - exists (shr_record_of_loc (Zpos q) lx), q.
    rewrite shr_m_of_loc. repeat split; [f_equal | ]; lia.
Qed.

Lemma binary_round_aux_finite s q ex lx :
  -1074 <= ex ->
  ex + Z.max 0 (Zpos (digits2_pos q) - 53) + 1 <= 971 ->
  exists m e, binary_round_aux 53 1024 s (Zpos q) ex lx = S754_finite s m e.
Proof.
  intros Hex Hb. unfold binary_round_aux.
  destruct (shr_fexp_digits q ex lx Hex) as (mrs1 & q1 & -> & M1 & D1).
  rewrite M1.
  set (e1 := ex + Z.max 0 (Zpos (digits2_pos q) - 53)) in *.
  assert (exists q2, round_nearest_even (Zpos q1) (loc_of_shr_record mrs1) = Zpos q2
                     /\ Zpos (digits2_pos q2) <= 54) as (q2 & -> & D2).
  { destruct (round_nearest_even_cases (Zpos q1) (loc_of_shr_record mrs1)) as [-> | ->].
    - exists q1; split; auto; lia.
    - exists (Pos.succ q1); split; [ lia | ].
      pose proof (digits2_pos_succ q1). lia. }
  destruct (shr_fexp_digits q2 e1 loc_Exact) as (mrs3 & q3 & -> & M3 & D3); [lia | ].
  rewrite M3.
  replace (_ <=? _) with true; [eauto | ].
  symmetry. apply Z.leb_le. change (1024 - 53) with 971. lia.
Qed.

Lemma of_u64_finite n :
  1 <= n < U64.modulus -> finite_pos (of_u64 n).
Proof.
  intros [Hlo Hhi]. destruct n as [ | p | p ]; try lia.
  unfold of_u64, binary_normalize, binary_round, shl_align, fexp, emin, prec, emax.
  set (d := Zpos (digits2_pos p)).
  assert (Hd : 1 <= d <= 64).
  { split; [subst d; lia | apply digits2_pos_bound; [lia | exact Hhi]]. }
  destruct (Z.max (d + 0 - 53) (3 - 1024 - 53) - 0) as [ | k | k ] eqn:Ek.
  - destruct (binary_round_aux_finite false p 0 loc_Exact) as (m & e & ->);
      [lia | fold d; lia | exact I].
  - destruct (binary_round_aux_finite false p 0 loc_Exact) as (m & e & ->);
      [lia | fold d; lia | exact I].
  - destruct (binary_round_aux_finite false (Pos.iter xO p k)
                (Z.max (d + 0 - 53) (3 - 1024 - 53)) loc_Exact) as (m & e & ->);
      [lia | rewrite digits2_pos_iter_xO; fold d; lia | exact I].
Qed.

(** ** Signs of the percentages *)

Lemma of_u64_zero : of_u64 0 = zero.
Proof. reflexivity. Qed.

(** [(double)x] is zero or a positive finite number. *)
Lemma of_u64_cases n :
  U64.in_range n -> of_u64 n = zero \/ finite_pos (of_u64 n).
Proof.
  intros [Hlo Hhi]. destruct (Z.eq_dec n 0) as [-> | Hn].
  - left. reflexivity.
  - right. apply of_u64_finite. lia.
Qed.

Lemma mul_hundred_nonneg x :
  x = zero \/ finite_pos x -> nonneg (mul hundred x).
Proof.
  intros [-> | Hx]; [exact I | ].
  destruct x as [ | | | [ | ] m e ]; try contradiction.
  unfold mul, hundred, SFmul. apply binary_round_aux_nonneg. lia.
Qed.

Lemma div_nonneg x y : nonneg x -> finite_pos y -> nonneg (div x y).
Proof.
  intros Hx Hy.
  destruct y as [ | | | [ | ] my ey ]; try contradiction.
  destruct x as [ sx | sx | | sx mx ex ]; simpl in Hx; try contradiction;
    try subst sx; try exact I; try reflexivity.
  unfold div, SFdiv, SFdiv_core_binary.
  set (m' := match _ - _ - _ with Z0 => _ | Zpos _ => _ | Zneg _ => _ end).
  assert (Hm' : 0 <= m').
  { subst m'. destruct (_ - _ - _); try lia. apply Z.shiftl_nonneg. lia. }
  destruct (Z.div_eucl m' (Zpos my)) as [q r] eqn:Eq.
  apply binary_round_aux_nonneg.
  assert (q = m' / Zpos my) as -> by (unfold Z.div; rewrite Eq; reflexivity).
  apply Z.div_pos; lia.
Qed.

Lemma div_zero y : finite_pos y -> div zero y = zero.
Proof. destruct y as [ | | | [ | ] my ey ]; try contradiction. reflexivity. Qed.

Lemma leb_zero_nonneg x : nonneg x -> leb zero x = true.
Proof.
  destruct x as [ s | s | | s m e ]; simpl; try contradiction; auto;
    intros ->; reflexivity.
Qed.

Lemma nonneg_not_nan x : nonneg x -> is_nan x = false.
Proof. destruct x; simpl; auto; contradiction. Qed.

Lemma total_delta_of_range a b : 1 <= total_delta_of a b < U64.modulus.
Proof.
  unfold total_delta_of.
  pose proof (wrap64_range (b - a)) as H. unfold U64.in_range in H.
  unfold U64.sub. destruct (Z.eqb_spec (U64.wrap64 (b - a)) 0); [ | lia].
  unfold U64.modulus. lia.
Qed.

Lemma pct_of_nonneg d td :
  U64.in_range d -> 1 <= td < U64.modulus -> nonneg (pct_of d td).
Proof.
  intros Hd Htd. unfold pct_of.
  apply div_nonneg; [ | apply of_u64_finite; exact Htd].
  apply mul_hundred_nonneg, of_u64_cases, Hd.
Qed.

Lemma pct_of_zero td : 1 <= td < U64.modulus -> pct_of 0 td = zero.
Proof.
  intros Htd. unfold pct_of. rewrite of_u64_zero.
  change (mul hundred zero) with zero. apply div_zero, of_u64_finite, Htd.
Qed.

(** ** Comparing doubles *)

Lemma SFcompare_rank x y :
  is_nan x = false -> is_nan y = false ->
  match SFcompare x y with
  | Some Lt => lt3 (rank x) (rank y)
  | Some Eq => rank x = rank y
  | Some Gt => lt3 (rank y) (rank x)
  | None => False
  end.
Proof.
  intros Hx Hy.
  destruct x as [ sx | sx | | sx mx ex ], y as [ sy | sy | | sy my ey ];
    try discriminate; simpl;
    try (destruct sx); try (destruct sy); simpl; try lia; try reflexivity.
  - destruct (Z.compare_spec ex ey); simpl; try lia.
    rewrite Pos.compare_cont_spec; simpl.
    destruct (Pos.compare_spec mx my); simpl; try lia. subst. reflexivity.
  - destruct (Z.compare_spec ex ey); simpl; try lia.
    rewrite Pos.compare_cont_spec; simpl.
    destruct (Pos.compare_spec mx my); simpl; try lia. subst. reflexivity.
Qed.

Lemma eqb_rank x y :
  is_nan x = false -> is_nan y = false ->
  (eqb x y = true <-> rank x = rank y).
Proof.
  intros Hx Hy. pose proof (SFcompare_rank x y Hx Hy) as H.
  unfold eqb, SFeqb. destruct (SFcompare x y) as [ [ | | ] | ]; try contradiction;
    split; auto; try discriminate; intros E; rewrite E in H;
    destruct (rank y) as [[a b] c]; simpl in H; lia.
Qed.

Lemma ltb_rank x y :
  is_nan x = false -> is_nan y = false ->
  (ltb x y = true <-> lt3 (rank x) (rank y)).
Proof.
  intros Hx Hy. pose proof (SFcompare_rank x y Hx Hy) as H.
  unfold ltb, SFltb. destruct (SFcompare x y) as [ [ | | ] | ]; try contradiction;
    split; auto; try discriminate; intros E;
    destruct (rank x) as [[a b] c], (rank y) as [[a' b'] c']; simpl in *;
    try (injection H as -> -> ->); lia.
Qed.

(** Comparisons of doubles, NaN included. *)
Lemma SFcompare_swap x y :
  SFcompare y x = option_map CompOpp (SFcompare x y).
Proof.
  destruct x as [ sx | sx | | sx mx ex ], y as [ sy | sy | | sy my ey ];
    simpl; try reflexivity;
    try (destruct sx); try (destruct sy); simpl; try reflexivity;
    rewrite (Z.compare_antisym ex ey); destruct (ex ?= ey); simpl; try reflexivity;
    rewrite !Pos.compare_cont_spec; simpl;
    rewrite (Pos.compare_antisym mx my); destruct (mx ?= my)%positive; reflexivity.
Qed.

Lemma eqb_sym x y : eqb x y = eqb y x.
Proof.
  unfold eqb, SFeqb. rewrite (SFcompare_swap x y).
  destruct (SFcompare x y) as [ [ | | ] | ]; reflexivity.
Qed.

Lemma ltb_asym x y : ltb x y = true -> ltb y x = false.
Proof.
  unfold ltb, SFltb. rewrite (SFcompare_swap x y).
  destruct (SFcompare x y) as [ [ | | ] | ]; simpl; auto; discriminate.
Qed.

Lemma eqb_not_gtb x y : eqb x y = true -> gtb x y = false.
Proof.
  unfold eqb, gtb, SFeqb, SFltb. rewrite (SFcompare_swap x y).
  destruct (SFcompare x y) as [ [ | | ] | ]; simpl; auto; discriminate.
Qed.

(** ** The order of the view *)

Lemma triple_eq (a b c a' b' c' : Z) :
  (a, b, c) = (a', b', c') <-> a = a' /\ b = b' /\ c = c'.
Proof. split; [intros [= -> -> ->]; auto | intros (-> & -> & ->); auto]. Qed.

Ltac triples :=
  repeat match goal with
         | k : (Z * Z * Z)%type |- _ => destruct k as [[? ?] ?]
         end;
  unfold desc_then_pid, lt3 in *; rewrite ?triple_eq in *.

Lemma lt3_irrefl k : ~ lt3 k k.
Proof. triples. lia. Qed.

Lemma desc_then_pid_irrefl k p : ~ desc_then_pid k k p p.
Proof. triples. lia. Qed.

Lemma desc_then_pid_trans ka kb kc pa pb pc :
  desc_then_pid ka kb pa pb -> desc_then_pid kb kc pb pc ->
  desc_then_pid ka kc pa pc.
Proof. triples. lia. Qed.

Lemma desc_then_pid_total ka kb pa pb :
  pa <> pb -> desc_then_pid ka kb pa pb \/ desc_then_pid kb ka pb pa.
Proof. triples. lia. Qed.

Lemma comparator_before mode a b :
  ordered_entry a -> ordered_entry b ->
  (comparator mode a b = true <-> before mode a b).
Proof.
  intros [Ha1 Ha2] [Hb1 Hb2]. unfold before, desc_then_pid. destruct mode; simpl.
  - unfold cmp_cpu, gtb.
    pose proof (eqb_rank _ _ Ha1 Hb1) as He.
    pose proof (ltb_rank _ _ Hb1 Ha1) as Hl. unfold ltb in Hl.
    destruct (eqb (cpu_percent a) (cpu_percent b)).
    + rewrite Z.ltb_lt. destruct He as [He _]. specialize (He eq_refl).
      split; [intros; right; auto | ].
      intros [Hlt | [_ Hp]]; [ | exact Hp]. rewrite He in Hlt.
      exfalso. exact (lt3_irrefl _ Hlt).
    + rewrite Hl. split; [intros; left; auto | ].
      intros [Hlt | [Heq _]]; [exact Hlt | ].
      apply He in Heq. discriminate.
  - unfold cmp_mem, gtb.
    pose proof (eqb_rank _ _ Ha2 Hb2) as He.
    pose proof (ltb_rank _ _ Hb2 Ha2) as Hl. unfold ltb in Hl.
    destruct (eqb (mem_percent a) (mem_percent b)).
    + rewrite Z.ltb_lt. destruct He as [He _]. specialize (He eq_refl).
      split; [intros; right; auto | ].
      intros [Hlt | [_ Hp]]; [ | exact Hp]. rewrite He in Hlt.
      exfalso. exact (lt3_irrefl _ Hlt).
    + rewrite Hl. split; [intros; left; auto | ].
      intros [Hlt | [Heq _]]; [exact Hlt | ].
      apply He in Heq. discriminate.
  - unfold cmp_pid, lt3. rewrite Z.ltb_lt. split; [intros; right; auto | ].
    intros [? | [_ ?]]; lia.
Qed.

Lemma before_irrefl mode a : ~ before mode a a.
Proof. apply desc_then_pid_irrefl. Qed.

Lemma before_trans mode a b c :
  before mode a b -> before mode b c -> before mode a c.
Proof. apply desc_then_pid_trans. Qed.

Lemma before_total mode a b :
  pid a <> pid b -> before mode a b \/ before mode b a.
Proof. apply desc_then_pid_total. Qed.

Lemma desc_then_pid_negtrans ka kb kc pa pb pc :
  ~ desc_then_pid kb ka pb pa -> ~ desc_then_pid kc kb pc pb ->
  ~ desc_then_pid kc ka pc pa.
Proof. triples. lia. Qed.

Lemma comparator_asym mode a b :
  comparator mode a b = true -> comparator mode b a = false.
Proof.
  destruct mode; simpl.
  - unfold cmp_cpu, gtb. rewrite (eqb_sym (cpu_percent b)).
    destruct (eqb (cpu_percent a) (cpu_percent b)).
    + rewrite Z.ltb_lt, Z.ltb_ge. lia.
    + apply ltb_asym.
  - unfold cmp_mem, gtb. rewrite (eqb_sym (mem_percent b)).
    destruct (eqb (mem_percent a) (mem_percent b)).
    + rewrite Z.ltb_lt, Z.ltb_ge. lia.
    + apply ltb_asym.
  - unfold cmp_pid. rewrite Z.ltb_lt, Z.ltb_ge. lia.
Qed.

Global Instance not_after_total mode : Total (not_after (comparator mode)).
Proof.
  intros a b. unfold not_after.
  destruct (comparator mode b a) eqn:E; [right | left; reflexivity].
  apply comparator_asym, E.
Qed.

Lemma not_after_before mode a b :
  ordered_entry a -> ordered_entry b ->
  (not_after (comparator mode) a b <-> ~ before mode b a).
Proof.
  intros Ha Hb. unfold not_after.
  rewrite <- (comparator_before mode b a Hb Ha).
  destruct (comparator mode b a); split; auto; try discriminate.
  intros H. exfalso. apply H. reflexivity.
Qed.

Lemma not_after_trans mode a b c :
  ordered_entry a -> ordered_entry b -> ordered_entry c ->
  not_after (comparator mode) a b -> not_after (comparator mode) b c ->
  not_after (comparator mode) a c.
Proof.
  intros Ha Hb Hc. rewrite !not_after_before by assumption.
  apply desc_then_pid_negtrans.
Qed.

Lemma not_after_antisym mode a b :
  ordered_entry a -> ordered_entry b ->
  not_after (comparator mode) a b -> not_after (comparator mode) b a ->
  pid a = pid b.
Proof.
  intros Ha Hb. rewrite !not_after_before by assumption. intros H1 H2.
  destruct (Z.eq_dec (pid a) (pid b)) as [ | Hne]; [assumption | ].
  destruct (before_total mode a b Hne); contradiction.
Qed.

(** [Sorted] gives [StronglySorted] when the relation is transitive on the
    members of the list. *)
Lemma Sorted_StronglySorted_on {A} (R : relation A) (P : A -> Prop) l :
  (forall x y z, P x -> P y -> P z -> R x y -> R y z -> R x z) ->
  Forall P l -> Sorted R l -> StronglySorted R l.
Proof.
  intros Htr HP Hs. induction Hs as [ | x l Hs IH Hhd]; [constructor | ].
  apply Forall_cons in HP as [Px Pl].
  constructor; [auto | ].
  specialize (IH Pl). clear Hs.
  destruct Hhd as [ | y l Rxy]; [constructor | ].
  apply Forall_cons in Pl as [Py Pl].
  apply StronglySorted_cons in IH as [Hy _].
  constructor; [exact Rxy | ].
  rewrite Forall_forall in Hy, Pl |- *.
  intros z Hz. apply (Htr x y z); auto.
Qed.

Lemma NoDup_fmap_eq {A B} (f : A -> B) (l : list A) x y :
  NoDup (f <$> l) -> x ∈ l -> y ∈ l -> f x = f y -> x = y.
Proof.
  induction l as [ | a l IH]; intros Hnd Hx Hy Hf; [inversion Hx | ].
  rewrite fmap_cons in Hnd. apply NoDup_cons in Hnd as [Hna Hnd].
  apply elem_of_cons in Hx as [-> | Hx]; apply elem_of_cons in Hy as [-> | Hy]; auto.
  - exfalso. apply Hna. rewrite Hf. apply list_elem_of_fmap. eauto.
  - exfalso. apply Hna. rewrite <- Hf. apply list_elem_of_fmap. eauto.
Qed.

Section Sorting.
Variable mode : SortMode.
Variable vec : list ProcInfo.
Hypothesis distinct : NoDup (pid <$> vec).
Hypothesis ordered : Forall ordered_entry vec.

Let comp := comparator mode.

Lemma sort_processes_sorted_by : sorted_by comp vec (sort_processes vec mode).
Proof.
  split; [apply merge_sort_Permutation | ].
  apply (Sorted_StronglySorted_on _ ordered_entry).
  - intros x y z. apply not_after_trans.
  - unfold sort_processes. rewrite merge_sort_Permutation. exact ordered.
  - apply Sorted_merge_sort. apply _.
Qed.

Lemma sorted_by_unique out1 out2 :
  sorted_by comp vec out1 -> sorted_by comp vec out2 -> out1 = out2.
Proof.
  intros [P1 S1] [P2 S2].
  apply (StronglySorted_unique_strong (not_after comp)); auto.
  - intros x1 x2 H1 H2 R12 R21.
    rewrite P1 in H1. rewrite P2 in H2.
    apply (NoDup_fmap_eq pid vec); auto.
    rewrite Forall_forall in ordered.
    apply (not_after_antisym mode); auto.
  - rewrite P1, P2. reflexivity.
Qed.
End Sorting.

Lemma comparator_listed_before mode a b :
  comparator mode a b = true <-> listed_before mode a b.
Proof.
  destruct mode; simpl.
  - unfold cmp_cpu.
    destruct (eqb (cpu_percent a) (cpu_percent b)) eqn:E.
    + rewrite (eqb_not_gtb _ _ E), Z.ltb_lt.
      split; [auto | intros [? | [_ ?]]; [discriminate | auto] ].
    + split; [auto | intros [? | [? _]]; [auto | discriminate] ].
  - unfold cmp_mem.
    destruct (eqb (mem_percent a) (mem_percent b)) eqn:E.
    + rewrite (eqb_not_gtb _ _ E), Z.ltb_lt.
      split; [auto | intros [? | [_ ?]]; [discriminate | auto] ].
    + split; [auto | intros [? | [? _]]; [auto | discriminate] ].
  - unfold cmp_pid. apply Z.ltb_lt.
Qed.

Lemma sort_processes_perm vec mode : sort_processes vec mode ≡ₚ vec.
Proof. apply merge_sort_Permutation. Qed.

(** C6.  On a vector of entries with pairwise distinct pids, whose
    percentages are numbers, the comparator of every sort mode is a strict
    total order: it is the order its description gives (descending CPU
    percentage, or descending memory percentage, with ties broken by
    ascending pid; or ascending pid), it is irreflexive and transitive, and
    any two different entries are ordered one way or the other.  Hence
    sorting is deterministic: the result of [sort_processes] is sorted, every
    sorted rearrangement of the vector is that very list, rearranging the
    input does not change it, sorting a sorted vector returns it unchanged,
    and in PID mode the pids are strictly ascending. *)
Theorem sorting_is_total_order (mode : SortMode) (vec : list ProcInfo) :
  NoDup (pid <$> vec) -> Forall ordered_entry vec ->
  total_order_sorting mode vec.
Proof.
  intros Hnd Hord. pose proof Hord as Hall. rewrite Forall_forall in Hall.
  pose proof (sort_processes_sorted_by mode vec Hord) as Hsorted.
  assert (Hperm : forall vec', vec' ≡ₚ vec ->
            sort_processes vec' mode = sort_processes vec mode).
  { intros vec' HP.
    apply (sorted_by_unique mode vec Hnd Hord); [ | exact Hsorted].
    assert (Hord' : Forall ordered_entry vec') by (rewrite HP; exact Hord).
    destruct (sort_processes_sorted_by mode vec' Hord') as [P S].
    split; [rewrite P; exact HP | exact S]. }
  unfold total_order_sorting. repeat split.
  - apply comparator_listed_before.
  - apply comparator_listed_before.
  - intros a Ha. destruct (comparator mode a a) eqn:E; [ | reflexivity].
    apply comparator_before in E; auto. destruct (before_irrefl _ _ E).
  - intros a b c Ha Hb Hc. rewrite !comparator_before by auto.
    apply before_trans.
  - intros a b Ha Hb Hne. rewrite !comparator_before by auto.
    apply before_total. intros Hp. apply Hne.
    apply (NoDup_fmap_eq pid vec); auto.
  - apply Hsorted.
  - apply Hsorted.
  - intros out Hout. apply (sorted_by_unique mode vec Hnd Hord); auto.
  - exact Hperm.
  - apply Hperm, sort_processes_perm.
  - intros ->. destruct Hsorted as [P S].
    assert (Hnd' : NoDup (pid <$> sort_processes vec SORT_PID)) by (rewrite P; exact Hnd).
    revert S Hnd'. generalize (sort_processes vec SORT_PID) as l.
    induction l as [ | x l IH]; intros S Hnd'; [constructor | ].
    apply StronglySorted_cons in S as [Hx S].
    rewrite fmap_cons in Hnd'. apply NoDup_cons in Hnd' as [Hnx Hnd'].
    constructor; [auto | ].
    rewrite Forall_forall in Hx |- *. intros y Hy.
    specialize (Hx y Hy). unfold not_after in Hx. simpl in Hx.
    unfold cmp_pid in Hx. apply Z.ltb_ge in Hx.
    assert (pid x <> pid y); [ | lia].
    intros E. apply Hnx. rewrite E. apply list_elem_of_fmap. eauto.
Qed.

Lemma sorting_is_total_order_witness :
  NoDup (pid <$> Sample.entries) /\
  Forall ordered_entry Sample.entries /\
  total_order_sorting SORT_CPU Sample.entries.
Proof.
  assert (Hnd : NoDup (pid <$> Sample.entries)).
  { apply (bool_decide_unpack _). vm_compute. exact I. }
  assert (Hord : Forall ordered_entry Sample.entries).
  { repeat constructor. }
  split; [exact Hnd | ]. split; [exact Hord | ].
  apply (sorting_is_total_order SORT_CPU Sample.entries); assumption.
Defined.

Example sort_entries_by_cpu :
  pid <$> sort_processes Sample.entries SORT_CPU = [20; 10; 30].
Proof. vm_compute. reflexivity. Qed.

Example sort_entries_by_mem :
  pid <$> sort_processes Sample.entries SORT_MEM = [10; 20; 30].
Proof. vm_compute. reflexivity. Qed.

Example sort_entries_by_pid :
  pid <$> sort_processes Sample.entries SORT_PID = [10; 20; 30].
Proof. vm_compute. reflexivity. Qed.

(** ** The process maps *)

Lemma collect_processes_lookup passwd reads mt k p :
  collect_processes passwd reads mt !! k = Some p ->
  exists rd, (k, Some rd) ∈ reads /\ p = proc_of_read passwd mt k rd.
Proof.
  unfold collect_processes.
  assert (G : forall m0 : gmap Z ProcInfo,
             foldl (fun procs '(p, r) =>
                      match r with
                      | None => procs
                      | Some rd => <[p := proc_of_read passwd mt p rd]> procs
                      end) m0 reads !! k = Some p ->
             m0 !! k = Some p \/
             exists rd, (k, Some rd) ∈ reads /\ p = proc_of_read passwd mt k rd).
  { induction reads as [ | [k' r] reads IH]; intros m0 H; simpl in H; [left; exact H | ].
    destruct (IH _ H) as [H0 | (rd & Hin & ->)].
    - destruct r as [rd | ]; [ | left; exact H0].
      destruct (decide (k' = k)) as [-> | Hne].
      + rewrite lookup_insert_eq in H0. injection H0 as <-.
        right. exists rd. split; [left | reflexivity].
      + rewrite lookup_insert_ne in H0 by exact Hne. left; exact H0.
    - right. exists rd. split; [right; exact Hin | reflexivity]. }
  intros H. destruct (G ∅ H) as [H0 | H0]; [ | exact H0].
  rewrite lookup_empty in H0. discriminate.
Qed.

Lemma collect_processes_absent passwd reads mt k :
  (forall rd, (k, Some rd) ∉ reads) ->
  collect_processes passwd reads mt !! k = None.
Proof.
  intros Habs. destruct (collect_processes passwd reads mt !! k) as [p | ] eqn:E; [ | reflexivity].
  apply collect_processes_lookup in E as (rd & Hin & _).
  destruct (Habs rd Hin).
Qed.

Lemma update_cpu_percent_lookup oldp newp o n k :
  update_cpu_percent oldp newp o n !! k =
  (fun npi => set_cpu_percent npi
     (pct_of (delta_proc_of (total_time npi) (old_total_proc_of oldp k))
             (total_delta_of o n))) <$> newp !! k.
Proof.
  unfold update_cpu_percent. rewrite map_lookup_imap.
  destruct (newp !! k); reflexivity.
Qed.

Lemma collect_processes_keyed passwd reads mt :
  keyed_by_pid (collect_processes passwd reads mt).
Proof.
  intros k p H. apply collect_processes_lookup in H as (rd & _ & ->). reflexivity.
Qed.

Lemma update_cpu_percent_keyed oldp newp o n :
  keyed_by_pid newp -> keyed_by_pid (update_cpu_percent oldp newp o n).
Proof.
  intros Hk k p. rewrite update_cpu_percent_lookup.
  destruct (newp !! k) as [q | ] eqn:E; [ | discriminate].
  intros [= <-]. simpl. apply (Hk _ _ E).
Qed.

Lemma elem_of_map_values m p :
  p ∈ map_values m <-> exists k, m !! k = Some p.
Proof.
  unfold map_values. rewrite list_elem_of_fmap. split.
  - intros ([k q] & -> & Hin). rewrite merge_sort_Permutation in Hin.
    apply elem_of_map_to_list in Hin. eauto.
  - intros (k & Hk). exists (k, p). split; [reflexivity | ].
    rewrite merge_sort_Permutation. apply elem_of_map_to_list, Hk.
Qed.

Lemma map_values_empty : map_values ∅ = [].
Proof. reflexivity. Qed.

Lemma map_values_pids m :
  keyed_by_pid m -> pid <$> map_values m ≡ₚ (map_to_list m).*1.
Proof.
  intros Hk. unfold map_values.
  rewrite <- (merge_sort_Permutation key_le (map_to_list m)) at 2.
  assert (H : Forall (fun kp => m !! kp.1 = Some kp.2) (merge_sort key_le (map_to_list m))).
  { rewrite merge_sort_Permutation. apply Forall_forall. intros [k p] Hin.
    apply elem_of_map_to_list in Hin. exact Hin. }
  induction H as [ | [k p] l Hkp _ IH]; [reflexivity | ].
  simpl in *. rewrite (Hk _ _ Hkp), IH. reflexivity.
Qed.

Lemma map_values_NoDup m : keyed_by_pid m -> NoDup (pid <$> map_values m).
Proof.
  intros Hk. rewrite (map_values_pids m Hk). apply NoDup_fst_map_to_list.
Qed.

Global Instance key_le_total : Total key_le.
Proof. intros a b. unfold key_le. lia. Qed.

Global Instance key_le_trans : Transitive key_le.
Proof. intros a b c. unfold key_le. lia. Qed.

(** The values of a map come in ascending order of their pids, as an
    iteration over [std::map] delivers them. *)
Lemma map_values_ascending m :
  keyed_by_pid m -> StronglySorted Z.lt (pid <$> map_values m).
Proof.
  intros Hk.
  assert (Hs : StronglySorted Z.le (pid <$> map_values m)).
  { unfold map_values.
    pose proof (StronglySorted_merge_sort key_le (map_to_list m)) as S.
    assert (H : Forall (fun kp => m !! kp.1 = Some kp.2) (merge_sort key_le (map_to_list m))).
    { rewrite merge_sort_Permutation. apply Forall_forall. intros [k p] Hin.
      apply elem_of_map_to_list in Hin. exact Hin. }
    induction S as [ | [k p] l S IH Hhd]; [constructor | ].
    apply Forall_cons in H as [Hkp Hl]. simpl in *.
    constructor; [apply IH, Hl | ].
    rewrite (Hk _ _ Hkp). clear IH S.
    induction Hhd as [ | [k' p'] l' Hle _ IH']; [constructor | ].
    apply Forall_cons in Hl as [Hkp' Hl']. simpl in *.
    constructor; [ | apply IH', Hl'].
    rewrite (Hk _ _ Hkp'). exact Hle. }
  pose proof (map_values_NoDup m Hk) as Hnd.
  revert Hs Hnd. generalize (pid <$> map_values m) as l.
  induction l as [ | x l IH]; intros Hs Hnd; [constructor | ].
  apply StronglySorted_cons in Hs as [Hx Hs].
  apply NoDup_cons in Hnd as [Hnx Hnd].
  constructor; [auto | ].
  rewrite Forall_forall in Hx |- *. intros y Hy.
  specialize (Hx y Hy). assert (x <> y) by (intros ->; contradiction). lia.
Qed.

Lemma map_forall_by_list {A} (m : gmap Z A) (P : Z -> A -> Prop) :
  Forall (fun kp => P kp.1 kp.2) (map_to_list m) ->
  forall k p, m !! k = Some p -> P k p.
Proof.
  intros H k p Hk. rewrite Forall_forall in H.
  apply (H (k, p)). apply elem_of_map_to_list, Hk.
Qed.

(** ** The refresh cycle *)

Lemma refresh_refreshed inp st st' outs :
  refresh inp st = Ok (st', outs) -> refreshed inp st st' outs.
Proof.
  unfold refresh. intros H.
  destruct (match in_meminfo inp with
            | Some m => m
            | None => (mem_total_kb st, mem_free_kb st, mem_available_kb st)
            end) as [[mt mf] ma] eqn:Em.
  apply bind_Ok in H as (sel & Hsel & H).
  apply bind_Ok in H as (off & Hoff & H).
  injection H as <- <-.
  assert (Hmt : mt = match in_meminfo inp with Some m => m.1.1 | None => mem_total_kb st end).
  { destruct (in_meminfo inp) as [[[a b] c] | ]; injection Em as <- <- <-; reflexivity. }
  constructor; simpl; auto.
Qed.



Lemma refresh_keyed inp st st' outs :
  refresh inp st = Ok (st', outs) -> keyed_by_pid (cur_procs st').
Proof.
  intros H. apply refresh_refreshed in H. rewrite (rf_cur _ _ _ _ H).
  apply update_cpu_percent_keyed, collect_processes_keyed.
Qed.

(** Every entry of [cur_procs] after a refresh is a fresh reading with its
    CPU percentage filled in. *)
Lemma refresh_entry inp st st' outs k p :
  refresh inp st = Ok (st', outs) -> cur_procs st' !! k = Some p ->
  exists rd,
    (k, Some rd) ∈ in_procs inp /\
    let q := proc_of_read (in_passwd inp) (mem_total_kb st') k rd in
    p = set_cpu_percent q
          (pct_of (delta_proc_of (total_time q) (old_total_proc_of (old_procs st) k))
                  (total_delta_of (old_total_cpu st) (old_total_cpu st'))).
Proof.
  intros H Hk. apply refresh_refreshed in H.
  rewrite (rf_cur _ _ _ _ H), update_cpu_percent_lookup in Hk.
  rewrite (rf_old_total _ _ _ _ H).
  destruct (collect_processes _ _ _ !! k) as [q | ] eqn:E; [ | discriminate].
  injection Hk as <-.
  apply collect_processes_lookup in E as (rd & Hin & ->).
  exists rd. split; [exact Hin | reflexivity].
Qed.

Lemma delta_proc_of_range t o : U64.in_range (delta_proc_of t o).
Proof.
  unfold delta_proc_of. destruct (o <=? t); [apply wrap64_range | ].
  unfold U64.in_range, U64.modulus. lia.
Qed.

Lemma total_delta_of_diag a : total_delta_of a a = 1.
Proof. unfold total_delta_of. rewrite sub_diag. reflexivity. Qed.

Lemma delta_proc_of_diag t : delta_proc_of t t = 0.
Proof. unfold delta_proc_of. rewrite Z.leb_refl. apply sub_diag. Qed.

Lemma system_cpu_percent_diag f t : system_cpu_percent f f t t = hundred.
Proof.
  unfold system_cpu_percent. rewrite sub_diag, total_delta_of_diag. reflexivity.
Qed.


(** The entries of [cur_procs] carry the memory percentage of the current
    total already, so recomputing it for the view changes nothing. *)
Lemma refresh_mem_percent inp st st' outs k p :
  refresh inp st = Ok (st', outs) -> cur_procs st' !! k = Some p ->
  mem_percent p = mem_percent_of (mem_kb p) (mem_total_kb st').
Proof.
  intros H Hk. destruct (refresh_entry _ _ _ _ _ _ H Hk) as (rd & _ & ->).
  reflexivity.
Qed.

Lemma set_mem_percent_same p : set_mem_percent p (mem_percent p) = p.
Proof. destruct p; reflexivity. Qed.

Lemma refresh_view_cur inp st st' outs mode :
  refresh inp st = Ok (st', outs) ->
  refresh_view (cur_procs st') (mem_total_kb st') mode =
  sort_processes (map_values (cur_procs st')) mode.
Proof.
  intros H. unfold refresh_view. f_equal.
  rewrite <- (map_id (map_values (cur_procs st'))) at 2.
  apply map_ext_in. intros p Hp. apply list_elem_of_In in Hp.
  apply elem_of_map_values in Hp as (k & Hk).
  rewrite <- (refresh_mem_percent _ _ _ _ _ _ H Hk).
  apply set_mem_percent_same.
Qed.

Lemma refresh_drawn inp st st' outs pv sel off :
  refresh inp st = Ok (st', outs) -> ODrawProcesses pv sel off ∈ outs ->
  pv = sort_processes (map_values (cur_procs st')) (sort_mode st) /\
  sel = selected st' /\ off = page_offset st'.
Proof.
  intros H Hin. pose proof (refresh_refreshed _ _ _ _ H) as R.
  rewrite (rf_outs _ _ _ _ R) in Hin.
  apply elem_of_cons in Hin as [Hin | Hin]; [discriminate | ].
  apply list_elem_of_singleton in Hin. injection Hin as -> -> ->.
  split; [ | split; reflexivity].
  apply (refresh_view_cur _ _ _ _ _ H).
Qed.


Lemma refresh_cpu_nonneg inp st st' outs k p :
  refresh inp st = Ok (st', outs) -> cur_procs st' !! k = Some p ->
  nonneg (cpu_percent p).
Proof.
  intros H Hk.
  destruct (refresh_entry _ _ _ _ _ _ H Hk) as (rd & _ & ->). simpl.
  apply pct_of_nonneg; [apply delta_proc_of_range | apply total_delta_of_range].
Qed.

Lemma mem_percent_of_nonneg m mt :
  U64.in_range m -> U64.in_range mt -> nonneg (mem_percent_of m mt).
Proof.
  intros Hm [Hmt0 Hmt1]. unfold mem_percent_of.
  destruct (Z.ltb_spec 0 mt); [ | exact I].
  apply div_nonneg; [ | apply of_u64_finite; lia].
  apply mul_hundred_nonneg, of_u64_cases, Hm.
Qed.

(** The percentages the engine produces are numbers: the comparators never
    meet a NaN. *)
Lemma refresh_entries_ordered inp st st' outs k p :
  refresh inp st = Ok (st', outs) -> U64.in_range (mem_total_kb st') ->
  cur_procs st' !! k = Some p -> ordered_entry p.
Proof.
  intros H Hmt Hk. split.
  - apply nonneg_not_nan, (refresh_cpu_nonneg _ _ _ _ _ _ H Hk).
  - rewrite (refresh_mem_percent _ _ _ _ _ _ H Hk).
    apply nonneg_not_nan, mem_percent_of_nonneg; [ | exact Hmt].
    destruct (refresh_entry _ _ _ _ _ _ H Hk) as (rd & _ & ->). simpl.
    apply wrap64_range.
Qed.

(** The vector the program sorts after a refresh has distinct pids and
    percentages that are numbers. *)
Lemma refresh_view_sortable inp st st' outs :
  refresh inp st = Ok (st', outs) -> U64.in_range (mem_total_kb st') ->
  sortable (map_values (cur_procs st')).
Proof.
  intros H Hmt. split.
  - apply map_values_NoDup, (refresh_keyed _ _ _ _ H).
  - apply Forall_forall. intros p Hp.
    apply elem_of_map_values in Hp as (k & Hk).
    apply (refresh_entries_ordered _ _ _ _ _ _ H Hmt Hk).
Qed.

Lemma initial_totals_consistent argv ini :
  totals_consistent (initial_state argv ini).
Proof.
  unfold totals_consistent, initial_state.
  destruct (init_meminfo ini) as [[[mt mf] ma] | ]; reflexivity.
Qed.

Lemma refresh_totals_consistent inp st st' outs :
  refresh inp st = Ok (st', outs) -> totals_consistent st'.
Proof.
  intros H. apply refresh_refreshed in H. unfold totals_consistent.
  rewrite (rf_old_total _ _ _ _ H), (rf_old_fields _ _ _ _ H). reflexivity.
Qed.

(** * The rate engine *)

Lemma first_refresh :
  exists outs,
    iteration Sample.first_tick Sample.started = Ok (Sample.after_first, outs).
Proof. eexists. vm_compute. reflexivity. Qed.

(** C1 (as the code has it).  A pid that is absent from the previous process
    map, which is also the case of every pid while there is no previous
    snapshot (the map is then empty), is measured against a zero baseline:
    its CPU percentage in that cycle is [100 * total_time / total_delta],
    taken from its whole cumulative tick count.  It is 0 when that count
    is 0. *)
Theorem first_observation_zero_baseline inp st st' outs k p :
  refresh inp st = Ok (st', outs) ->
  old_procs st !! k = None ->
  cur_procs st' !! k = Some p ->
  cpu_percent p =
    pct_of (total_time p) (total_delta_of (old_total_cpu st) (old_total_cpu st')) /\
  (total_time p = 0 -> cpu_percent p = zero).
Proof.
  intros H Hold Hk.
  destruct (refresh_entry _ _ _ _ _ _ H Hk) as (rd & _ & ->). simpl.
  unfold old_total_proc_of. rewrite Hold.
  set (t := U64.add _ _).
  assert (Ht : U64.in_range t) by apply add_range.
  assert (Hd : delta_proc_of t 0 = t).
  { unfold delta_proc_of. destruct Ht as [Ht0 Ht1].
    destruct (Z.leb_spec 0 t); [ | lia].
    unfold U64.sub. rewrite Z.sub_0_r. apply wrap64_small. split; assumption. }
  rewrite Hd. split; [reflexivity | ].
  intros ->. apply pct_of_zero, total_delta_of_range.
Qed.

Lemma first_observation_zero_baseline_witness :
  exists st' outs p,
    refresh Sample.first_tick Sample.started = Ok (st', outs) /\
    old_procs Sample.started !! 10 = None /\
    cur_procs st' !! 10 = Some p /\
    cpu_percent p =
      pct_of (total_time p)
        (total_delta_of (old_total_cpu Sample.started) (old_total_cpu st')) /\
    (total_time p = 0 -> cpu_percent p = zero).
Proof.
  eexists _, _, _.
  split; [vm_compute; reflexivity | ].
  split; [reflexivity | ].
  split; [vm_compute; reflexivity | ].
  eapply (first_observation_zero_baseline Sample.first_tick Sample.started _ _ 10).
  - vm_compute; reflexivity.
  - reflexivity.
  - vm_compute; reflexivity.
Defined.

(** C1 as stated fails.  In the first cycle after start-up there is no
    previous snapshot; pid 10, with 10 cumulative ticks in a window of 100
    system ticks, is reported at 10 percent, not at 0. *)
Lemma first_observation_not_zero :
  old_procs Sample.started = ∅ /\
  exists st' outs p,
    refresh Sample.first_tick Sample.started = Ok (st', outs) /\
    cur_procs st' !! 10 = Some p /\
    cpu_percent p = of_u64 10 /\
    eqb (cpu_percent p) zero = false.
Proof.
  split; [reflexivity | ].
  eexists _, _, _.
  split; [vm_compute; reflexivity | ].
  split; [vm_compute; reflexivity | ].
  split; vm_compute; reflexivity.
Qed.

(** C2 (as the code has it).  When the counters read in a cycle all equal
    the previous ones (the fields of /proc/stat, and the tick count of every
    process in the map), the tick delta 0 is replaced by 1 and every
    per-process CPU percentage is 0; the system-wide figure
    [100 * (1 - idle_delta / total_delta)] is then [100 * (1 - 0 / 1)],
    which is 100. *)
Theorem equal_counters_percentages inp st st' outs :
  refresh inp st = Ok (st', outs) ->
  totals_consistent st ->
  cur_cpu_fields st' = old_cpu_fields st ->
  (forall k p, cur_procs st' !! k = Some p ->
               exists o, old_procs st !! k = Some o /\ total_time o = total_time p) ->
  total_delta_of (old_total_cpu st) (old_total_cpu st') = 1 /\
  (forall k p, cur_procs st' !! k = Some p -> cpu_percent p = zero) /\
  total_cpu_percent st' = hundred.
Proof.
  intros H Hinv Hf Hp. pose proof (refresh_refreshed _ _ _ _ H) as R.
  assert (Ht : old_total_cpu st' = old_total_cpu st).
  { rewrite (rf_old_total _ _ _ _ R), Hf, Hinv. reflexivity. }
  rewrite Ht, total_delta_of_diag. split; [reflexivity | ]. split.
  - intros k p Hk. destruct (Hp k p Hk) as (o & Ho & Hto).
    destruct (refresh_entry _ _ _ _ _ _ H Hk) as (rd & _ & E).
    simpl in E. rewrite E in Hto |- *. simpl in Hto |- *.
    unfold old_total_proc_of. rewrite Ho, Hto, delta_proc_of_diag.
    apply pct_of_zero, total_delta_of_range.
  - rewrite (rf_cpu _ _ _ _ R), <- (rf_old_total _ _ _ _ R), Ht, Hf.
    apply system_cpu_percent_diag.
Qed.

Lemma equal_counters_percentages_witness :
  exists st' outs,
    refresh Sample.idle_tick Sample.after_first = Ok (st', outs) /\
    totals_consistent Sample.after_first /\
    cur_cpu_fields st' = old_cpu_fields Sample.after_first /\
    (forall k p, cur_procs st' !! k = Some p ->
       exists o, old_procs Sample.after_first !! k = Some o /\
                 total_time o = total_time p) /\
    total_delta_of (old_total_cpu Sample.after_first) (old_total_cpu st') = 1 /\
    (forall k p, cur_procs st' !! k = Some p -> cpu_percent p = zero) /\
    total_cpu_percent st' = hundred.
Proof.
  eexists _, _.
  split; [vm_compute; reflexivity | ].
  split; [reflexivity | ].
  split; [reflexivity | ].
  match goal with
  | |- ?H /\ _ => assert (Hsame : H)
  end.
  { apply map_forall_by_list. vm_compute.
    repeat constructor; eexists; split; reflexivity. }
  split; [exact Hsame | ].
  eapply (equal_counters_percentages Sample.idle_tick Sample.after_first).
  - vm_compute; reflexivity.
  - reflexivity.
  - reflexivity.
  - exact Hsame.
Defined.

(** C2 as stated fails.  The second cycle reads the very counters of the
    first one; the system-wide CPU percentage it derives is 100, not 0. *)
Lemma equal_counters_system_percent_not_zero :
  in_stat Sample.idle_tick = in_stat Sample.first_tick /\
  exists st' outs,
    iteration Sample.idle_tick Sample.after_first = Ok (st', outs) /\
    cur_cpu_fields st' = old_cpu_fields Sample.after_first /\
    (forall p, p ∈ map_values (cur_procs st') ->
       total_time <$> old_procs Sample.after_first !! pid p = Some (total_time p)) /\
    total_cpu_percent st' = hundred /\
    eqb (total_cpu_percent st') zero = false.
Proof.
  split; [reflexivity | ].
  eexists _, _.
  split; [vm_compute; reflexivity | ].
  split; [reflexivity | ].
  split; [ | split; vm_compute; reflexivity].
  apply Forall_forall. vm_compute. repeat constructor.
Qed.

(** C3 (as the code has it).  For a pid present in both snapshots whose
    cumulative tick count went backward, the per-process delta is 0 (the
    unsigned subtraction is not executed) and its CPU percentage is 0.  The
    CPU percentage of every process in every cycle is a number and is at
    least 0.  No upper bound is enforced. *)
Theorem counter_backward_and_sign inp st st' outs k p :
  refresh inp st = Ok (st', outs) ->
  cur_procs st' !! k = Some p ->
  (forall o, old_procs st !! k = Some o -> total_time p < total_time o ->
             delta_proc_of (total_time p) (total_time o) = 0 /\
             cpu_percent p = zero) /\
  leb zero (cpu_percent p) = true /\
  is_nan (cpu_percent p) = false.
Proof.
  intros H Hk.
  destruct (refresh_entry _ _ _ _ _ _ H Hk) as (rd & _ & E). simpl in E.
  assert (Hnn : nonneg (cpu_percent p)).
  { rewrite E. simpl. apply pct_of_nonneg;
      [apply delta_proc_of_range | apply total_delta_of_range]. }
  split; [ | split; [apply leb_zero_nonneg | apply nonneg_not_nan]; exact Hnn].
  intros o Ho Hlt.
  assert (Hd : delta_proc_of (total_time p) (total_time o) = 0).
  { unfold delta_proc_of. destruct (Z.leb_spec (total_time o) (total_time p)); [lia | reflexivity]. }
  split; [exact Hd | ].
  rewrite E in Hd |- *. simpl in Hd |- *.
  unfold old_total_proc_of. rewrite Ho, Hd.
  apply pct_of_zero, total_delta_of_range.
Qed.

Lemma counter_backward_and_sign_witness :
  exists st' outs p o,
    refresh Sample.reuse_tick Sample.after_first = Ok (st', outs) /\
    cur_procs st' !! 10 = Some p /\
    old_procs Sample.after_first !! 10 = Some o /\
    total_time p < total_time o /\
    cpu_percent p = zero /\
    leb zero (cpu_percent p) = true /\
    is_nan (cpu_percent p) = false.
Proof.
  eexists _, _, _, _.
  split; [vm_compute; reflexivity | ].
  split; [vm_compute; reflexivity | ].
  split; [vm_compute; reflexivity | ].
  split; [reflexivity | ].
  split.
  - eapply (counter_backward_and_sign Sample.reuse_tick Sample.after_first _ _ 10).
    + vm_compute; reflexivity.
    + vm_compute; reflexivity.
    + vm_compute; reflexivity.
    + reflexivity.
  - eapply (counter_backward_and_sign Sample.reuse_tick Sample.after_first _ _ 10).
    + vm_compute; reflexivity.
    + vm_compute; reflexivity.
Defined.

(** C3 as stated fails.  Between two reads /proc/stat did not move while
    pid 10, present in both snapshots, advanced by two ticks: the tick delta
    0 is replaced by 1 and the process is reported at 200 percent. *)
Lemma cpu_percent_above_hundred :
  exists st' outs o p,
    refresh Sample.busy_tick Sample.after_first = Ok (st', outs) /\
    old_procs Sample.after_first !! 10 = Some o /\
    cur_procs st' !! 10 = Some p /\
    total_time o = 10 /\ total_time p = 12 /\
    cpu_percent p = of_u64 200 /\
    leb (cpu_percent p) hundred = false.
Proof.
  eexists _, _, _, _.
  split; [vm_compute; reflexivity | ].
  split; [vm_compute; reflexivity | ].
  split; [vm_compute; reflexivity | ].
  repeat split; vm_compute; reflexivity.
Qed.

(** C7.  A pid that the current snapshot does not contain (no successful
    read of it in this cycle), whether or not the previous snapshot had it,
    is after the refresh cycle in neither the current process map, nor the
    stored previous map (which is replaced by the current one), nor the
    list handed to the renderer. *)
Theorem exited_pid_dropped inp st st' outs k :
  refresh inp st = Ok (st', outs) ->
  (forall rd, (k, Some rd) ∉ in_procs inp) ->
  cur_procs st' !! k = None /\
  old_procs st' !! k = None /\
  (forall pv sel off, ODrawProcesses pv sel off ∈ outs -> k ∉ pid <$> pv).
Proof.
  intros H Habs. pose proof (refresh_refreshed _ _ _ _ H) as R.
  assert (Hcur : cur_procs st' !! k = None).
  { rewrite (rf_cur _ _ _ _ R), update_cpu_percent_lookup,
      (collect_processes_absent _ _ _ _ Habs). reflexivity. }
  split; [exact Hcur | ]. split; [rewrite (rf_old _ _ _ _ R); exact Hcur | ].
  intros pv sel off Hin. rewrite (rf_outs _ _ _ _ R) in Hin.
  apply elem_of_cons in Hin as [Hin | Hin]; [discriminate | ].
  apply list_elem_of_singleton in Hin. injection Hin as -> _ _.
  intros Hk. apply list_elem_of_fmap in Hk as (p & -> & Hp).
  unfold refresh_view in Hp. rewrite sort_processes_perm in Hp.
  apply list_elem_of_fmap in Hp as (q & -> & Hq).
  apply elem_of_map_values in Hq as (k' & Hk').
  pose proof (refresh_keyed _ _ _ _ H _ _ Hk') as Hpid. simpl in Hcur.
  rewrite Hpid in Hcur. congruence.
Qed.

Lemma exited_pid_dropped_witness :
  exists st' outs,
    refresh Sample.kill_tick Sample.after_first = Ok (st', outs) /\
    is_Some (old_procs Sample.after_first !! 20) /\
    (forall rd, (20, Some rd) ∉ in_procs Sample.kill_tick) /\
    cur_procs st' !! 20 = None /\
    old_procs st' !! 20 = None /\
    (forall pv sel off, ODrawProcesses pv sel off ∈ outs -> 20 ∉ pid <$> pv).
Proof.
  eexists _, _.
  split; [vm_compute; reflexivity | ].
  split; [vm_compute; eauto | ].
  assert (Habs : forall rd, (20, Some rd) ∉ in_procs Sample.kill_tick).
  { intros rd Hin. apply list_elem_of_singleton in Hin. discriminate. }
  split; [exact Habs | ].
  eapply (exited_pid_dropped Sample.kill_tick Sample.after_first).
  - vm_compute; reflexivity.
  - exact Habs.
Defined.




Example mem_percent_of_first_tick :
  exists st' outs p,
    refresh Sample.first_tick Sample.started = Ok (st', outs) /\
    cur_procs st' !! 20 = Some p /\
    mem_kb p = 800000 /\ mem_total_kb st' = 8000000 /\
    mem_percent p = of_u64 10.
Proof.
  eexists _, _, _.
  split; [vm_compute; reflexivity | ].
  split; [vm_compute; reflexivity | ].
  repeat split.
Qed.

(** * The interaction controller *)

(** Every branch of the key handler, one goal each. *)
Ltac key_cases H :=
  unfold handle_key in H;
  repeat match type of H with
         | (if ?c then _ else _) = _ => destruct c eqn:?
         end.

Lemma key_frame_refl st : key_frame st st.
Proof. constructor; reflexivity. Qed.

Lemma handle_kill_frame inp st st' outs :
  handle_kill inp st = Ok (st', outs) -> key_frame st st' /\ selected st' = selected st
                                         /\ page_offset st' = page_offset st
                                         /\ sort_mode st' = sort_mode st.
Proof.
  unfold handle_kill. destruct (_ && _).
  - intros H. apply bind_Ok in H as (p & _ & H).
    destruct (confirm_kill _ _ _). injection H as <- _.
    repeat split.
  - intros [= <- _]. repeat split.
Qed.

Lemma handle_key_frame inp st st' outs :
  handle_key inp st = Ok (st', outs) -> key_frame st st'.
Proof.
  intros H. key_cases H.
  - injection H as <- _. constructor; reflexivity.
  - injection H as <- _.
    destruct (0 <? selected st); simpl;
      match goal with |- context [if ?c then _ else _] => destruct c end;
      constructor; reflexivity.
  - apply bind_Ok in H as (s & _ & [= <- _]). constructor; reflexivity.
  - apply bind_Ok in H as (r & _ & H).
    apply bind_Ok in H as (s & _ & [= <- _]). constructor; reflexivity.
  - apply bind_Ok in H as (r & _ & H).
    apply bind_Ok in H as (s & _ & [= <- _]). constructor; reflexivity.
  - injection H as <- _. constructor; reflexivity.
  - injection H as <- _. constructor; reflexivity.
  - apply (handle_kill_frame _ _ _ _ H).
  - injection H as <- _. constructor; reflexivity.
Qed.

Lemma handle_key_nonneg inp st st' outs :
  handle_key inp st = Ok (st', outs) ->
  0 <= selected st -> 0 <= page_offset st ->
  0 <= selected st' /\ 0 <= page_offset st'.
Proof.
  intros H Hs Ho. key_cases H.
  - injection H as <- _. simpl. lia.
  - injection H as <- _.
    destruct (Z.ltb_spec 0 (selected st)); simpl;
      match goal with |- context [if ?c then _ else _] => destruct c end;
      simpl; lia.
  - apply bind_Ok in H as (s & Hs' & [= <- _]).
    apply checked_Ok in Hs' as [-> _]. simpl. lia.
  - apply bind_Ok in H as (r & Hr & H). apply checked_Ok in Hr as [-> _].
    apply bind_Ok in H as (s & Hs' & [= <- _]).
    apply checked_Ok in Hs' as [-> _]. simpl. lia.
  - apply bind_Ok in H as (r & Hr & H).
    apply bind_Ok in H as (s & Hs' & [= <- _]). simpl.
    destruct (Z.ltb_spec s 0); lia.
  - injection H as <- _. simpl. lia.
  - injection H as <- _. simpl. lia.
  - destruct (handle_kill_frame _ _ _ _ H) as (_ & -> & -> & _). lia.
  - injection H as <- _. lia.
Qed.

Lemma refresh_nonneg inp st st' outs :
  refresh inp st = Ok (st', outs) -> 0 <= page_offset st ->
  0 <= selected st' /\ 0 <= page_offset st'.
Proof.
  intros H Ho. pose proof (refresh_refreshed _ _ _ _ H) as R.
  pose proof (rf_selected _ _ _ _ R) as Hc.
  pose proof (rf_offset _ _ _ _ R) as Ha.
  assert (Hsel : 0 <= selected st').
  { unfold clamp_selected in Hc. apply bind_Ok in Hc as (s1 & _ & [= <-]).
    destruct (Z.ltb_spec s1 0); lia. }
  split; [exact Hsel | ].
  unfold adjust_page_offset in Ha.
  apply bind_Ok in Ha as (r & _ & Ha).
  destruct (Z.ltb_spec (selected st') (page_offset st)); [injection Ha as <-; lia | ].
  apply bind_Ok in Ha as (b & Hb & Ha). apply checked_Ok in Hb as [-> _].
  destruct (Z.leb_spec (page_offset st + (if r <? 1 then 1 else r)) (selected st')).
  - apply bind_Ok in Ha as (d & Hd & Ha). apply checked_Ok in Hd as [-> _].
    apply checked_Ok in Ha as [-> _]. lia.
  - injection Ha as <-. lia.
Qed.

Lemma iteration_invariant inp st st' outs :
  iteration inp st = Ok (st', outs) -> loop_invariant st -> loop_invariant st'.
Proof.
  unfold iteration, loop_invariant, totals_consistent.
  intros H (Ht & Hs & Ho & Hr).
  apply bind_Ok in H as ([st1 outs1] & H1 & H).
  assert (I1 : old_total_cpu st1 = total_cpu_time (old_cpu_fields st1) /\
               0 <= selected st1 /\ 0 <= page_offset st1 /\ 1 <= refresh_sec st1).
  { destruct (in_getch inp =? ERR).
    - injection H1 as <- _. auto.
    - pose proof (handle_key_frame _ _ _ _ H1) as F.
      destruct (handle_key_nonneg _ _ _ _ H1 Hs Ho).
      rewrite (kf_old_total _ _ F), (kf_old_fields _ _ F), (kf_refresh_sec _ _ F).
      auto. }
  destruct (negb (running st1)); [injection H as <- _; exact I1 | ].
  destruct (_ <=? _); [ | injection H as <- _; exact I1].
  apply bind_Ok in H as ([st2 outs2] & H2 & [= <- _]).
  destruct I1 as (_ & _ & Ho1 & Hr1).
  destruct (refresh_nonneg _ _ _ _ H2 Ho1).
  pose proof (refresh_totals_consistent _ _ _ _ H2).
  rewrite (rf_sec _ _ _ _ (refresh_refreshed _ _ _ _ H2)). auto.
Qed.

Lemma parse_refresh_sec_positive argv : 1 <= parse_refresh_sec argv.
Proof.
  unfold parse_refresh_sec. destruct argv as [ | prog [ | a rest]]; try lia.
  destruct (stoi a) as [v | | ]; try lia.
  destruct (Z.ltb_spec v 1); lia.
Qed.

Lemma initial_invariant argv ini : loop_invariant (initial_state argv ini).
Proof.
  split; [apply initial_totals_consistent | ].
  pose proof (parse_refresh_sec_positive argv).
  unfold initial_state.
  destruct (init_meminfo ini) as [[[mt mf] ma] | ]; simpl; lia.
Qed.

Lemma run_invariant inputs : forall st outs,
  loop_invariant st ->
  match run inputs st outs with
  | Exited _ st' _ | Pending st' _ => loop_invariant st'
  | Faulted _ _ => True
  end.
Proof.
  induction inputs as [ | inp rest IH]; intros st outs Hinv; simpl.
  - destruct (running st); exact Hinv.
  - destruct (running st); [ | exact Hinv].
    destruct (iteration inp st) as [[st' outs'] | f] eqn:E; [ | exact I].
    apply IH, (iteration_invariant _ _ _ _ E Hinv).
Qed.

(** Every state the program reaches satisfies the loop invariant. *)
Lemma main_invariant argv ini inputs :
  match main argv ini inputs with
  | Exited _ st _ | Pending st _ => loop_invariant st
  | Faulted _ _ => True
  end.
Proof. apply run_invariant, initial_invariant. Qed.

Lemma iteration_ignored_key inp st :
  handle_key inp st = Ok (st, []) -> in_getch inp <> ERR ->
  iteration inp st = iteration (no_key inp) st.
Proof.
  intros H Hne. unfold iteration. rewrite H.
  destruct (Z.eqb_spec (in_getch inp) ERR); [contradiction | ].
  reflexivity.
Qed.

Lemma initial_view_invariant argv ini :
  typed_meminfo (init_meminfo ini) -> view_invariant (initial_state argv ini).
Proof.
  unfold view_invariant, initial_state, typed_meminfo.
  destruct (init_meminfo ini) as [[[mt mf] ma] | ]; simpl; intros H.
  - split; [exact H | ]. split; intros k p Hk; rewrite lookup_empty in Hk; discriminate.
  - split; [unfold U64.in_range, U64.modulus; lia | ].
    split; intros k p Hk; rewrite lookup_empty in Hk; discriminate.
Qed.

Lemma refresh_view_invariant inp st st' outs :
  refresh inp st = Ok (st', outs) -> typed_meminfo (in_meminfo inp) ->
  U64.in_range (mem_total_kb st) -> view_invariant st'.
Proof.
  intros H Hin Hst. pose proof (refresh_refreshed _ _ _ _ H) as R.
  assert (Hmt : U64.in_range (mem_total_kb st')).
  { rewrite (rf_mem _ _ _ _ R). unfold typed_meminfo in Hin.
    destruct (in_meminfo inp) as [[[mt mf] ma] | ]; [exact Hin | exact Hst]. }
  split; [exact Hmt | ]. split; [apply (refresh_keyed _ _ _ _ H) | ].
  intros k p. apply (refresh_entries_ordered _ _ _ _ _ _ H Hmt).
Qed.

Lemma iteration_view_invariant inp st st' outs :
  iteration inp st = Ok (st', outs) -> typed_meminfo (in_meminfo inp) ->
  view_invariant st -> view_invariant st'.
Proof.
  unfold iteration. intros H Hin Hinv.
  apply bind_Ok in H as ([st1 outs1] & H1 & H).
  assert (I1 : view_invariant st1).
  { destruct (in_getch inp =? ERR); [injection H1 as <- _; exact Hinv | ].
    pose proof (handle_key_frame _ _ _ _ H1) as F.
    unfold view_invariant. rewrite (kf_mem_total _ _ F), (kf_cur_procs _ _ F).
    exact Hinv. }
  destruct (negb (running st1)); [injection H as <- _; exact I1 | ].
  destruct (_ <=? _); [ | injection H as <- _; exact I1].
  apply bind_Ok in H as ([st2 outs2] & H2 & [= <- _]).
  apply (refresh_view_invariant _ _ _ _ H2 Hin). apply I1.
Qed.

Lemma run_view_invariant inputs : forall st outs,
  Forall (fun inp => typed_meminfo (in_meminfo inp)) inputs ->
  view_invariant st ->
  match run inputs st outs with
  | Exited _ st' _ | Pending st' _ => view_invariant st'
  | Faulted _ _ => True
  end.
Proof.
  induction inputs as [ | inp rest IH]; intros st outs Hin Hinv; simpl.
  - destruct (running st); exact Hinv.
  - destruct (running st); [ | exact Hinv].
    apply Forall_cons in Hin as [Hinp Hrest].
    destruct (iteration inp st) as [[st' outs'] | f] eqn:E; [ | exact I].
    apply IH; [exact Hrest | ].
    apply (iteration_view_invariant _ _ _ _ E Hinp Hinv).
Qed.

Lemma view_invariant_sortable st :
  view_invariant st -> sortable (map_values (cur_procs st)).
Proof.
  intros (_ & Hk & Ho). split; [apply map_values_NoDup, Hk | ].
  apply Forall_forall. intros p Hp.
  apply elem_of_map_values in Hp as (k & Hp). apply (Ho k p Hp).
Qed.

(** In every state the program reaches, the vector that the refresh cycle
    and the kill handler sort has distinct pids and percentages that are
    numbers. *)
Lemma main_view_sortable argv ini inputs :
  typed_meminfo (init_meminfo ini) ->
  Forall (fun inp => typed_meminfo (in_meminfo inp)) inputs ->
  match main argv ini inputs with
  | Exited _ st _ | Pending st _ => sortable (map_values (cur_procs st))
  | Faulted _ _ => True
  end.
Proof.
  intros Hini Hin.
  pose proof (run_view_invariant inputs (initial_state argv ini) []
                Hin (initial_view_invariant argv ini Hini)) as H.
  unfold main.
  destruct (run inputs (initial_state argv ini) []) as [c st o | st o | f o];
    [ | | exact I]; apply view_invariant_sortable, H.
Qed.

Lemma is_key_cases ch lower upper :
  is_key ch lower upper = true -> ch = chr lower \/ ch = chr upper.
Proof. unfold is_key. rewrite orb_true_iff, !Z.eqb_eq. auto. Qed.

Lemma kill_view_empty st : cur_procs st = ∅ -> kill_view st = [].
Proof. unfold kill_view. intros ->. reflexivity. Qed.

Lemma handle_key_kill inp st :
  is_key (in_getch inp) "k" "K" = true -> handle_key inp st = handle_kill inp st.
Proof.
  intros H. unfold handle_key.
  apply is_key_cases in H as [-> | ->]; reflexivity.
Qed.

(** C10.  When the kill key is pressed while the current process map is
    empty, or while the selection index is outside the sorted list, the key
    handler returns the state it was given (sort mode, selection index,
    scroll offset, both snapshots and the refresh timer included) and
    produces no output: no confirmation dialog, no signal.  It does so
    without a fault, so no element outside the list is read.  The loop
    iteration goes on exactly as if no key had been pressed. *)
Theorem kill_without_target_is_noop inp st :
  is_key (in_getch inp) "k" "K" = true ->
  cur_procs st = ∅ \/ selected st < 0 \/
    Z.of_nat (length (kill_view st)) <= selected st ->
  handle_key inp st = Ok (st, []) /\
  iteration inp st = iteration (no_key inp) st.
Proof.
  intros Hk Hout.
  assert (H : handle_key inp st = Ok (st, [])).
  { rewrite (handle_key_kill _ _ Hk). unfold handle_kill.
    replace (_ && _) with false; [reflexivity | ].
    symmetry. apply andb_false_iff.
    destruct Hout as [He | [Hneg | Hge]].
    - rewrite (kill_view_empty _ He). simpl length.
      change (Int.of_unsigned (Z.of_nat 0)) with 0.
      destruct (Z.leb_spec 0 (selected st)); [right | left; reflexivity].
      apply Z.ltb_ge. assumption.
    - left. apply Z.leb_gt. assumption.
    - right. apply Z.ltb_ge.
      pose proof (of_unsigned_le (Z.of_nat (length (kill_view st)))). lia. }
  split; [exact H | ].
  apply (iteration_ignored_key _ _ H).
  apply is_key_cases in Hk as [-> | ->]; discriminate.
Qed.

Lemma kill_without_target_is_noop_witness :
  is_key (in_getch Sample.kill_tick) "k" "K" = true /\
  (cur_procs Sample.started = ∅ \/ selected Sample.started < 0 \/
     Z.of_nat (length (kill_view Sample.started)) <= selected Sample.started) /\
  handle_key Sample.kill_tick Sample.started = Ok (Sample.started, []) /\
  iteration Sample.kill_tick Sample.started
    = iteration (no_key Sample.kill_tick) Sample.started.
Proof.
  split; [reflexivity | ].
  split; [left; reflexivity | ].
  apply (kill_without_target_is_noop Sample.kill_tick Sample.started).
  - reflexivity.
  - left; reflexivity.
Defined.

(** The guard of the kill handler keeps [pv[selected]] inside the vector. *)
Lemma handle_kill_never_faults inp st : exists r, handle_kill inp st = Ok r.
Proof.
  unfold handle_kill.
  destruct (_ && _) eqn:G; [ | eauto].
  apply andb_true_iff in G as [G1 G2].
  apply Z.leb_le in G1. apply Z.ltb_lt in G2.
  pose proof (of_unsigned_le (Z.of_nat (length (kill_view st)))) as Hle.
  unfold vec_at. destruct (Z.ltb_spec (selected st) 0); [lia | ].
  destruct (kill_view st !! Z.to_nat (selected st)) as [p | ] eqn:E.
  - simpl. destruct (confirm_kill _ _ _); eauto.
  - apply lookup_ge_None in E. lia.
Qed.

(** Right after a refresh the vector of the kill handler is the one that
    was drawn. *)
Lemma kill_view_after_refresh inp st st' outs pv sel off :
  refresh inp st = Ok (st', outs) -> ODrawProcesses pv sel off ∈ outs ->
  kill_view st' = pv.
Proof.
  intros H Hin. destruct (refresh_drawn _ _ _ _ _ _ _ H Hin) as (-> & _ & _).
  unfold kill_view. rewrite (rf_mode _ _ _ _ (refresh_refreshed _ _ _ _ H)).
  reflexivity.
Qed.

(** Keys other than the sort key leave that vector alone. *)
Lemma kill_view_other_keys inp st st' outs :
  is_key (in_getch inp) "s" "S" = false ->
  handle_key inp st = Ok (st', outs) ->
  kill_view st' = kill_view st.
Proof.
  intros Hs. unfold handle_key. rewrite Hs.
  repeat match goal with
         | |- (if ?c then _ else _) = _ -> _ => destruct c
         end;
    try (intros [= <- _]; reflexivity).
  - intros [= <- _]. destruct (0 <? selected st); simpl;
      match goal with |- context [if ?c then _ else _] => destruct c end; reflexivity.
  - intros H. apply bind_Ok in H as (s & _ & [= <- _]). reflexivity.
  - intros H. apply bind_Ok in H as (r & _ & H).
    apply bind_Ok in H as (s & _ & [= <- _]). reflexivity.
  - intros H. apply bind_Ok in H as (r & _ & H).
    apply bind_Ok in H as (s & _ & [= <- _]). reflexivity.
  - unfold handle_kill. destruct (_ && _); [ | intros [= <- _]; reflexivity].
    intros H. apply bind_Ok in H as (p & _ & H).
    destruct (confirm_kill _ _ _). injection H as <- _. reflexivity.
Qed.

(** C4, evaluated where the code departs from it.  The first refresh draws
    the list in CPU order, pid 10 before pid 20, with the selection on
    row 0.  The sort key switches to MEM order without redrawing.  The kill
    key, answered with t and delivered, then rebuilds the list in MEM order,
    pid 20 before pid 10: the dialog and SIGTERM go to pid 20, while row 0 of
    the list on screen is pid 10. *)
Theorem kill_after_sort_toggle :
  exists st1 header pv st2 st3,
    iteration Sample.first_tick Sample.started
      = Ok (st1, [header; ODrawProcesses pv 0 0]) /\
    pid <$> pv = [10; 20] /\
    iteration Sample.sort_tick st1 = Ok (st2, []) /\
    selected st2 = 0 /\
    handle_key Sample.kill_tick st2
      = Ok (st3, [ODialog 20; OSignal 20 SIGTERM; OMessage true]) /\
    pid <$> kill_view st2 = [20; 10].
Proof.
  eexists _, _, _, _, _.
  split; [vm_compute; reflexivity | ].
  split; [reflexivity | ].
  split; [vm_compute; reflexivity | ].
  split; [reflexivity | ].
  split; vm_compute; reflexivity.
Qed.

Lemma clamp_selected_bounds sel size sel' :
  0 <= size <= Int.max_int ->
  clamp_selected sel size = Ok sel' ->
  0 <= sel' <= Z.max 0 (size - 1).
Proof.
  intros Hs. unfold clamp_selected. rewrite (of_unsigned_small _ Hs).
  destruct (Z.leb_spec size sel).
  - unfold Int.sub. rewrite checked_in_range
      by (unfold Int.in_range, Int.min_int, Int.max_int in *; lia).
    simpl. destruct (Z.ltb_spec (Z.max 0 (size - 1)) 0); intros [= <-]; lia.
  - simpl. destruct (Z.ltb_spec sel 0); intros [= <-]; lia.
Qed.

Lemma adjust_page_offset_visible sel off maxy off' :
  adjust_page_offset sel off maxy = Ok off' ->
  off' <= sel < off' + Z.max 1 (maxy - 3).
Proof.
  unfold adjust_page_offset. intros H.
  apply bind_Ok in H as (r & Hr & H). apply checked_Ok in Hr as [-> _].
  replace (if maxy - 3 <? 1 then 1 else maxy - 3) with (Z.max 1 (maxy - 3)) in H
    by (destruct (Z.ltb_spec (maxy - 3) 1); lia).
  destruct (Z.ltb_spec sel off); [injection H as <-; lia | ].
  apply bind_Ok in H as (b & Hb & H). apply checked_Ok in Hb as [-> _].
  destruct (Z.leb_spec (off + Z.max 1 (maxy - 3)) sel).
  - apply bind_Ok in H as (d & Hd & H). apply checked_Ok in Hd as [-> _].
    apply checked_Ok in H as [-> _]. lia.
  - injection H as <-. lia.
Qed.

Lemma clamp_selected_value sel size sel' :
  0 <= size <= Int.max_int ->
  clamp_selected sel size = Ok sel' ->
  sel' = if size <=? sel then Z.max 0 (size - 1) else Z.max 0 sel.
Proof.
  intros Hs. unfold clamp_selected. rewrite (of_unsigned_small _ Hs).
  destruct (Z.leb_spec size sel).
  - unfold Int.sub. rewrite checked_in_range
      by (unfold Int.in_range, Int.min_int, Int.max_int in *; lia).
    simpl. destruct (Z.ltb_spec (Z.max 0 (size - 1)) 0); intros [= <-]; lia.
  - simpl. destruct (Z.ltb_spec sel 0); intros [= <-]; lia.
Qed.

Lemma adjust_page_offset_value sel off maxy off' :
  adjust_page_offset sel off maxy = Ok off' ->
  off' = if sel <? off then sel
         else if off + Z.max 1 (maxy - 3) <=? sel
              then sel - Z.max 1 (maxy - 3) + 1
              else off.
Proof.
  unfold adjust_page_offset. intros H.
  apply bind_Ok in H as (r & Hr & H). apply checked_Ok in Hr as [-> _].
  replace (if maxy - 3 <? 1 then 1 else maxy - 3) with (Z.max 1 (maxy - 3)) in H
    by (destruct (Z.ltb_spec (maxy - 3) 1); lia).
  destruct (Z.ltb_spec sel off); [injection H as <-; lia | ].
  apply bind_Ok in H as (b & Hb & H). apply checked_Ok in Hb as [-> _].
  destruct (Z.leb_spec (off + Z.max 1 (maxy - 3)) sel).
  - apply bind_Ok in H as (d & Hd & H). apply checked_Ok in Hd as [-> _].
    apply checked_Ok in H as [-> _]. lia.
  - injection H as <-. lia.
Qed.

(** What the refresh cycle does to the selection and the window, from any
    state. *)
Lemma refresh_restores_selection st1 : selection_restored st1.
Proof.
  intros inp' st2 outs pv sel off H Hin Hlen rows.
  pose proof (refresh_refreshed _ _ _ _ H) as R.
  rewrite (rf_outs _ _ _ _ R) in Hin.
  apply elem_of_cons in Hin as [Hin | Hin]; [discriminate | ].
  apply list_elem_of_singleton in Hin. injection Hin as -> -> ->.
  split; [reflexivity | ]. split; [reflexivity | ]. split.
  { apply (clamp_selected_bounds (selected st1)); [lia | ].
    apply (rf_selected _ _ _ _ R). }
  split.
  { apply (adjust_page_offset_visible _ (page_offset st1)).
    apply (rf_offset _ _ _ _ R). }
  split.
  { apply clamp_selected_value; [lia | ]. apply (rf_selected _ _ _ _ R). }
  apply adjust_page_offset_value, (rf_offset _ _ _ _ R).
Qed.

Ltac settle :=
  unfold KEY_UP, KEY_DOWN, KEY_NPAGE, KEY_PPAGE in *;
  repeat match goal with |- _ /\ _ => split end;
  first [apply refresh_restores_selection
        | intros; try discriminate; try lia; split; lia].

(** C5 (as the code has it).  Take a single-step or page movement key on a
    state with a non-negative selection index, where the arithmetic of the
    key stays inside [int]: for down the index plus 1, for page down the
    window height and the index plus the page, for page up the window height
    and the index itself; the up key needs nothing.  The key draws nothing
    and keeps the index at or above 0: up gives [max 0 (selected - 1)], page
    up [max 0 (selected - page)], down and page down add 1 or the page, with
    no upper clamp, whatever the length of the list; the page is
    [max 1 (maxy - 3)].  No movement key moves the window down.  Only the up
    key moves it, to [min offset selected]; page up, down and page down leave
    the offset as it is, so after page up the index may lie above the
    window.  The refresh cycle that follows restores both, for a list of at
    most [INT_MAX] entries: an index beyond the list becomes its last index
    (0 for the empty list), any other is kept; the offset becomes the index
    when the index is less than the offset, [index - rows + 1] when the
    index is at least [offset + rows], and stays otherwise; after it the
    index is in [0, max 0 (length - 1)] and in the window. *)
Theorem selection_movement_bounds inp st :
  movement_key (in_getch inp) ->
  0 <= selected st ->
  movement_defined inp st ->
  movement_outcome inp st.
Proof.
  intros Hkey Hsel (Hdown & Hnext & Hprev). unfold movement_outcome.
  unfold handle_key.
  destruct Hkey as [E | [E | [E | E]]]; rewrite E; simpl.
  - (* KEY_UP *)
    destruct (Z.ltb_spec 0 (selected st)); simpl.
    + destruct (Z.ltb_spec (selected st - 1) (page_offset st));
        (eexists; split; [reflexivity | ]); simpl;
        settle.
    + destruct (Z.ltb_spec (selected st) (page_offset st));
        (eexists; split; [reflexivity | ]); simpl;
        settle.
  - (* KEY_DOWN *)
    specialize (Hdown E).
    unfold Int.add. rewrite checked_in_range
      by (unfold Int.in_range, Int.min_int, Int.max_int in *; lia).
    simpl. eexists; split; [reflexivity | ]; simpl.
    settle.
  - (* KEY_NPAGE *)
    destruct (Hnext E) as [Hrows Hmax].
    unfold Int.sub, Int.add. rewrite (checked_in_range _ Hrows). simpl.
    rewrite checked_in_range
      by (unfold Int.in_range, Int.min_int, Int.max_int in *; lia).
    simpl. eexists; split; [reflexivity | ]; simpl.
    settle.
  - (* KEY_PPAGE *)
    destruct (Hprev E) as [Hrows Hmax].
    unfold Int.sub. rewrite (checked_in_range _ Hrows). simpl.
    rewrite checked_in_range
      by (unfold Int.in_range, Int.min_int, Int.max_int in *; lia).
    simpl.
    destruct (Z.ltb_spec (selected st - Z.max 1 (in_body_maxy inp - 3)) 0);
      (eexists; split; [reflexivity | ]); simpl;
      settle.
Qed.

Lemma selection_movement_bounds_witness :
  movement_key (in_getch Sample.down_tick) /\
  0 <= selected Sample.after_first /\
  movement_defined Sample.down_tick Sample.after_first /\
  movement_outcome Sample.down_tick Sample.after_first.
Proof.
  assert (H1 : movement_key (in_getch Sample.down_tick))
    by (right; left; reflexivity).
  assert (H2 : 0 <= selected Sample.after_first) by (simpl; lia).
  assert (H3 : movement_defined Sample.down_tick Sample.after_first).
  { split; [intros _; vm_compute; discriminate | ].
    split; intros H; vm_compute in H; discriminate. }
  repeat (split; [assumption | ]).
  apply (selection_movement_bounds Sample.down_tick Sample.after_first);
    assumption.
Defined.

(** C5 as stated fails.  The first refresh draws a list of two entries with
    the selection on row 0; two presses of the down key before the next
    refresh leave the selection index at 2, outside [0, 1]. *)
Lemma selection_beyond_last_row :
  exists header pv st2 st3,
    iteration Sample.first_tick Sample.started
      = Ok (Sample.after_first, [header; ODrawProcesses pv 0 0]) /\
    length pv = 2%nat /\
    iteration Sample.down_tick Sample.after_first = Ok (st2, []) /\
    iteration Sample.down_tick st2 = Ok (st3, []) /\
    selected st3 = 2 /\
    ~ (0 <= selected st3 <= Z.of_nat (length pv) - 1).
Proof.
  eexists _, _, _, _.
  split; [vm_compute; reflexivity | ].
  split; [reflexivity | ].
  split; [vm_compute; reflexivity | ].
  split; [vm_compute; reflexivity | ].
  split; [reflexivity | ].
  simpl. lia.
Qed.

(** * The command line and the exit code *)

Lemma digits_only_read_digits s : forall acc seen v,
  digits_only s acc seen = Some v -> read_digits s acc seen = Some v.
Proof.
  induction s as [ | c r IH]; intros acc seen v; simpl; [auto | ].
  destruct (digit_of c); [apply IH | discriminate].
Qed.

Lemma digit_not_space c d : digit_of c = Some d -> isspace c = false.
Proof.
  unfold digit_of, isspace.
  set (n := Z.of_N (N_of_ascii c)).
  destruct ((48 <=? n) && (n <=? 57)) eqn:E; [ | discriminate].
  intros _. apply andb_true_iff in E as [E1 E2].
  apply Z.leb_le in E1, E2.
  apply orb_false_iff. split; [apply Z.eqb_neq; lia | ].
  apply andb_false_iff. right. apply Z.leb_gt. lia.
Qed.

Lemma numeric_skip_spaces s v : numeric_value s = Some v -> skip_spaces s = s.
Proof.
  unfold numeric_value. destruct s as [ | c r]; [reflexivity | ].
  simpl. destruct (Ascii.eqb_spec c "-") as [-> | Hm]; [reflexivity | ].
  destruct (Ascii.eqb_spec c "+") as [-> | Hp]; [reflexivity | ].
  simpl. destruct (digit_of c) as [d | ] eqn:Ed; [ | discriminate].
  intros _. rewrite (digit_not_space _ _ Ed). reflexivity.
Qed.

Lemma stoi_numeric s v :
  numeric_value s = Some v ->
  stoi s = if (Int.min_int <=? v) && (v <=? Int.max_int)
           then StoiOk v else StoiOutOfRange.
Proof.
  intros H. unfold stoi. rewrite (numeric_skip_spaces _ _ H).
  unfold numeric_value in H. destruct (split_sign s) as [neg body].
  destruct (digits_only body 0 false) as [w | ] eqn:E; [ | discriminate].
  injection H as <-. rewrite (digits_only_read_digits _ _ _ _ E). reflexivity.
Qed.

Lemma read_digits_no_digit s :
  match s with
  | String c _ => bool_decide (is_Some (digit_of c))
  | EmptyString => false
  end = false ->
  read_digits s 0 false = None.
Proof.
  destruct s as [ | c r]; simpl; [reflexivity | ].
  destruct (digit_of c); [ | reflexivity].
  intros H. apply bool_decide_eq_false in H. destruct H. eauto.
Qed.



Lemma run_exit_code inputs : forall st outs code st' outs',
  run inputs st outs = Exited code st' outs' -> code = 0.
Proof.
  induction inputs as [ | inp rest IH]; intros st outs code st' outs'; simpl.
  - destruct (running st); [discriminate | intros [= <-]; reflexivity].
  - destruct (running st); [ | intros [= <-]; reflexivity].
    destruct (iteration inp st) as [[st1 outs1] | f]; [apply IH | discriminate].
Qed.

Lemma run_stopped inputs st outs :
  running st = false -> run inputs st outs = Exited 0 st outs.
Proof. intros H. destruct inputs; simpl; rewrite H; reflexivity. Qed.

Lemma iteration_quit inp st :
  is_key (in_getch inp) "q" "Q" = true ->
  iteration inp st = Ok (set_running st false, []).
Proof.
  intros H. unfold iteration, handle_key.
  apply is_key_cases in H as [E | E]; rewrite E; reflexivity.
Qed.



Example refresh_interval_examples :
  parse_refresh_sec ["sysmon"]%string = 2 /\
  parse_refresh_sec ["sysmon"; "5"]%string = 5 /\
  parse_refresh_sec ["sysmon"; "0"]%string = 1 /\
  parse_refresh_sec ["sysmon"; "-3"]%string = 1 /\
  parse_refresh_sec ["sysmon"; "fast"]%string = 2 /\
  parse_refresh_sec ["sysmon"; ""]%string = 2.
Proof. repeat split. Qed.

(** * The readers of /proc, the process table and the loop *)

Lemma digit_of_digit_char d : 0 <= d <= 9 -> digit_of (digit_char d) = Some d.
Proof.
  intros H.
  assert (d = 0 \/ d = 1 \/ d = 2 \/ d = 3 \/ d = 4 \/ d = 5 \/ d = 6 \/ d = 7
          \/ d = 8 \/ d = 9) as E by lia.
  repeat destruct E as [-> | E]; try subst d; reflexivity.
Qed.

Lemma isspace_digit_char d : 0 <= d <= 9 -> isspace (digit_char d) = false.
Proof. intros H. apply (digit_not_space _ d), digit_of_digit_char, H. Qed.

Lemma string_app_cons c (a b : string) :
  (String c a ++ b)%string = String c (a ++ b)%string.
Proof. reflexivity. Qed.

Lemma string_app_nil_l (b : string) : (EmptyString ++ b)%string = b.
Proof. reflexivity. Qed.

Lemma string_app_assoc (a b c : string) : ((a ++ b) ++ c = a ++ (b ++ c))%string.
Proof.
  induction a as [ | x a IH]; [reflexivity | ].
  rewrite !string_app_cons, IH. reflexivity.
Qed.

Lemma string_app_nil_r (a : string) : (a ++ EmptyString)%string = a.
Proof.
  induction a as [ | x a IH]; [reflexivity | ].
  rewrite string_app_cons, IH. reflexivity.
Qed.

Lemma render_digits_app ds1 ds2 :
  render_digits (ds1 ++ ds2) = (render_digits ds1 ++ render_digits ds2)%string.
Proof.
  induction ds1 as [ | d r IH]; [reflexivity | ].
  simpl. rewrite string_app_cons, IH. reflexivity.
Qed.

(** The decimal printer writes the digits of its argument. *)
Lemma pretty_N_go_digits x : forall s,
  (0 < x)%N ->
  exists ds, ds <> [] /\ decimal_digits ds /\
             digits_value 0 ds = Z.of_N x /\
             pretty.pretty_N_go x s = (render_digits ds ++ s)%string.
Proof.
  induction (N.lt_wf_0 x) as [x _ IH]. intros s Hx.
  rewrite pretty.pretty_N_go_step by exact Hx.
  assert (Hd : 0 <= Z.of_N (x mod 10) <= 9).
  { pose proof (N.mod_lt x 10 ltac:(discriminate)) as H.
    apply N2Z.inj_lt in H. change (Z.of_N 10) with 10 in H.
    pose proof (N2Z.is_nonneg (x mod 10)) as H0.
    revert H H0. generalize (Z.of_N (x mod 10)). intros; lia. }
  assert (Hc : pretty.pretty_N_char (x mod 10) = digit_char (Z.of_N (x mod 10))).
  { unfold digit_char. rewrite N2Z.id. reflexivity. }
  destruct (N.eq_dec (x / 10)%N 0%N) as [E | E].
  - change (x `div` 10)%N with (x / 10)%N. rewrite E, pretty.pretty_N_go_0.
    exists [Z.of_N (x mod 10)]. split; [discriminate | ].
    split; [constructor; [exact Hd | constructor] | ].
    split; [ | simpl; rewrite Hc, string_app_cons; reflexivity].
    unfold digits_value. simpl.
    pose proof (N.div_mod x 10 ltac:(discriminate)) as Hdm. rewrite E in Hdm.
    rewrite N.mul_0_r, N.add_0_l in Hdm. rewrite <- Hdm. reflexivity.
  - destruct (IH (x / 10)%N) with (s := String (pretty.pretty_N_char (x mod 10)) s)
      as (ds & Hne & Hdec & Hval & Heq).
    + apply N.div_lt; [exact Hx | reflexivity].
    + destruct (x / 10)%N; [contradiction | reflexivity].
    + exists (ds ++ [Z.of_N (x mod 10)]). split; [destruct ds; discriminate | ].
      split; [apply Forall_app; split; [exact Hdec | constructor; [exact Hd | constructor]] | ].
      split.
      * unfold digits_value in *. rewrite foldl_app. simpl. rewrite Hval.
        rewrite N2Z.inj_div, N2Z.inj_mod. change (Z.of_N 10) with 10.
        pose proof (Z.div_mod (Z.of_N x) 10 ltac:(discriminate)) as Hdm.
        revert Hdm. generalize (Z.of_N x / 10) (Z.of_N x mod 10). intros; lia.
      * change (x `div` 10)%N with (x / 10)%N. rewrite Heq.
        rewrite render_digits_app, string_app_assoc. simpl.
        rewrite Hc, string_app_cons. reflexivity.
Qed.

Lemma to_string_digits x :
  0 <= x ->
  exists ds, ds <> [] /\ decimal_digits ds /\ digits_value 0 ds = x /\
             to_string x = render_digits ds.
Proof.
  intros Hx. destruct x as [ | p | p]; [ | | lia].
  - exists [0]. repeat split; [discriminate | constructor; [lia | constructor]].
  - unfold to_string, pretty.pretty, pretty.pretty_Z, pretty.pretty,
      pretty.pretty_positive, pretty.pretty, pretty.pretty_N.
    destruct (decide (N.pos p = 0%N)) as [E | _]; [discriminate | ].
    destruct (pretty_N_go_digits (N.pos p) "" ) as (ds & Hne & Hdec & Hval & Heq); [lia | ].
    exists ds. rewrite Heq, string_app_nil_r. repeat split; auto.
Qed.

Lemma to_string_neg p : to_string (Zneg p) = String "-" (to_string (Zpos p)).
Proof. reflexivity. Qed.

Lemma digits_value_shift acc ds :
  digits_value acc ds = acc * 10 ^ Z.of_nat (length ds) + digits_value 0 ds.
Proof.
  revert acc. induction ds as [ | d r IH]; intros acc.
  - simpl. unfold digits_value. simpl. lia.
  - unfold digits_value in *. simpl. rewrite (IH (acc * 10 + d)), (IH (0 * 10 + d)).
    rewrite Nat2Z.inj_succ, Z.pow_succ_r by lia. lia.
Qed.


Lemma take_digits_render ds : forall s acc n,
  decimal_digits ds ->
  take_digits (render_digits ds ++ s) acc n =
  take_digits s (digits_value acc ds) (n + length ds).
Proof.
  induction ds as [ | d r IH]; intros s acc n Hdec.
  - simpl. rewrite Nat.add_0_r. reflexivity.
  - apply Forall_cons in Hdec as [Hd Hr]. simpl. rewrite ?string_app_cons. simpl.
    rewrite (digit_of_digit_char _ Hd), (IH _ _ _ Hr).
    f_equal. lia.
Qed.

Lemma digits_only_render ds : forall acc seen,
  decimal_digits ds ->
  digits_only (render_digits ds) acc seen =
  if seen || negb (bool_decide (ds = [])) then Some (digits_value acc ds) else None.
Proof.
  induction ds as [ | d r IH]; intros acc seen Hdec.
  - simpl. rewrite orb_false_r. reflexivity.
  - apply Forall_cons in Hdec as [Hd Hr]. simpl.
    rewrite (digit_of_digit_char _ Hd), (IH _ _ Hr), orb_true_r. reflexivity.
Qed.

Lemma all_digits_render ds : decimal_digits ds -> all_digits (render_digits ds) = true.
Proof.
  induction 1 as [ | d r Hd _ IH]; simpl; [reflexivity | ].
  unfold isdigit. rewrite (digit_of_digit_char _ Hd). exact IH.
Qed.

Lemma render_nonempty ds : ds <> [] -> render_digits ds <> EmptyString.
Proof. destruct ds; [contradiction | discriminate]. Qed.

(** [to_string] then [numeric_value]: the number printed is the number
    read. *)
Lemma numeric_value_to_string z : numeric_value (to_string z) = Some z.
Proof.
  destruct z as [ | p | p].
  - reflexivity.
  - destruct (to_string_digits (Zpos p)) as (ds & Hne & Hdec & Hval & Heq); [lia | ].
    rewrite Heq. unfold numeric_value.
    destruct ds as [ | d r]; [contradiction | ].
    assert (Hd : 0 <= d <= 9) by (apply Forall_cons in Hdec as [? _]; assumption).
    assert (Hs : split_sign (render_digits (d :: r)) = (false, render_digits (d :: r))).
    { simpl. assert (Hc := digit_of_digit_char d Hd).
      destruct (Ascii.eqb_spec (digit_char d) "-") as [E | _];
        [rewrite E in Hc; discriminate | ].
      destruct (Ascii.eqb_spec (digit_char d) "+") as [E | _];
        [rewrite E in Hc; discriminate | reflexivity]. }
    rewrite Hs, (digits_only_render _ _ _ Hdec), Hval. reflexivity.
  - rewrite to_string_neg.
    destruct (to_string_digits (Zpos p)) as (ds & Hne & Hdec & Hval & Heq); [lia | ].
    rewrite Heq. unfold numeric_value.
    change (split_sign (String "-" (render_digits ds))) with (true, render_digits ds).
    cbv iota beta.
    rewrite (digits_only_render _ _ _ Hdec), Hval.
    destruct ds as [ | d r]; [contradiction | reflexivity].
Qed.

(** X1.  For every n in the range of int, the decimal text of n as
    std::to_string writes it is read back by stoi as n, and main started
    with that text as its first argument uses the refresh interval max(1,
    n), whatever arguments follow. *)
Theorem refresh_interval_round_trip prog n rest :
  Int.min_int <= n <= Int.max_int ->
  stoi (to_string n) = StoiOk n /\
  parse_refresh_sec (prog :: to_string n :: rest) = Z.max 1 n.
Proof.
  intros Hn.
  assert (Hs : stoi (to_string n) = StoiOk n).
  { rewrite (stoi_numeric _ _ (numeric_value_to_string n)).
    destruct (Z.leb_spec Int.min_int n); [ | lia].
    destruct (Z.leb_spec n Int.max_int); [reflexivity | lia]. }
  split; [exact Hs | ].
  unfold parse_refresh_sec. rewrite Hs. destruct (Z.ltb_spec n 1); lia.
Qed.

Lemma digit_of_inv c d : digit_of c = Some d -> 0 <= d <= 9 /\ c = digit_char d.
Proof.
  destruct c as [[] [] [] [] [] [] [] []]; cbv; intros H; try discriminate H;
    injection H as <-; split; try reflexivity; split; discriminate.
Qed.

Lemma all_digits_inv s :
  all_digits s = true -> exists ds, decimal_digits ds /\ s = render_digits ds.
Proof.
  induction s as [ | c r IH]; intros H.
  - exists []. split; [constructor | reflexivity].
  - simpl in H. apply andb_true_iff in H as [Hc Hr].
    destruct (IH Hr) as (ds & Hdec & ->).
    unfold isdigit in Hc. destruct (digit_of c) as [d | ] eqn:E; [ | discriminate].
    apply digit_of_inv in E as [Hd ->].
    exists (d :: ds). split; [constructor; assumption | reflexivity].
Qed.

Lemma digits_value_nonneg ds acc :
  decimal_digits ds -> 0 <= acc -> 0 <= digits_value acc ds.
Proof.
  intros Hdec. revert acc. induction Hdec as [ | d r Hd _ IH]; intros acc Hacc.
  - exact Hacc.
  - unfold digits_value in *. simpl. apply IH. lia.
Qed.

Lemma digit_char_no_sign d :
  0 <= d <= 9 -> split_sign (String (digit_char d) EmptyString) =
                 (false, String (digit_char d) EmptyString) /\
  forall r, split_sign (String (digit_char d) r) = (false, String (digit_char d) r).
Proof.
  intros Hd. assert (Hc := digit_of_digit_char d Hd).
  assert (forall r, split_sign (String (digit_char d) r) = (false, String (digit_char d) r)).
  { intros r. simpl.
    destruct (Ascii.eqb_spec (digit_char d) "-") as [E | _];
      [rewrite E in Hc; discriminate | ].
    destruct (Ascii.eqb_spec (digit_char d) "+") as [E | _];
      [rewrite E in Hc; discriminate | reflexivity]. }
  split; auto.
Qed.

(** A non-empty name made of digits is numeric, and not negative. *)
Lemma all_digits_numeric s :
  all_digits s = true -> s <> EmptyString ->
  exists v, 0 <= v /\ numeric_value s = Some v.
Proof.
  intros Hall Hne. destruct (all_digits_inv _ Hall) as (ds & Hdec & ->).
  destruct ds as [ | d r]; [contradiction | ].
  exists (digits_value 0 (d :: r)). split; [apply digits_value_nonneg; [exact Hdec | lia] | ].
  assert (Hd : 0 <= d <= 9) by (apply Forall_cons in Hdec as [? _]; assumption).
  unfold numeric_value.
  change (render_digits (d :: r)) with (String (digit_char d) (render_digits r)) at 1.
  rewrite (proj2 (digit_char_no_sign d Hd)).
  change (String (digit_char d) (render_digits r)) with (render_digits (d :: r)).
  rewrite (digits_only_render _ _ _ Hdec). reflexivity.
Qed.

Lemma string_eqb_empty s : String.eqb s EmptyString = false <-> s <> EmptyString.
Proof. destruct s; simpl; split; congruence. Qed.

(** The test of [list_pids] on an entry. *)
Lemma pid_entry_test e :
  d_is_dir e && negb (String.eqb (d_name e) EmptyString) && all_digits (d_name e) = true
  <-> exists v, pid_entry e v.
Proof.
  unfold pid_entry. split.
  - intros H. apply andb_true_iff in H as [H Hall]. apply andb_true_iff in H as [Hdir Hne].
    apply negb_true_iff, string_eqb_empty in Hne.
    destruct (all_digits_numeric _ Hall Hne) as (v & _ & Hv). exists v. auto.
  - intros (v & Hdir & Hall & Hv). rewrite Hdir, Hall.
    destruct (d_name e); [discriminate Hv | reflexivity].
Qed.

Lemma pid_entry_nonneg e v : pid_entry e v -> 0 <= v.
Proof.
  intros (_ & Hall & Hv).
  destruct (all_digits_numeric _ Hall) as (v' & Hv' & E);
    [intros E; rewrite E in Hv; discriminate | congruence].
Qed.

Lemma pid_entry_stoi e v :
  pid_entry e v -> stoi (d_name e) = if v <=? Int.max_int then StoiOk v else StoiOutOfRange.
Proof.
  intros H. pose proof (pid_entry_nonneg _ _ H) as Hv. destruct H as (_ & _ & H).
  rewrite (stoi_numeric _ _ H).
  destruct (Z.leb_spec Int.min_int v) as [ _ | Hlt]; [reflexivity | ].
  unfold Int.min_int in Hlt. lia.
Qed.

Lemma pids_of_members entries :
  (forall e v, e ∈ entries -> pid_entry e v -> v <= Int.max_int) ->
  exists ps, pids_of entries = Done ps /\
             forall v, v ∈ ps <-> exists e, e ∈ entries /\ pid_entry e v.
Proof.
  induction entries as [ | e rest IH]; intros Hsmall.
  - exists []. split; [reflexivity | ]. intros v. split.
    + intros H. inversion H.
    + intros (e & H & _). inversion H.
  - destruct IH as (ps & Hps & Hmem).
    { intros e' v He'. apply Hsmall. right. exact He'. }
    simpl.
    destruct (d_is_dir e && negb (String.eqb (d_name e) EmptyString)
              && all_digits (d_name e)) eqn:Htest.
    + apply pid_entry_test in Htest as (v & Hv).
      rewrite (pid_entry_stoi _ _ Hv).
      destruct (Z.leb_spec v Int.max_int) as [ _ | Hbig].
      * rewrite Hps. simpl. exists (v :: ps). split; [reflexivity | ].
        intros w. rewrite elem_of_cons, Hmem. split.
        -- intros [-> | (e' & He' & Hw)].
           ++ exists e. split; [left | exact Hv].
           ++ exists e'. split; [right; exact He' | exact Hw].
        -- intros (e' & He' & Hw). apply elem_of_cons in He' as [-> | He'].
           ++ left. destruct Hv as (_ & _ & Hv), Hw as (_ & _ & Hw). congruence.
           ++ right. exists e'. auto.
      * assert (He : e ∈ e :: rest) by left. specialize (Hsmall e v He Hv). lia.
    + exists ps. split; [exact Hps | ].
      intros w. rewrite Hmem. split.
      * intros (e' & He' & Hw). exists e'. split; [right; exact He' | exact Hw].
      * intros (e' & He' & Hw). apply elem_of_cons in He' as [-> | He'].
        -- assert (Ht : exists v, pid_entry e v) by (exists w; exact Hw).
           apply pid_entry_test in Ht. congruence.
        -- exists e'. auto.
Qed.

(** X2.  When no directory of /proc with a name made of digits denotes a
    number above INT_MAX, list_pids returns a vector that is sorted
    ascending, whose elements lie between 0 and INT_MAX, and that holds a
    value exactly when some entry is a directory whose non-empty, all-
    digit name denotes it. Entries that are not directories and names with
    any other character contribute nothing. *)
Theorem list_pids_sorted_members entries :
  (forall e v, e ∈ entries -> pid_entry e v -> v <= Int.max_int) ->
  exists ps, list_pids (Some entries) = Done ps /\
             Sorted Z.le ps /\
             (forall v, v ∈ ps <-> exists e, e ∈ entries /\ pid_entry e v) /\
             Forall (fun v => 0 <= v <= Int.max_int) ps.
Proof.
  intros Hsmall. destruct (pids_of_members entries Hsmall) as (ps & Hps & Hmem).
  exists (merge_sort Z.le ps). unfold list_pids. rewrite Hps. simpl.
  split; [reflexivity | ].
  split; [apply (Sorted_merge_sort Z.le) | ].
  assert (Hin : forall v, v ∈ merge_sort Z.le ps <-> v ∈ ps).
  { intros v. rewrite (merge_sort_Permutation Z.le ps). reflexivity. }
  split.
  - intros v. rewrite Hin. apply Hmem.
  - apply Forall_forall. intros v Hv. apply Hin, Hmem in Hv as (e & He & Hv).
    split; [exact (pid_entry_nonneg _ _ Hv) | exact (Hsmall e v He Hv)].
Qed.

Lemma pids_of_out_of_range entries e v :
  e ∈ entries -> pid_entry e v -> Int.max_int < v ->
  pids_of entries = Fails (Thrown OutOfRange).
Proof.
  intros He Hv Hbig. induction entries as [ | e0 rest IH]; [inversion He | ].
  simpl.
  destruct (d_is_dir e0 && negb (String.eqb (d_name e0) EmptyString)
            && all_digits (d_name e0)) eqn:Htest.
  - apply pid_entry_test in Htest as (v0 & Hv0).
    rewrite (pid_entry_stoi _ _ Hv0).
    destruct (Z.leb_spec v0 Int.max_int) as [Hle | _]; [ | reflexivity].
    apply elem_of_cons in He as [-> | He].
    + destruct Hv as (_ & _ & Hv), Hv0 as (_ & _ & Hv0). assert (v = v0) by congruence. lia.
    + rewrite (IH He). reflexivity.
  - apply elem_of_cons in He as [-> | He].
    + assert (Ht : exists v, pid_entry e0 v) by (exists v; exact Hv).
      apply pid_entry_test in Ht. congruence.
    + exact (IH He).
Qed.

(** X3.  When /proc holds a directory whose name is made of digits and
    denotes a number above INT_MAX, list_pids does not return: stoi throws
    std::out_of_range, whatever the other entries are. *)
Theorem list_pids_out_of_range entries e v :
  e ∈ entries -> pid_entry e v -> Int.max_int < v ->
  list_pids (Some entries) = Fails (Thrown OutOfRange).
Proof.
  intros He Hv Hbig. unfold list_pids.
  rewrite (pids_of_out_of_range entries e v He Hv Hbig). reflexivity.
Qed.

Lemma all_digits_to_string p : 0 <= p -> all_digits (to_string p) = true.
Proof.
  intros Hp. destruct (to_string_digits p Hp) as (ds & _ & Hdec & _ & ->).
  apply all_digits_render, Hdec.
Qed.

Lemma pid_dir_entry p : 0 <= p -> pid_entry (pid_dir p) p.
Proof.
  intros Hp. unfold pid_entry, pid_dir. simpl.
  split; [reflexivity | ]. split; [apply all_digits_to_string, Hp | ].
  apply numeric_value_to_string.
Qed.

Lemma pids_of_cons e rest :
  pids_of (e :: rest) =
  if d_is_dir e && negb (String.eqb (d_name e) EmptyString) && all_digits (d_name e)
  then match stoi (d_name e) with
       | StoiOk v => (ps <~ pids_of rest ;; Done (v :: ps))
       | StoiInvalidArgument => Fails (Thrown InvalidArgument)
       | StoiOutOfRange => Fails (Thrown OutOfRange)
       end
  else pids_of rest.
Proof. reflexivity. Qed.

(** X4.  For any pids between 0 and INT_MAX, a /proc whose entries are the
    directories named by the decimal texts of these pids makes list_pids
    return exactly these pids, sorted ascending. *)
Theorem list_pids_of_pid_dirs pids :
  Forall (fun p => 0 <= p <= Int.max_int) pids ->
  list_pids (Some (pid_dir <$> pids)) = Done (merge_sort Z.le pids).
Proof.
  intros H. unfold list_pids.
  assert (E : pids_of (pid_dir <$> pids) = Done pids).
  { induction H as [ | p rest [Hp Hmax] _ IH]; [reflexivity | ].
    rewrite fmap_cons, pids_of_cons.
    assert (Ht : exists v, pid_entry (pid_dir p) v) by (exists p; apply pid_dir_entry, Hp).
    apply pid_entry_test in Ht. rewrite Ht.
    rewrite (pid_entry_stoi _ _ (pid_dir_entry p Hp)).
    destruct (Z.leb_spec p Int.max_int); [ | lia].
    rewrite IH. reflexivity. }
  rewrite E. reflexivity.
Qed.

(** ** Strings *)

Lemma string_length_app (a b : string) :
  String.length (a ++ b)%string = (String.length a + String.length b)%nat.
Proof.
  induction a as [ | x a IH]; [reflexivity | ].
  rewrite string_app_cons. simpl. rewrite IH. reflexivity.
Qed.

Lemma sdrop_app (a b : string) n :
  sdrop (String.length a + n) (a ++ b)%string = sdrop n b.
Proof.
  induction a as [ | x a IH]; [reflexivity | ].
  rewrite string_app_cons. simpl. exact IH.
Qed.

Lemma stake_app (a b : string) : stake (String.length a) (a ++ b)%string = a.
Proof.
  induction a as [ | x a IH]; [destruct b; reflexivity | ].
  rewrite string_app_cons. simpl. rewrite IH. reflexivity.
Qed.

Lemma find_char_app c (a b : string) :
  lacks c a ->
  find_char c (a ++ b)%string =
  match find_char c b with Some i => Some (String.length a + i)%nat | None => None end.
Proof.
  unfold lacks. induction a as [ | x a IH]; intros H.
  - rewrite string_app_nil_l. destruct (find_char c b); reflexivity.
  - rewrite string_app_cons. simpl in *.
    destruct (Ascii.eqb x c); [discriminate | ].
    destruct (find_char c a); [discriminate | ].
    rewrite (IH eq_refl). destruct (find_char c b); reflexivity.
Qed.

Lemma find_char_here c (b : string) : find_char c (String c b) = Some 0%nat.
Proof. simpl. rewrite Ascii.eqb_refl. reflexivity. Qed.

Lemma rfind_char_lacks c s : lacks c s -> rfind_char c s = None.
Proof.
  unfold lacks. induction s as [ | x s IH]; [reflexivity | ]. simpl.
  destruct (Ascii.eqb x c); [discriminate | ].
  destruct (find_char c s); [discriminate | ].
  intros _. rewrite (IH eq_refl). reflexivity.
Qed.

Lemma rfind_char_last c (a b : string) :
  lacks c b -> rfind_char c (a ++ String c b)%string = Some (String.length a).
Proof.
  intros Hb. induction a as [ | x a IH].
  - rewrite string_app_nil_l. simpl. rewrite (rfind_char_lacks _ _ Hb), Ascii.eqb_refl.
    reflexivity.
  - rewrite string_app_cons. simpl. rewrite IH. reflexivity.
Qed.

Lemma lacks_cons c x (s : string) : lacks c (String x s) <-> x <> c /\ lacks c s.
Proof.
  unfold lacks. simpl. destruct (Ascii.eqb_spec x c) as [E | E].
  - split; [discriminate | intros [? _]; contradiction].
  - destruct (find_char c s); split; try discriminate; try tauto.
    intros [_ ?]; discriminate.
Qed.

Lemma lacks_app c (a b : string) : lacks c (a ++ b)%string <-> lacks c a /\ lacks c b.
Proof.
  induction a as [ | x a IH].
  - rewrite string_app_nil_l. unfold lacks at 2. simpl. tauto.
  - rewrite string_app_cons, !lacks_cons, IH. tauto.
Qed.

Lemma line_break_app (l rest : string) :
  lacks newline l -> line_break (l ++ String newline rest)%string = (l, rest).
Proof.
  induction l as [ | x l IH]; intros H.
  - reflexivity.
  - apply lacks_cons in H as [Hx Hl]. rewrite string_app_cons. simpl.
    destruct (Ascii.eqb_spec x "010") as [E | _]; [contradiction | ].
    rewrite (IH Hl). reflexivity.
Qed.

Lemma line_break_single (l : string) :
  lacks newline l -> line_break l = (l, EmptyString).
Proof.
  induction l as [ | x l IH]; intros H.
  - reflexivity.
  - apply lacks_cons in H as [Hx Hl]. simpl.
    destruct (Ascii.eqb_spec x "010") as [E | _]; [contradiction | ].
    rewrite (IH Hl). reflexivity.
Qed.

Lemma first_line_app (l rest : string) :
  lacks newline l -> first_line (l ++ String newline rest)%string = l.
Proof. intros H. unfold first_line. rewrite (line_break_app _ _ H). reflexivity. Qed.

Lemma first_line_single (l : string) : lacks newline l -> first_line l = l.
Proof. intros H. unfold first_line. rewrite (line_break_single _ H). reflexivity. Qed.

(** ** Words and tokens *)

Lemma tokens_space c (s : string) : isspace c = true -> tokens (String c s) = tokens s.
Proof. intros H. simpl. rewrite H. reflexivity. Qed.

Lemma tokens_word (t rest : string) :
  word t -> at_break rest -> tokens (t ++ rest)%string = t :: tokens rest.
Proof.
  intros [Hne Hns] Hrest. induction t as [ | c t IH]; [contradiction | ].
  simpl in Hns. apply andb_true_iff in Hns as [Hc Ht]. apply negb_true_iff in Hc.
  rewrite string_app_cons.
  destruct t as [ | c2 t2].
  - rewrite string_app_nil_l. simpl. rewrite Hc.
    destruct rest as [ | c' r']; [reflexivity | ].
    simpl in Hrest. rewrite Hrest. reflexivity.
  - assert (IH' := IH ltac:(discriminate) Ht).
    rewrite string_app_cons in *.
    change (tokens (String c (String c2 (t2 ++ rest)%string)))
      with (if isspace c then tokens (String c2 (t2 ++ rest)%string)
            else if isspace c2
                 then String c EmptyString :: tokens (String c2 (t2 ++ rest)%string)
                 else match tokens (String c2 (t2 ++ rest)%string) with
                      | t :: ts => String c t :: ts
                      | [] => [String c EmptyString]
                      end).
    rewrite Hc. simpl in Ht. apply andb_true_iff in Ht as [Hc2 _].
    apply negb_true_iff in Hc2. rewrite Hc2, IH'. reflexivity.
Qed.

Lemma at_break_join ts : at_break (join_fields ts).
Proof. destruct ts; simpl; reflexivity. Qed.

Lemma tokens_join_fields ts : Forall word ts -> tokens (join_fields ts) = ts.
Proof.
  induction 1 as [ | t r Ht _ IH]; [reflexivity | ].
  simpl join_fields. rewrite tokens_space by reflexivity.
  rewrite (tokens_word _ _ Ht (at_break_join r)), IH. reflexivity.
Qed.

Lemma lacks_join c ts :
  c <> " "%char -> Forall (lacks c) ts -> lacks c (join_fields ts).
Proof.
  intros Hc. induction 1 as [ | t r Ht _ IH]; [reflexivity | ].
  simpl. apply lacks_cons. split; [congruence | ].
  apply lacks_app. split; assumption.
Qed.

(** ** Numbers in text *)

Lemma digits_only_nonneg s : forall acc seen v,
  0 <= acc -> digits_only s acc seen = Some v -> 0 <= v.
Proof.
  induction s as [ | c r IH]; intros acc seen v Hacc; simpl.
  - destruct seen; [intros [= <-]; exact Hacc | discriminate].
  - destruct (digit_of c) as [d | ] eqn:E; [ | discriminate].
    apply digit_of_inv in E as [Hd _]. apply IH. lia.
Qed.

Lemma stoull_numeric s v :
  numeric_value s = Some v ->
  stoull s = if U64.modulus <=? Z.abs v then Fails (Thrown OutOfRange)
             else Done (U64.wrap64 v).
Proof.
  intros H. unfold stoull. rewrite (numeric_skip_spaces _ _ H).
  unfold numeric_value in H. destruct (split_sign s) as [neg body].
  destruct (digits_only body 0 false) as [w | ] eqn:E; [ | discriminate].
  injection H as <-. rewrite (digits_only_read_digits _ _ _ _ E).
  pose proof (digits_only_nonneg _ _ _ _ (Z.le_refl 0) E) as Hw.
  destruct neg.
  - rewrite Z.abs_opp, (Z.abs_eq w Hw). reflexivity.
  - rewrite (Z.abs_eq w Hw).
    destruct (Z.leb_spec U64.modulus w); [reflexivity | ].
    rewrite wrap64_small by (split; assumption). reflexivity.
Qed.

Lemma stol_numeric s v :
  numeric_value s = Some v ->
  stol s = if (- 2 ^ 63 <=? v) && (v <=? 2 ^ 63 - 1) then Done v
           else Fails (Thrown OutOfRange).
Proof.
  intros H. unfold stol. rewrite (numeric_skip_spaces _ _ H).
  unfold numeric_value in H. destruct (split_sign s) as [neg body].
  destruct (digits_only body 0 false) as [w | ] eqn:E; [ | discriminate].
  injection H as <-. rewrite (digits_only_read_digits _ _ _ _ E). reflexivity.
Qed.

Lemma parse_ull_to_string v : 0 <= v < U64.modulus -> parse_ull (to_string v) = v.
Proof.
  intros Hv. unfold parse_ull.
  rewrite (stoull_numeric _ _ (numeric_value_to_string v)), Z.abs_eq by lia.
  destruct (Z.leb_spec U64.modulus v); [lia | ].
  apply wrap64_small. exact Hv.
Qed.

Lemma stol_to_string v : - 2 ^ 63 <= v <= 2 ^ 63 - 1 -> stol (to_string v) = Done v.
Proof.
  intros Hv. rewrite (stol_numeric _ _ (numeric_value_to_string v)).
  destruct (Z.leb_spec (- 2 ^ 63) v); [ | lia].
  destruct (Z.leb_spec v (2 ^ 63 - 1)); [reflexivity | lia].
Qed.

(** ** The printed numbers as words *)

Lemma no_space_render ds : decimal_digits ds -> no_space (render_digits ds) = true.
Proof.
  induction 1 as [ | d r Hd _ IH]; [reflexivity | ].
  simpl. rewrite (isspace_digit_char _ Hd), IH. reflexivity.
Qed.

Lemma lacks_render c ds :
  digit_of c = None -> decimal_digits ds -> lacks c (render_digits ds).
Proof.
  intros Hc. induction 1 as [ | d r Hd _ IH]; [reflexivity | ].
  simpl. apply lacks_cons. split; [ | exact IH].
  intros E. rewrite <- E, (digit_of_digit_char _ Hd) in Hc. discriminate.
Qed.

Lemma to_string_cases v :
  exists ds, ds <> [] /\ decimal_digits ds /\ digits_value 0 ds = Z.abs v /\
             to_string v = if v <? 0 then String "-" (render_digits ds)
                           else render_digits ds.
Proof.
  destruct v as [ | p | p].
  - destruct (to_string_digits 0 ltac:(lia)) as (ds & ? & ? & ? & ?). exists ds. auto.
  - destruct (to_string_digits (Zpos p) ltac:(lia)) as (ds & ? & ? & ? & ?).
    exists ds. auto.
  - destruct (to_string_digits (Zpos p) ltac:(lia)) as (ds & ? & ? & ? & E).
    exists ds. rewrite to_string_neg, E. auto.
Qed.

Lemma word_to_string v : word (to_string v).
Proof.
  destruct (to_string_cases v) as (ds & Hne & Hdec & _ & ->).
  destruct (v <? 0).
  - split; [discriminate | ]. simpl. apply no_space_render, Hdec.
  - split; [apply render_nonempty, Hne | apply no_space_render, Hdec].
Qed.

Lemma lacks_to_string c v :
  digit_of c = None -> c <> "-"%char -> lacks c (to_string v).
Proof.
  intros Hc Hm. destruct (to_string_cases v) as (ds & Hne & Hdec & _ & ->).
  destruct (v <? 0).
  - apply lacks_cons. split; [congruence | apply lacks_render; assumption].
  - apply lacks_render; assumption.
Qed.

Lemma no_space_lacks c t : isspace c = true -> no_space t = true -> lacks c t.
Proof.
  intros Hc. induction t as [ | x t IH]; [reflexivity | ].
  simpl. intros H. apply andb_true_iff in H as [Hx Ht]. apply negb_true_iff in Hx.
  apply lacks_cons. split; [congruence | exact (IH Ht)].
Qed.

(** ** [read_proc_times] *)

Lemma stat_line_length pre comm post :
  String.length (stat_line pre comm post) =
  (String.length pre + 1 + String.length comm + 1 + String.length post)%nat.
Proof.
  unfold stat_line. rewrite string_length_app. simpl.
  rewrite string_length_app. simpl. lia.
Qed.

Lemma stat_line_find pre comm post :
  lacks "(" pre -> find_char "(" (stat_line pre comm post) = Some (String.length pre).
Proof.
  intros H. unfold stat_line. rewrite (find_char_app _ _ _ H), find_char_here.
  f_equal. lia.
Qed.

Lemma stat_line_assoc pre comm post :
  stat_line pre comm post = ((pre ++ String "(" comm) ++ String ")" post)%string.
Proof. unfold stat_line. rewrite string_app_assoc, string_app_cons. reflexivity. Qed.

Lemma stat_line_rfind pre comm post :
  lacks ")" post ->
  rfind_char ")" (stat_line pre comm post) =
  Some (String.length pre + 1 + String.length comm)%nat.
Proof.
  intros H. rewrite stat_line_assoc, (rfind_char_last _ _ _ H), string_length_app.
  simpl. f_equal. lia.
Qed.

Lemma stat_line_comm pre comm post :
  substr (stat_line pre comm post) (String.length pre + 1) (String.length comm) =
  Done comm.
Proof.
  unfold substr. rewrite stat_line_length.
  destruct (Nat.leb_spec (String.length pre + 1)
              (String.length pre + 1 + String.length comm + 1 + String.length post));
    [ | lia].
  unfold stat_line. rewrite sdrop_app. simpl. rewrite stake_app. reflexivity.
Qed.

Lemma stat_line_after pre comm post :
  substr_from (stat_line pre comm post) (String.length pre + 1 + String.length comm + 2) =
  match post with
  | EmptyString => Fails (Thrown OutOfRange)
  | String _ after => Done after
  end.
Proof.
  unfold substr_from. rewrite stat_line_length.
  destruct post as [ | c after].
  - simpl String.length.
    destruct (Nat.leb_spec (String.length pre + 1 + String.length comm + 2)
                (String.length pre + 1 + String.length comm + 1 + 0)); [lia | reflexivity].
  - simpl String.length.
    destruct (Nat.leb_spec (String.length pre + 1 + String.length comm + 2)
                (String.length pre + 1 + String.length comm + 1 + S (String.length after)));
      [ | lia].
    rewrite stat_line_assoc.
    replace (String.length pre + 1 + String.length comm + 2)%nat
      with (String.length (pre ++ String "(" comm)%string + 2)%nat
      by (rewrite string_length_app; simpl; lia).
    rewrite sdrop_app. reflexivity.
Qed.

Lemma stat_line_lacks c pre comm post :
  c <> "("%char -> c <> ")"%char ->
  lacks c pre -> lacks c comm -> lacks c post -> lacks c (stat_line pre comm post).
Proof.
  intros H1 H2 Hpre Hcomm Hpost. unfold stat_line.
  apply lacks_app. split; [exact Hpre | ].
  apply lacks_cons. split; [congruence | ].
  apply lacks_app. split; [exact Hcomm | ].
  apply lacks_cons. split; [congruence | exact Hpost].
Qed.

(** What [read_proc_times] does with a first line that has an opening
    parenthesis before its last closing one. *)
Lemma read_proc_times_stat_line pre comm post more status page_size :
  lacks "(" pre -> lacks ")" post ->
  lacks newline pre -> lacks newline comm -> lacks newline post ->
  read_proc_times (Some (with_line (stat_line pre comm post) more)) status page_size =
  match post with
  | EmptyString => Fails (Thrown OutOfRange)
  | String _ after =>
      let toks := tokens after in
      if (length toks <? 22)%nat then Done None
      else
        rss_kb <~ rss_kb_of (token_at toks 21) page_size ;;
        uid <~ read_uid status ;;
        Done (Some (mkProcRead
                      (mkProcTimes (parse_ull (token_at toks 13))
                                   (parse_ull (token_at toks 14)))
                      rss_kb comm uid))
  end.
Proof.
  intros Hpre Hpost N1 N2 N3. unfold read_proc_times, with_line.
  rewrite first_line_app
    by (apply stat_line_lacks; [discriminate | discriminate | assumption ..]).
  rewrite (stat_line_find _ _ _ Hpre), (stat_line_rfind _ _ _ Hpost).
  destruct (Nat.leb_spec (String.length pre + 1 + String.length comm) (String.length pre));
    [lia | ].
  replace (String.length pre + 1 + String.length comm - String.length pre - 1)%nat
    with (String.length comm) by lia.
  rewrite stat_line_comm. simpl and_then. rewrite stat_line_after.
  destruct post; reflexivity.
Qed.

Lemma and_then_Done {A B} (m : Run A) (k : A -> Run B) b :
  and_then m k = Done b -> exists a, m = Done a /\ k a = Done b.
Proof. destruct m as [a | x]; simpl; [eauto | discriminate]. Qed.

(** X5.  Let the first line of the stat file be pre ( comm ) post with no
    opening parenthesis in pre and no closing one in post. If
    read_proc_times returns true, the command name it hands back is
    exactly comm, spaces and parentheses inside it included; at least 22
    white-space separated tokens follow the character after the closing
    parenthesis; utime and stime are parse_ull of tokens 13 and 14
    (counted from 0), the resident size is computed from token 21, and the
    uid is the one read from the status file. *)
Theorem read_proc_times_comm pre comm post more status page_size r :
  lacks "(" pre -> lacks ")" post ->
  lacks newline pre -> lacks newline comm -> lacks newline post ->
  read_proc_times (Some (with_line (stat_line pre comm post) more)) status page_size
  = Done (Some r) ->
  let toks := tokens (sdrop 1 post) in
  rd_comm r = comm /\
  (22 <= length toks)%nat /\
  utime (rd_times r) = parse_ull (token_at toks 13) /\
  stime (rd_times r) = parse_ull (token_at toks 14) /\
  rss_kb_of (token_at toks 21) page_size = Done (rd_rss_kb r) /\
  read_uid status = Done (rd_uid r).
Proof.
  intros Hpre Hpost N1 N2 N3.
  rewrite (read_proc_times_stat_line _ _ _ _ _ _ Hpre Hpost N1 N2 N3).
  destruct post as [ | c after]; [discriminate | ].
  change (sdrop 1 (String c after)) with after. cbv zeta.
  destruct (Nat.ltb_spec (length (tokens after)) 22) as [Hlt | Hge]; [discriminate | ].
  intros H.
  apply and_then_Done in H as (rss & Hrss & H).
  apply and_then_Done in H as (uid & Huid & H).
  injection H as <-. simpl.
  split; [reflexivity | ]. split; [exact Hge | ].
  split; [reflexivity | ]. split; [reflexivity | ].
  split; assumption.
Qed.

(** X6.  With a first line pre ( comm ) post as before, post not empty:
    when fewer than 22 tokens follow the first character of post,
    read_proc_times returns false and throws nothing, whatever the status
    file holds. *)
Theorem read_proc_times_short pre comm c after more status page_size :
  lacks "(" pre -> lacks ")" (String c after) ->
  lacks newline pre -> lacks newline comm -> lacks newline (String c after) ->
  (length (tokens after) < 22)%nat ->
  read_proc_times (Some (with_line (stat_line pre comm (String c after)) more))
    status page_size = Done None.
Proof.
  intros Hpre Hpost N1 N2 N3 Hlt.
  rewrite (read_proc_times_stat_line _ _ _ _ _ _ Hpre Hpost N1 N2 N3). cbv zeta.
  destruct (Nat.ltb_spec (length (tokens after)) 22); [reflexivity | lia].
Qed.

(** X7.  When the first line of the stat file ends with the closing
    parenthesis of the command name (nothing follows it), read_proc_times
    does not return: content.substr(p2+2) throws std::out_of_range. *)
Theorem read_proc_times_line_ends_at_paren pre comm more status page_size :
  lacks "(" pre -> lacks newline pre -> lacks newline comm ->
  read_proc_times (Some (with_line (stat_line pre comm EmptyString) more))
    status page_size = Fails (Thrown OutOfRange).
Proof.
  intros Hpre N1 N2.
  rewrite (read_proc_times_stat_line pre comm EmptyString more status page_size)
    by (assumption || reflexivity).
  reflexivity.
Qed.

Lemma nth_map_to_string i nums :
  (i < length nums)%nat ->
  nth i (map to_string nums) EmptyString = to_string (nth i nums 0).
Proof.
  intros H. rewrite (nth_indep _ EmptyString (to_string 0)) by (rewrite length_map; lia).
  apply map_nth.
Qed.

Lemma Forall_map_to_string (P : string -> Prop) nums :
  (forall v, P (to_string v)) -> Forall P (map to_string nums).
Proof. intros H. induction nums; constructor; auto. Qed.

Lemma rss_kb_of_to_string rss page_size :
  0 <= page_size -> - 2 ^ 63 <= rss <= 2 ^ 63 - 1 ->
  rss * (page_size / 1024) <= 2 ^ 63 - 1 ->
  rss_kb_of (to_string rss) page_size = Done (Z.max 0 rss * (page_size / 1024)).
Proof.
  intros Hps Hrss Hprod. unfold rss_kb_of.
  rewrite (stol_to_string _ Hrss), Z.quot_div_nonneg by lia.
  assert (0 <= page_size / 1024) by (apply Z.div_pos; lia).
  destruct (Z.ltb_spec 0 rss) as [Hpos | Hneg].
  - unfold long_checked.
    destruct (Z.leb_spec (- 2 ^ 63) (rss * (page_size / 1024))); [ | nia].
    destruct (Z.leb_spec (rss * (page_size / 1024)) (2 ^ 63 - 1)); [ | lia].
    simpl. rewrite wrap64_small, Z.max_r by (unfold U64.in_range, U64.modulus; nia).
    reflexivity.
  - rewrite Z.max_l by lia. reflexivity.
Qed.

(** X8.  For a stat line in the kernel's layout (the pid, a blank, the
    command name in parentheses, then the state and at least 21 decimal
    numbers, each after one blank) read_proc_times returns true with the
    command name, utime = the 13th number after the state, stime = the
    14th and rss_kb = max(0, the 21st) times page_size / 1024, and the uid
    of the status file, provided the two times are below 2^64, the 21st
    number fits a long, the product does too and the status file yields a
    uid. Counting the pid as field 1, these are the fields 16, 17 and 24
    of the line. *)
Theorem read_proc_times_kernel_line pid comm state nums more status page_size uid :
  lacks newline comm ->
  word state -> lacks ")" state ->
  (21 <= length nums)%nat ->
  0 <= nth 12 nums 0 < U64.modulus ->
  0 <= nth 13 nums 0 < U64.modulus ->
  - 2 ^ 63 <= nth 20 nums 0 <= 2 ^ 63 - 1 ->
  0 <= page_size ->
  nth 20 nums 0 * (page_size / 1024) <= 2 ^ 63 - 1 ->
  read_uid status = Done uid ->
  read_proc_times
    (Some (with_line
             (stat_line (to_string pid ++ " ") comm
                        (join_fields (state :: map to_string nums)))
             more))
    status page_size
  = Done (Some (mkProcRead (mkProcTimes (nth 12 nums 0) (nth 13 nums 0))
                           (Z.max 0 (nth 20 nums 0) * (page_size / 1024))
                           comm uid)).
Proof.
  intros Ncomm Hstate Pstate Hlen Hu Hs Hrss Hps Hprod Huid.
  assert (Hwords : Forall word (state :: map to_string nums)).
  { constructor; [exact Hstate | ]. apply Forall_map_to_string, word_to_string. }
  assert (Hparen : Forall (lacks ")") (state :: map to_string nums)).
  { constructor; [exact Pstate | ].
    apply Forall_map_to_string. intros v. apply lacks_to_string; [reflexivity | discriminate]. }
  assert (Hnl : Forall (lacks newline) (state :: map to_string nums)).
  { eapply Forall_impl; [exact Hwords | ].
    intros t [_ Ht]. apply no_space_lacks; [reflexivity | exact Ht]. }
  rewrite read_proc_times_stat_line.
  - simpl join_fields. cbv beta iota zeta.
    rewrite (tokens_word state _ Hstate (at_break_join _)).
    rewrite (tokens_join_fields _ (Forall_inv_tail Hwords)).
    simpl length. rewrite length_map.
    destruct (Nat.ltb_spec (S (length nums)) 22); [lia | ].
    unfold token_at. simpl nth.
    rewrite !nth_map_to_string by lia.
    rewrite (parse_ull_to_string _ Hu), (parse_ull_to_string _ Hs).
    rewrite (rss_kb_of_to_string _ _ Hps Hrss Hprod), Huid. reflexivity.
  - apply lacks_app. split; [ | reflexivity].
    apply lacks_to_string; [reflexivity | discriminate].
  - apply lacks_join; [discriminate | exact Hparen].
  - apply lacks_app. split; [ | reflexivity].
    apply lacks_to_string; [reflexivity | discriminate].
  - exact Ncomm.
  - apply lacks_join; [discriminate | exact Hnl].
Qed.

(** ** Stream extraction *)

Lemma skip_spaces_app ws s :
  all_space ws -> skip_spaces (ws ++ s)%string = skip_spaces s.
Proof.
  unfold all_space. induction ws as [ | c ws IH]; intros H; [reflexivity | ].
  rewrite string_app_cons. simpl in *.
  destruct (isspace c); [exact (IH H) | discriminate].
Qed.

Lemma skip_spaces_word t s :
  word t -> skip_spaces (t ++ s)%string = (t ++ s)%string.
Proof.
  intros [Hne Hns]. destruct t as [ | c t]; [contradiction | ].
  simpl in Hns. apply andb_true_iff in Hns as [Hc _]. apply negb_true_iff in Hc.
  rewrite string_app_cons. simpl. rewrite Hc. reflexivity.
Qed.

Lemma take_token_word t rest :
  no_space t = true -> at_break rest -> take_token (t ++ rest)%string = (t, rest).
Proof.
  intros Hns Hrest. induction t as [ | c t IH].
  - rewrite string_app_nil_l. destruct rest as [ | c r]; [reflexivity | ].
    simpl in *. rewrite Hrest. reflexivity.
  - simpl in Hns. apply andb_true_iff in Hns as [Hc Ht]. apply negb_true_iff in Hc.
    rewrite string_app_cons. simpl. rewrite Hc, (IH Ht). reflexivity.
Qed.

Lemma extract_token_word ws t rest :
  all_space ws -> word t -> at_break rest ->
  extract_token (ws ++ t ++ rest)%string = Some (t, rest).
Proof.
  intros Hws Ht Hrest. unfold extract_token.
  rewrite (skip_spaces_app _ _ Hws), (skip_spaces_word _ _ Ht).
  destruct Ht as [Hne Hns]. destruct t as [ | c t]; [contradiction | ].
  rewrite string_app_cons. cbv iota.
  rewrite <- string_app_cons, (take_token_word _ _ Hns Hrest). reflexivity.
Qed.

Lemma extract_token_none ws : all_space ws -> extract_token ws = None.
Proof. unfold all_space, extract_token. intros ->. reflexivity. Qed.

Lemma at_break_no_digit rest acc n :
  at_break rest -> take_digits rest acc n = (acc, n, rest).
Proof.
  destruct rest as [ | c r]; [reflexivity | ]. simpl. intros H.
  destruct (digit_of c) as [d | ] eqn:E; [ | reflexivity].
  rewrite (digit_not_space _ _ E) in H. discriminate.
Qed.

Lemma extract_u64_number ws v rest :
  all_space ws -> 0 <= v < U64.modulus -> at_break rest ->
  extract_u64 (ws ++ to_string v ++ rest)%string = ExtValue v rest.
Proof.
  intros Hws Hv Hrest. unfold extract_u64.
  rewrite (skip_spaces_app _ _ Hws), (skip_spaces_word _ _ (word_to_string v)).
  destruct (to_string_digits v (proj1 Hv)) as (ds & Hne & Hdec & Hval & ->).
  destruct ds as [ | d r]; [contradiction | ].
  assert (Hd : 0 <= d <= 9) by (apply Forall_cons in Hdec as [? _]; assumption).
  change (render_digits (d :: r)) with (String (digit_char d) (render_digits r)).
  rewrite string_app_cons. cbv iota.
  rewrite (proj2 (digit_char_no_sign d Hd)), <- string_app_cons.
  change (String (digit_char d) (render_digits r)) with (render_digits (d :: r)).
  rewrite (take_digits_render _ _ _ _ Hdec), (at_break_no_digit _ _ _ Hrest), Hval.
  simpl Nat.eqb.
  destruct (Z.leb_spec U64.modulus v); [lia | reflexivity].
Qed.

Lemma all_space_blanks n : all_space (blanks n).
Proof. unfold all_space. induction n; simpl; [reflexivity | exact IHn]. Qed.

Lemma lacks_blanks c n : c <> " "%char -> lacks c (blanks n).
Proof.
  intros Hc. induction n; simpl; apply lacks_cons; (split; [congruence | ]).
  - reflexivity.
  - exact IHn.
Qed.

Lemma at_break_blanks n s : at_break (blanks n ++ s)%string.
Proof. destruct n; reflexivity. Qed.

(** ** The refresh interval, by the text of the argument *)









Example refresh_interval_of_text :
  stoi_shape "  +12abc" "  " "+" [1; 2] "abc" /\
  parse_refresh_sec ["sysmon"; "  +12abc"]%string = 12 /\
  stoi_shape " 7" " " EmptyString [7] EmptyString /\
  parse_refresh_sec ["sysmon"; " 7"]%string = 7 /\
  stoi_shape "-3 s" EmptyString "-" [3] " s" /\
  parse_refresh_sec ["sysmon"; "-3 s"]%string = 1 /\
  leading_digit "+ 5" = false /\
  parse_refresh_sec ["sysmon"; "+ 5"]%string = 2.
Proof.
  assert (D : forall ds, Forall (fun d => 0 <= d <= 9) ds -> decimal_digits ds)
    by (intros ds H; exact H).
  repeat split; try reflexivity; try discriminate; auto;
    try (apply D; repeat constructor; lia).
Qed.

(** ** [read_total_cpu] *)

Lemma at_break_number_fields vs : at_break (number_fields vs).
Proof. destruct vs as [ | [n v] r]; [exact I | apply at_break_blanks]. Qed.

Lemma lacks_number_fields c vs :
  digit_of c = None -> c <> "-"%char -> c <> " "%char -> lacks c (number_fields vs).
Proof.
  intros H1 H2 H3. induction vs as [ | [n v] r IH]; [reflexivity | ].
  simpl. apply lacks_app. split; [apply lacks_blanks, H3 | ].
  apply lacks_app. split; [apply lacks_to_string; assumption | exact IH].
Qed.

Lemma number_fields_length vs : (length vs <= String.length (number_fields vs))%nat.
Proof.
  induction vs as [ | [n v] r IH]; [simpl; lia | ].
  simpl. rewrite string_length_app.
  assert (1 <= String.length (blanks n))%nat by (destruct n; simpl; lia).
  rewrite string_length_app. lia.
Qed.

Lemma extract_all_number_fields vs : forall fuel,
  Forall (fun nv => 0 <= nv.2 < U64.modulus) vs ->
  (length vs < fuel)%nat ->
  extract_all fuel (number_fields vs) = map snd vs.
Proof.
  induction vs as [ | [n v] r IH]; intros fuel Hvs Hfuel.
  - destruct fuel; reflexivity.
  - destruct fuel as [ | fuel]; [simpl in Hfuel; lia | ].
    apply Forall_cons in Hvs as [Hv Hr]. simpl in Hv.
    simpl extract_all. simpl number_fields.
    rewrite (extract_u64_number _ _ _ (all_space_blanks n) Hv (at_break_number_fields r)).
    rewrite (IH fuel Hr) by (simpl in Hfuel; lia). reflexivity.
Qed.

(** X9.  When the first line of /proc/stat is the word cpu followed by
    decimal counters below 2^64, each after one or more blanks,
    read_total_cpu replaces the fields by exactly these counters in their
    order, whatever the vector held and whatever lines follow, and returns
    true exactly when there is at least one counter. *)
Theorem read_total_cpu_line vs more old :
  Forall (fun nv => 0 <= nv.2 < U64.modulus) vs ->
  read_total_cpu (Some (with_line (cpu_line vs) more)) old =
  (negb (bool_decide (map snd vs = [])), map snd vs).
Proof.
  intros Hvs. unfold read_total_cpu, with_line.
  assert (Hnl : lacks newline (cpu_line vs)).
  { unfold cpu_line. repeat (apply lacks_cons; split; [discriminate | ]).
    apply lacks_number_fields; [reflexivity | discriminate | discriminate]. }
  rewrite (first_line_app _ _ Hnl).
  assert (Htok : extract_token (cpu_line vs) = Some ("cpu"%string, number_fields vs)).
  { apply (extract_token_word EmptyString "cpu" (number_fields vs)).
    - reflexivity.
    - split; [discriminate | reflexivity].
    - apply at_break_number_fields. }
  rewrite Htok. simpl String.eqb. cbv iota.
  rewrite (extract_all_number_fields vs _ Hvs)
    by (pose proof (number_fields_length vs); lia).
  reflexivity.
Qed.

(** X10.  Whatever /proc/stat holds: when read_total_cpu returns true the
    fields are a non-empty vector of values below 2^64; when it returns
    false the fields are either what they were before the call or empty. *)
Theorem read_total_cpu_flag file old :
  let '(ok, fields) := read_total_cpu file old in
  (ok = true -> fields <> [] /\ Forall U64.in_range fields) /\
  (ok = false -> fields = old \/ fields = []).
Proof.
  assert (Hrange : forall fuel s, Forall U64.in_range (extract_all fuel s)).
  { induction fuel as [ | fuel IH]; intros s; [constructor | ].
    simpl. unfold extract_u64.
    destruct (skip_spaces s) as [ | c r]; [constructor | ].
    destruct (split_sign (String c r)) as [neg body].
    destruct (take_digits body 0 0) as [[v n] rest] eqn:E.
    destruct (n =? 0)%nat; [constructor | ].
    destruct (Z.leb_spec U64.modulus v); [constructor | ].
    constructor; [ | apply IH].
    destruct neg; [apply wrap64_range | ].
    split; [ | assumption].
    assert (Hnn : forall s acc n v' n' rest',
               0 <= acc -> take_digits s acc n = (v', n', rest') -> 0 <= v').
    { clear. induction s as [ | c r IHs]; intros acc n v' n' rest' Hacc; simpl.
      - intros [= <- _ _]. exact Hacc.
      - destruct (digit_of c) as [d | ] eqn:Ed.
        + apply digit_of_inv in Ed as [Hd _]. apply IHs. lia.
        + intros [= <- _ _]. exact Hacc. }
    exact (Hnn _ _ _ _ _ _ (Z.le_refl 0) E). }
  unfold read_total_cpu. destruct file as [s | ].
  - destruct (extract_token (first_line s)) as [[cpu rest] | ].
    + destruct (String.eqb cpu "cpu").
      * destruct (extract_all _ rest) as [ | v fs] eqn:E.
        -- simpl. split; [discriminate | auto].
        -- simpl. split; [ | discriminate].
           intros _. split; [discriminate | ]. rewrite <- E. apply Hrange.
      * split; [discriminate | auto].
    + split; [discriminate | auto].
  - split; [discriminate | auto].
Qed.

(** ** [read_meminfo] *)

Lemma meminfo_loop_no_entry fuel tail m : no_entry tail -> meminfo_loop fuel tail m = m.
Proof.
  unfold no_entry. intros H. destruct fuel as [ | fuel]; [reflexivity | ].
  simpl. destruct (extract_token tail) as [[key s1] | ]; [ | reflexivity].
  destruct (extract_u64 s1) as [v s2 | | | ]; try reflexivity.
  rewrite H. reflexivity.
Qed.

Lemma at_break_blank ws s : blank ws -> at_break (ws ++ s)%string.
Proof.
  intros [Hne Hws]. destruct ws as [ | c ws]; [contradiction | ].
  unfold all_space in Hws. simpl in Hws. rewrite string_app_cons. simpl.
  destruct (isspace c); [reflexivity | discriminate].
Qed.

Lemma extract_token_skip ws s : all_space ws -> extract_token (ws ++ s) = extract_token s.
Proof. intros H. unfold extract_token. rewrite (skip_spaces_app _ _ H). reflexivity. Qed.

Lemma meminfo_loop_skip fuel ws s m :
  all_space ws -> meminfo_loop fuel (ws ++ s) m = meminfo_loop fuel s m.
Proof.
  intros H. destruct fuel; [reflexivity | ]. simpl.
  rewrite (extract_token_skip _ _ H). reflexivity.
Qed.

Lemma meminfo_loop_line fuel e rest m :
  well_formed_line e ->
  meminfo_loop (S fuel) (mem_line e rest) m =
  meminfo_loop fuel rest (meminfo_assign (ml_key e) (ml_val e) m).
Proof.
  intros (Hkey & Hpad & Hval & Hsep & Hunit & Hend). unfold mem_line.
  simpl meminfo_loop.
  rewrite (extract_token_word EmptyString (ml_key e) _ eq_refl Hkey (at_break_blank _ _ Hpad)
           : extract_token (ml_key e ++ _)%string = _).
  rewrite (extract_u64_number _ _ _ (proj2 Hpad) Hval (at_break_blank _ _ Hsep)).
  rewrite (extract_token_word _ _ _ (proj2 Hsep) Hunit (at_break_blank _ _ Hend)).
  apply meminfo_loop_skip, Hend.
Qed.

Lemma meminfo_loop_text es : forall fuel tail m,
  Forall well_formed_line es -> no_entry tail ->
  (length es <= fuel)%nat ->
  meminfo_loop fuel (meminfo_text es tail) m =
  foldl (fun m e => meminfo_assign (ml_key e) (ml_val e) m) m es.
Proof.
  induction es as [ | e r IH]; intros fuel tail m Hes Htail Hfuel.
  - apply meminfo_loop_no_entry, Htail.
  - apply Forall_cons in Hes as [He Hr].
    destruct fuel as [ | fuel]; [simpl in Hfuel; lia | ].
    simpl meminfo_text. rewrite (meminfo_loop_line _ _ _ _ He).
    simpl foldl. apply IH; [exact Hr | exact Htail | simpl in Hfuel; lia].
Qed.

Lemma meminfo_text_length es tail :
  Forall well_formed_line es ->
  (length es <= String.length (meminfo_text es tail))%nat.
Proof.
  induction 1 as [ | e r He _ IH]; [simpl; lia | ].
  simpl. unfold mem_line. destruct He as ([Hne _] & _).
  rewrite string_length_app.
  assert (1 <= String.length (ml_key e))%nat
    by (destruct (ml_key e); [contradiction | simpl; lia]).
  rewrite !string_length_app. lia.
Qed.

Lemma meminfo_assign_eq key val t f a :
  meminfo_assign key val (t, f, a) =
  (if String.eqb key "MemTotal:" then val else t,
   if String.eqb key "MemFree:" then val else f,
   if String.eqb key "MemAvailable:" then val else a).
Proof.
  unfold meminfo_assign.
  destruct (String.eqb_spec key "MemTotal:") as [-> | _]; [reflexivity | ].
  destruct (String.eqb_spec key "MemFree:") as [-> | _]; [reflexivity | ].
  destruct (String.eqb_spec key "MemAvailable:") as [-> | _]; reflexivity.
Qed.

Lemma foldl_meminfo_assign es : forall t f a,
  foldl (fun m e => meminfo_assign (ml_key e) (ml_val e) m) (t, f, a) es =
  (last_value "MemTotal:" t es, last_value "MemFree:" f es,
   last_value "MemAvailable:" a es).
Proof.
  unfold last_value.
  induction es as [ | e r IH]; intros t f a; [reflexivity | ].
  cbn [foldl]. rewrite meminfo_assign_eq, IH. reflexivity.
Qed.

Lemma last_value_range key es :
  Forall well_formed_line es -> U64.in_range (last_value key 0 es).
Proof.
  unfold last_value. intros H.
  assert (G : forall d, U64.in_range d ->
            U64.in_range (foldl (fun acc e => if String.eqb (ml_key e) key
                                              then ml_val e else acc) d es)).
  { induction H as [ | e r He _ IH]; intros d Hd; [exact Hd | ].
    simpl. apply IH. destruct (String.eqb (ml_key e) key); [ | exact Hd].
    destruct He as (_ & _ & Hv & _). exact Hv. }
  apply G. unfold U64.in_range, U64.modulus. lia.
Qed.

Lemma read_meminfo_text_helper es tail old :
  Forall well_formed_line es -> no_entry tail ->
  read_meminfo (Some (meminfo_text es tail)) old =
  (0 <? last_value "MemTotal:" 0 es,
   (last_value "MemTotal:" 0 es, last_value "MemFree:" 0 es,
    last_value "MemAvailable:" 0 es)).
Proof.
  intros Hes Htail. unfold read_meminfo.
  rewrite (meminfo_loop_text es _ tail (0, 0, 0) Hes Htail)
    by (pose proof (meminfo_text_length es tail Hes); lia).
  rewrite foldl_meminfo_assign. reflexivity.
Qed.

(** X11.  On a /proc/meminfo made of entries key, value, unit (each
    followed by white space of any kind, the value below 2^64) and
    followed by text that is not one more such entry, read_meminfo stores,
    for each of MemTotal:, MemFree: and MemAvailable:, the value of the
    last entry with that key, and 0 when there is none; it returns true
    exactly when the stored total is above 0. What the three variables
    held before the call plays no part; the stored values are below 2^64;
    and when the entries with the key MemTotal: all carry one value (for
    instance when there is one such entry), that value is the stored
    total. *)
Theorem read_meminfo_text es tail old :
  Forall well_formed_line es -> no_entry tail ->
  let m := (last_value "MemTotal:" 0 es, last_value "MemFree:" 0 es,
            last_value "MemAvailable:" 0 es) in
  read_meminfo (Some (meminfo_text es tail)) old = (0 <? m.1.1, m) /\
  U64.in_range m.1.1 /\ U64.in_range m.1.2 /\ U64.in_range m.2 /\
  (forall e, e ∈ es -> ml_key e = "MemTotal:"%string ->
     (forall e', e' ∈ es -> ml_key e' = "MemTotal:"%string -> ml_val e' = ml_val e) ->
     m.1.1 = ml_val e).
Proof.
  intros Hes Htail. cbv zeta. simpl fst. simpl snd.
  pose proof (fun key => last_value_range key es Hes) as Hr.
  split; [exact (read_meminfo_text_helper es tail old Hes Htail) | ].
  split; [apply Hr | ]. split; [apply Hr | ]. split; [apply Hr | ].
  intros e He Hkey Hsame. unfold last_value.
  clear Hes Htail Hr. revert He Hsame. generalize 0.
  induction es as [ | e0 r IH] using rev_ind; intros d He Hsame; [inversion He | ].
  rewrite foldl_app. simpl.
  destruct (String.eqb_spec (ml_key e0) "MemTotal:") as [E | N].
  - apply Hsame; [apply elem_of_app; right; left | exact E].
  - apply IH.
    + apply elem_of_app in He as [He | He]; [exact He | ].
      apply list_elem_of_singleton in He. subst e0. contradiction.
    + intros e' He'. apply Hsame. apply elem_of_app. left. exact He'.
Qed.

(** ** The uid *)

Lemma lines_of_with_line l more :
  lacks newline l -> lines_of (with_line l more) = l :: lines_of more.
Proof.
  unfold with_line. induction l as [ | c l IH]; intros H; [reflexivity | ].
  apply lacks_cons in H as [Hc Hl]. rewrite string_app_cons. simpl.
  destruct (Ascii.eqb_spec c "010") as [E | _]; [contradiction | ].
  rewrite (IH Hl). reflexivity.
Qed.

Lemma scan_uid_cons line rest :
  scan_uid (line :: rest) =
  if starts_with "Uid:" line
  then match extract_u64 (sdrop 4 line) with
       | ExtValue v _ => Done (v mod 2 ^ 32)
       | ExtNoDigits => Done 0
       | ExtOverflow => Done ((U64.modulus - 1) mod 2 ^ 32)
       | ExtEnd => Fails Indeterminate
       end
  else scan_uid rest.
Proof. reflexivity. Qed.

Lemma scan_uid_lines_then headers rest :
  Forall (fun l => lacks newline l /\ starts_with "Uid:" l = false) headers ->
  scan_uid (lines_of (lines_then headers rest)) = scan_uid (lines_of rest).
Proof.
  induction 1 as [ | l ls [Hnl Hst] _ IH]; [reflexivity | ].
  simpl lines_then. rewrite (lines_of_with_line _ _ Hnl), scan_uid_cons, Hst.
  exact IH.
Qed.

(** X12.  When the status file has a line that starts with Uid: followed
    by optional white space and a decimal number u below 2^64 that ends
    the line or is followed by white space, and no earlier line starts
    with Uid:, the uid that read_proc_times hands back is u modulo 2^32;
    the rest of that line and all later lines are ignored. *)
Theorem read_uid_first_uid_line headers ws u rest more :
  Forall (fun l => lacks newline l /\ starts_with "Uid:" l = false) headers ->
  all_space ws -> lacks newline ws ->
  at_break rest -> lacks newline rest ->
  0 <= u < U64.modulus ->
  read_uid (Some (lines_then headers (with_line (uid_line ws u rest) more))) =
  Done (u mod 2 ^ 32).
Proof.
  intros Hh Hws Nws Hrest Nrest Hu. unfold read_uid.
  rewrite (scan_uid_lines_then _ _ Hh), lines_of_with_line.
  - rewrite scan_uid_cons. unfold uid_line.
    change (starts_with "Uid:" (String "U" (String "i" (String "d" (String ":"
              (ws ++ to_string u ++ rest)%string))))) with true.
    change (sdrop 4 (String "U" (String "i" (String "d" (String ":"
              (ws ++ to_string u ++ rest)%string)))))
      with (ws ++ to_string u ++ rest)%string.
    rewrite (extract_u64_number _ _ _ Hws Hu Hrest). reflexivity.
  - unfold uid_line. repeat (apply lacks_cons; split; [discriminate | ]).
    apply lacks_app. split; [exact Nws | ].
    apply lacks_app. split; [ | exact Nrest].
    apply lacks_to_string; [reflexivity | discriminate].
Qed.

(** X13.  When the status file cannot be opened, or none of its lines
    starts with Uid:, the uid that read_proc_times hands back is 2^32 - 1,
    the value of (uid_t)-1. *)
Theorem read_uid_without_uid_line ls rest :
  Forall (fun l => lacks newline l /\ starts_with "Uid:" l = false) ls ->
  lacks newline rest -> starts_with "Uid:" rest = false ->
  read_uid None = Done uid_none /\
  read_uid (Some (lines_then ls rest)) = Done uid_none.
Proof.
  intros Hls Nrest Hrest. split; [reflexivity | ].
  unfold read_uid. rewrite (scan_uid_lines_then _ _ Hls).
  destruct rest as [ | c r]; [reflexivity | ].
  assert (E : lines_of (String c r) = [String c r]).
  { clear Hrest. revert c Nrest. induction r as [ | c' r IH]; intros c H.
    - apply lacks_cons in H as [Hc _]. simpl.
      destruct (Ascii.eqb_spec c "010"); [contradiction | reflexivity].
    - apply lacks_cons in H as [Hc Hr]. 
      change (lines_of (String c (String c' r)))
        with (if Ascii.eqb c "010" then EmptyString :: lines_of (String c' r)
              else match lines_of (String c' r) with
                   | l :: ls => String c l :: ls
                   | [] => [String c EmptyString]
                   end).
      destruct (Ascii.eqb_spec c "010"); [contradiction | ].
      rewrite (IH c' Hr). reflexivity. }
  rewrite E, scan_uid_cons, Hrest. reflexivity.
Qed.

(** * The header *)

(** X14.  When the memory total kept by main is not 0, draw_header reads
    /proc/meminfo again: on a file of well-formed entries it shows the
    MemTotal of the file (not the total it was given) divided by 1024 as
    MB and the percentage 100 * used / total computed in doubles, with
    used = (MemTotal - MemAvailable) modulo 2^64; when the MemTotal of the
    file is above 0 the percentage is zero or positive and never NaN. When
    the file cannot be opened, the percentage is computed from a variable
    that was never written. *)
Theorem draw_header_memory es tail mem_total_kb :
  Forall well_formed_line es -> no_entry tail ->
  mem_total_kb <> 0 ->
  let total := last_value "MemTotal:" 0 es in
  let avail := last_value "MemAvailable:" 0 es in
  let mempct := div (mul hundred (of_u64 (U64.sub total avail))) (of_u64 total) in
  header_memory (Some (meminfo_text es tail)) mem_total_kb
  = Done (Some (total / 1024, mempct)) /\
  (0 < total -> nonneg mempct /\ is_nan mempct = false) /\
  header_memory None mem_total_kb = Fails Indeterminate.
Proof.
  intros Hes Htail Hmt. cbv zeta.
  assert (Hz : (mem_total_kb =? 0) = false) by (apply Z.eqb_neq; exact Hmt).
  split; [ | split].
  - unfold header_memory. rewrite Hz, (read_meminfo_text_helper es tail _ Hes Htail).
    reflexivity.
  - intros Hpos.
    assert (Hnn : nonneg (div (mul hundred
                    (of_u64 (U64.sub (last_value "MemTotal:" 0 es)
                                     (last_value "MemAvailable:" 0 es))))
                    (of_u64 (last_value "MemTotal:" 0 es)))).
    { apply div_nonneg.
      - apply mul_hundred_nonneg, of_u64_cases, wrap64_range.
      - apply of_u64_finite. pose proof (last_value_range "MemTotal:" es Hes) as [_ H].
        lia. }
    split; [exact Hnn | exact (nonneg_not_nan _ Hnn)].
  - unfold header_memory. rewrite Hz. reflexivity.
Qed.

(** * The loops of the readers end before their bound *)

Lemma skip_spaces_length s : (String.length (skip_spaces s) <= String.length s)%nat.
Proof.
  induction s as [ | c r IH]; simpl; [lia | ].
  destruct (isspace c); simpl; lia.
Qed.

Lemma take_token_length s t rest :
  take_token s = (t, rest) ->
  (String.length t + String.length rest = String.length s)%nat.
Proof.
  revert t rest. induction s as [ | c r IH]; intros t rest; simpl.
  - intros [= <- <-]. reflexivity.
  - destruct (isspace c); [intros [= <- <-]; reflexivity | ].
    destruct (take_token r) as [t' rest'] eqn:E. intros [= <- <-].
    specialize (IH _ _ eq_refl). simpl. lia.
Qed.

Lemma extract_token_length s t rest :
  extract_token s = Some (t, rest) -> (String.length rest < String.length s)%nat.
Proof.
  unfold extract_token. pose proof (skip_spaces_length s) as Hs.
  destruct (skip_spaces s) as [ | c r] eqn:E; [discriminate | ].
  intros [= H]. 
  assert (Hc : isspace c = false).
  { clear -E. induction s as [ | a s IH]; [discriminate | ].
    simpl in E. destruct (isspace a) eqn:Ea; [exact (IH E) | ].
    injection E as <- _. exact Ea. }
  simpl in H. rewrite Hc in H.
  destruct (take_token r) as [t' rest'] eqn:Er. injection H as <- <-.
  apply take_token_length in Er. simpl in Hs. lia.
Qed.

Lemma take_digits_length s : forall acc n v n' rest,
  take_digits s acc n = (v, n', rest) ->
  (String.length rest + n' = String.length s + n)%nat.
Proof.
  induction s as [ | c r IH]; intros acc n v n' rest; simpl.
  - intros [= _ <- <-]. reflexivity.
  - destruct (digit_of c).
    + intros H. apply IH in H. lia.
    + intros [= _ <- <-]. reflexivity.
Qed.

Lemma extract_u64_length s v rest :
  extract_u64 s = ExtValue v rest -> (String.length rest < String.length s)%nat.
Proof.
  unfold extract_u64. pose proof (skip_spaces_length s) as Hs.
  destruct (skip_spaces s) as [ | c r]; [discriminate | ].
  assert (Hsign : (String.length (split_sign (String c r)).2 <= String.length (String c r))%nat).
  { simpl. destruct (Ascii.eqb c "-"); [simpl; lia | ].
    destruct (Ascii.eqb c "+"); simpl; lia. }
  destruct (split_sign (String c r)) as [neg body].
  destruct (take_digits body 0 0) as [[w n] rest'] eqn:E.
  apply take_digits_length in E.
  destruct (Nat.eqb_spec n 0); [discriminate | ].
  destruct (U64.modulus <=? w); [discriminate | ].
  intros [= _ <-]. simpl in Hsign, Hs. lia.
Qed.

Lemma meminfo_loop_fuel n : forall s m f1 f2,
  (String.length s <= n)%nat -> (n < f1)%nat -> (n < f2)%nat ->
  meminfo_loop f1 s m = meminfo_loop f2 s m.
Proof.
  induction n as [ | n IH]; intros s m f1 f2 Hs H1 H2;
    (destruct f1 as [ | f1]; [lia | ]); (destruct f2 as [ | f2]; [lia | ]); simpl.
  - destruct s; [reflexivity | simpl in Hs; lia].
  - destruct (extract_token s) as [[key s1] | ] eqn:E1; [ | reflexivity].
    apply extract_token_length in E1.
    destruct (extract_u64 s1) as [v s2 | | | ] eqn:E2; try reflexivity.
    apply extract_u64_length in E2.
    destruct (extract_token s2) as [[u s3] | ] eqn:E3; [ | reflexivity].
    apply extract_token_length in E3.
    apply IH; lia.
Qed.

Lemma extract_all_fuel n : forall s f1 f2,
  (String.length s <= n)%nat -> (n < f1)%nat -> (n < f2)%nat ->
  extract_all f1 s = extract_all f2 s.
Proof.
  induction n as [ | n IH]; intros s f1 f2 Hs H1 H2;
    (destruct f1 as [ | f1]; [lia | ]); (destruct f2 as [ | f2]; [lia | ]); simpl.
  - destruct s; [reflexivity | simpl in Hs; lia].
  - destruct (extract_u64 s) as [v rest | | | ] eqn:E; try reflexivity.
    apply extract_u64_length in E. f_equal. apply IH; lia.
Qed.

(** * [parse_ull] *)

Lemma read_digits_nonneg s : forall acc seen v,
  0 <= acc -> read_digits s acc seen = Some v -> 0 <= v.
Proof.
  induction s as [ | c r IH]; intros acc seen v Hacc; simpl.
  - destruct seen; [intros [= <-]; exact Hacc | discriminate].
  - destruct (digit_of c) as [d | ] eqn:E.
    + apply digit_of_inv in E as [Hd _]. apply IH. lia.
    + destruct seen; [intros [= <-]; exact Hacc | discriminate].
Qed.

(** X15.  parse_ull never throws and always returns a value below 2^64. It
    returns 0 when the text, after white space and an optional sign, does
    not go on with a digit. On a numeric text (optional sign, then digits
    only) of value v it returns v modulo 2^64 when |v| < 2^64 (so a
    negative number wraps around) and 0 when |v| is 2^64 or more. *)
Theorem parse_ull_total s :
  U64.in_range (parse_ull s) /\
  (leading_digit s = false -> parse_ull s = 0) /\
  (forall v, numeric_value s = Some v ->
     parse_ull s = if U64.modulus <=? Z.abs v then 0 else v mod U64.modulus).
Proof.
  split; [ | split].
  - unfold parse_ull, stoull. destruct (split_sign (skip_spaces s)) as [neg body].
    destruct (read_digits body 0 false) as [w | ] eqn:E;
      [ | unfold U64.in_range, U64.modulus; lia].
    destruct (Z.leb_spec U64.modulus w); [unfold U64.in_range, U64.modulus; lia | ].
    destruct neg; [apply wrap64_range | ].
    split; [exact (read_digits_nonneg _ _ _ _ (Z.le_refl 0) E) | assumption].
  - unfold leading_digit, parse_ull, stoull.
    destruct (split_sign (skip_spaces s)) as [neg body]. simpl.
    intros H. rewrite (read_digits_no_digit _ H). reflexivity.
  - intros v Hv. unfold parse_ull. rewrite (stoull_numeric _ _ Hv).
    destruct (U64.modulus <=? Z.abs v); reflexivity.
Qed.

(** * The snapshot *)

(** X16.  total_cpu_time returns the sum of the fields modulo 2^64; when
    the fields are 64-bit values whose sum is below 2^64 it is the sum
    itself. *)
Theorem total_cpu_time_sum vals :
  total_cpu_time vals = foldr Z.add 0 vals mod U64.modulus /\
  (Forall U64.in_range vals -> foldr Z.add 0 vals < U64.modulus ->
   total_cpu_time vals = foldr Z.add 0 vals).
Proof.
  assert (G : forall acc, foldl U64.add acc vals
                          = (acc + foldr Z.add 0 vals) mod U64.modulus
                            \/ (vals = [] /\ foldl U64.add acc vals = acc)).
  { induction vals as [ | v r IH]; intros acc; [right; auto | ].
    left. simpl. destruct (IH (U64.add acc v)) as [-> | [-> ->]].
    - unfold U64.add, U64.wrap64. rewrite Zplus_mod_idemp_l. f_equal. lia.
    - simpl. unfold U64.add, U64.wrap64. f_equal. lia. }
  assert (E : total_cpu_time vals = foldr Z.add 0 vals mod U64.modulus).
  { unfold total_cpu_time. destruct (G 0) as [-> | [-> ->]]; reflexivity. }
  split; [exact E | ].
  intros Hr Hlt. rewrite E. apply Z.mod_small. split; [ | exact Hlt].
  clear -Hr. induction Hr as [ | v r [Hv _] _ IH]; simpl; lia.
Qed.

Lemma collect_processes_snoc passwd reads k r mt :
  collect_processes passwd (reads ++ [(k, r)]) mt =
  match r with
  | None => collect_processes passwd reads mt
  | Some rd => <[k := proc_of_read passwd mt k rd]> (collect_processes passwd reads mt)
  end.
Proof. unfold collect_processes. rewrite foldl_app. reflexivity. Qed.

(** When all reads of [k] agree, the entry of [k] is made from that read. *)
Lemma collect_processes_functional passwd reads mt k rd :
  (k, Some rd) ∈ reads ->
  (forall r, (k, r) ∈ reads -> r = Some rd) ->
  collect_processes passwd reads mt !! k = Some (proc_of_read passwd mt k rd).
Proof.
  induction reads as [ | [k' r'] reads IH] using rev_ind; intros Hin Hfun.
  - inversion Hin.
  - rewrite collect_processes_snoc.
    destruct (decide (k' = k)) as [-> | Hne].
    + rewrite (Hfun r') by (apply elem_of_app; right; left).
      apply lookup_insert_eq.
    + assert (Hin' : (k, Some rd) ∈ reads).
      { apply elem_of_app in Hin as [Hin | Hin]; [exact Hin | ].
        apply list_elem_of_singleton in Hin. congruence. }
      assert (IH' := IH Hin' (fun r Hr => Hfun r (proj2 (elem_of_app _ _ _) (or_introl Hr)))).
      destruct r' as [rd' | ]; [ | exact IH'].
      rewrite lookup_insert_ne by exact Hne. exact IH'.
Qed.

(** X17.  When list_pids returned pairwise distinct pids, the map that
    collect_processes builds has an entry under k exactly when
    read_proc_times succeeded for k, and that entry is the one made from
    this read (pid k, the name, times, total time, memory and user of the
    read, CPU percentage 0). *)
Theorem collect_processes_entries passwd reads mt k p :
  NoDup reads.*1 ->
  collect_processes passwd reads mt !! k = Some p <->
  exists rd, (k, Some rd) ∈ reads /\ p = proc_of_read passwd mt k rd.
Proof.
  intros Hnd. split; [apply collect_processes_lookup | ].
  intros (rd & Hin & ->). apply collect_processes_functional; [exact Hin | ].
  intros r Hr.
  apply list_elem_of_lookup in Hin as (i & Hi). apply list_elem_of_lookup in Hr as (j & Hj).
  assert (i = j).
  { apply (NoDup_lookup _ _ _ k Hnd); rewrite list_lookup_fmap.
    - rewrite Hi. reflexivity.
    - rewrite Hj. reflexivity. }
  subst j. congruence.
Qed.

(** X18.  update_cpu_percent keeps the keys of the new map and changes
    nothing of an entry but its CPU percentage; applying it twice with the
    same old map and totals gives the same map as applying it once; and
    the percentage it stores for a pid depends on the new entry only
    through its total_time. *)
Theorem update_cpu_percent_only_cpu oldp newp o n :
  update_cpu_percent oldp (update_cpu_percent oldp newp o n) o n
  = update_cpu_percent oldp newp o n /\
  (forall k, update_cpu_percent oldp newp o n !! k = None <-> newp !! k = None) /\
  (forall k p q, newp !! k = Some p ->
     update_cpu_percent oldp newp o n !! k = Some q ->
     q = set_cpu_percent p (cpu_percent q)) /\
  (forall newp' k p p', newp !! k = Some p -> newp' !! k = Some p' ->
     total_time p' = total_time p ->
     cpu_percent <$> update_cpu_percent oldp newp' o n !! k
     = cpu_percent <$> update_cpu_percent oldp newp o n !! k).
Proof.
  split; [ | split; [ | split]].
  - apply map_eq. intros k. rewrite !update_cpu_percent_lookup.
    destruct (newp !! k) as [p | ]; reflexivity.
  - intros k. rewrite update_cpu_percent_lookup.
    destruct (newp !! k); simpl; split; congruence.
  - intros k p q Hp. rewrite update_cpu_percent_lookup, Hp. simpl.
    intros [= <-]. reflexivity.
  - intros newp' k p p' Hp Hp' Ht. rewrite !update_cpu_percent_lookup, Hp, Hp'.
    simpl. rewrite Ht. reflexivity.
Qed.

(** * From the files to the snapshot *)

Lemma read_all_reads files page_size pids : forall reads,
  read_all files page_size pids = Done reads ->
  reads.*1 = pids /\
  forall k r, (k, r) ∈ reads <-> k ∈ pids /\ reads_of files page_size k = Done r.
Proof.
  induction pids as [ | p rest IH]; intros reads H.
  - injection H as <-. split; [reflexivity | ].
    intros k r. split; [intros Hin; inversion Hin | intros [Hin _]; inversion Hin].
  - simpl in H. apply and_then_Done in H as (r0 & Hr0 & H).
    apply and_then_Done in H as (rs & Hrs & H). injection H as <-.
    destruct (IH _ Hrs) as [Hfst Hmem]. split; [rewrite fmap_cons, Hfst; reflexivity | ].
    intros k r. rewrite !elem_of_cons, Hmem. split.
    + intros [[= -> ->] | [Hk Hr]]; [split; [left; reflexivity | exact Hr0] | ].
      split; [right; exact Hk | exact Hr].
    + intros [[-> | Hk] Hr].
      * left. unfold reads_of in Hr. rewrite Hr0 in Hr. injection Hr as ->. reflexivity.
      * right. auto.
Qed.

Lemma read_all_fails files page_size pids k x :
  k ∈ pids -> reads_of files page_size k = Fails x ->
  exists y, read_all files page_size pids = Fails y.
Proof.
  intros Hk Hx. induction pids as [ | p rest IH]; [inversion Hk | ].
  simpl. destruct (read_proc_times (files p).1 (files p).2 page_size) as [r | y] eqn:E;
    [ | eauto].
  apply elem_of_cons in Hk as [-> | Hk].
  - unfold reads_of in Hx. congruence.
  - destruct (IH Hk) as (y & ->). simpl. eauto.
Qed.

(** X19.  When collect_processes returns on a /proc directory and its
    files, its map has an entry p under k exactly when some directory of
    /proc has a non-empty all-digit name that denotes k and
    read_proc_times on the files of k returned true, and p is the entry
    made from that read; this holds also when several names denote the
    same pid. *)
Theorem collect_from_proc_entries passwd entries files page_size mt m k p :
  collect_from_proc passwd (Some entries) files page_size mt = Done m ->
  m !! k = Some p <->
  exists e rd,
    e ∈ entries /\ pid_entry e k /\
    reads_of files page_size k = Done (Some rd) /\
    p = proc_of_read passwd mt k rd.
Proof.
  unfold collect_from_proc. intros H.
  apply and_then_Done in H as (pids & Hpids & H).
  apply and_then_Done in H as (reads & Hreads & H). injection H as <-.
  destruct (read_all_reads _ _ _ _ Hreads) as [_ Hmem].
  unfold list_pids in Hpids. apply and_then_Done in Hpids as (ps & Hps & [= <-]).
  assert (Hin : forall v, v ∈ merge_sort Z.le ps <-> exists e, e ∈ entries /\ pid_entry e v).
  { intros v. rewrite (merge_sort_Permutation Z.le ps).
    assert (Hall : forall e v, e ∈ entries -> pid_entry e v -> v <= Int.max_int).
    { intros e w He Hw. destruct (Z.le_gt_cases w Int.max_int) as [Hle | Hgt]; [exact Hle | ].
      rewrite (pids_of_out_of_range entries e w He Hw) in Hps by lia. discriminate. }
    destruct (pids_of_members entries Hall) as (ps' & Hps' & Hm).
    rewrite Hps in Hps'. injection Hps' as <-. apply Hm. }
  split.
  - intros Hk. apply collect_processes_lookup in Hk as (rd & Hrd & ->).
    apply Hmem in Hrd as [Hk Hrd]. apply Hin in Hk as (e & He & Hpe).
    exists e, rd. auto.
  - intros (e & rd & He & Hpe & Hrd & ->).
    apply collect_processes_functional.
    + apply Hmem. split; [apply Hin; eauto | exact Hrd].
    + intros r Hr. apply Hmem in Hr as [_ Hr]. congruence.
Qed.

(** The only exception that leaves [read_proc_times] is the [out_of_range]
    of [substr]. *)
Lemma read_proc_times_thrown stat status page_size ex :
  read_proc_times stat status page_size = Fails (Thrown ex) -> ex = OutOfRange.
Proof.
  unfold read_proc_times. destruct stat as [s | ]; [ | discriminate].
  destruct (find_char "(" (first_line s)) as [p1 | ]; [ | discriminate].
  destruct (rfind_char ")" (first_line s)) as [p2 | ]; [ | discriminate].
  destruct (p2 <=? p1)%nat; [discriminate | ].
  unfold substr, substr_from.
  destruct (p1 + 1 <=? String.length (first_line s))%nat; [ | intros [= <-]; reflexivity].
  destruct (p2 + 2 <=? String.length (first_line s))%nat; [ | intros [= <-]; reflexivity].
  simpl and_then.
  destruct (length _ <? 22)%nat; [discriminate | ].
  unfold rss_kb_of, long_checked.
  match goal with
  | |- context [if ?b then _ else Done 0] => destruct b
  end.
  - match goal with
    | |- context [if ?b then _ else _] => destruct b
    end; simpl and_then; [ | discriminate].
    unfold read_uid. destruct status as [t | ]; [ | discriminate].
    induction (lines_of t) as [ | l ls IH]; [discriminate | ].
    rewrite scan_uid_cons. destruct (starts_with "Uid:" l); [ | exact IH].
    destruct (extract_u64 (sdrop 4 l)); discriminate.
  - simpl and_then.
    unfold read_uid. destruct status as [t | ]; [ | discriminate].
    induction (lines_of t) as [ | l ls IH]; [discriminate | ].
    rewrite scan_uid_cons. destruct (starts_with "Uid:" l); [ | exact IH].
    destruct (extract_u64 (sdrop 4 l)); discriminate.
Qed.

(** [list_pids] ends only with the [out_of_range] of [stoi]. *)
Lemma pids_of_fails entries y :
  pids_of entries = Fails y -> y = Thrown OutOfRange.
Proof.
  induction entries as [ | e rest IH]; [discriminate | ].
  rewrite pids_of_cons.
  destruct (d_is_dir e && negb (String.eqb (d_name e) EmptyString)
            && all_digits (d_name e)) eqn:Htest; [ | exact IH].
  apply pid_entry_test in Htest as (v & Hv).
  rewrite (pid_entry_stoi _ _ Hv).
  destruct (v <=? Int.max_int); [ | intros [= <-]; reflexivity].
  destruct (pids_of rest) as [ps | z]; [discriminate | ].
  simpl. intros [= <-]. apply IH. reflexivity.
Qed.

Lemma read_all_thrown files page_size pids k ex :
  k ∈ pids -> reads_of files page_size k = Fails (Thrown ex) ->
  (forall k' x, k' ∈ pids -> reads_of files page_size k' = Fails x ->
     exists ex', x = Thrown ex') ->
  read_all files page_size pids = Fails (Thrown OutOfRange).
Proof.
  intros Hk Hx Hall. induction pids as [ | p rest IH]; [inversion Hk | ].
  simpl.
  destruct (read_proc_times (files p).1 (files p).2 page_size) as [r | y] eqn:E.
  - apply elem_of_cons in Hk as [-> | Hk].
    + unfold reads_of in Hx. congruence.
    + rewrite IH; [reflexivity | exact Hk | ].
      intros k' x Hk'. apply Hall. right. exact Hk'.
  - destruct (Hall p y) as (ex' & ->); [left | exact E | ].
    apply read_proc_times_thrown in E as ->. reflexivity.
Qed.

(** X20.  When /proc lists the directory of a process k, read_proc_times
    on the files of k throws an exception, and no read of a listed process
    runs into undefined behaviour, collect_processes does not return: it
    ends with the exception out_of_range, which nothing catches, so one stat
    line that stops at the closing parenthesis ends the whole snapshot. *)
Theorem collect_from_proc_failure passwd entries files page_size mt e k ex :
  e ∈ entries -> pid_entry e k ->
  reads_of files page_size k = Fails (Thrown ex) ->
  (forall e' k' x, e' ∈ entries -> pid_entry e' k' ->
     reads_of files page_size k' = Fails x -> exists ex', x = Thrown ex') ->
  collect_from_proc passwd (Some entries) files page_size mt = Fails (Thrown OutOfRange).
Proof.
  intros He Hpe Hx Hall. unfold collect_from_proc.
  destruct (list_pids (Some entries)) as [pids | y] eqn:Hpids.
  - simpl and_then.
    unfold list_pids in Hpids. apply and_then_Done in Hpids as (ps & Hps & [= <-]).
    assert (Hsmall : forall e v, e ∈ entries -> pid_entry e v -> v <= Int.max_int).
    { intros e' w He' Hw.
      destruct (Z.le_gt_cases w Int.max_int) as [Hle | Hgt]; [exact Hle | ].
      rewrite (pids_of_out_of_range entries e' w He' Hw) in Hps by lia. discriminate. }
    destruct (pids_of_members entries Hsmall) as (ps' & Hps' & Hm).
    rewrite Hps in Hps'. injection Hps' as <-.
    rewrite (read_all_thrown files page_size (merge_sort Z.le ps) k ex); [reflexivity | | exact Hx | ].
    + rewrite (merge_sort_Permutation Z.le ps). apply Hm. eauto.
    + intros k' x Hk'. rewrite (merge_sort_Permutation Z.le ps) in Hk'.
      apply Hm in Hk' as (e' & He' & Hpe'). apply (Hall e' k' x He' Hpe').
  - unfold list_pids in Hpids.
    destruct (pids_of entries) as [ps | z] eqn:Hps; [discriminate | ].
    simpl in Hpids. injection Hpids as <-.
    apply pids_of_fails in Hps as ->. reflexivity.
Qed.

(** * The process table *)

Lemma rows_of_procs ps : forall sel idx y, row_proc <$> rows_of ps sel idx y = ps.
Proof.
  induction ps as [ | p r IH]; intros sel idx y; [reflexivity | ].
  simpl. rewrite IH. reflexivity.
Qed.

Lemma rows_of_lookup ps : forall sel idx y j,
  rows_of ps sel idx y !! j =
  (fun p => mkRow (y + Z.of_nat j) p (idx + Z.of_nat j =? sel)) <$> ps !! j.
Proof.
  induction ps as [ | p r IH]; intros sel idx y j; [reflexivity | ].
  destruct j as [ | j].
  - simpl. rewrite !Z.add_0_r. reflexivity.
  - simpl rows_of. rewrite !lookup_cons. rewrite IH.
    replace (y + 1 + Z.of_nat j) with (y + Z.of_nat (S j)) by lia.
    replace (idx + 1 + Z.of_nat j) with (idx + Z.of_nat (S j)) by lia.
    reflexivity.
Qed.

Lemma draw_rows_rows procs sel off n : forall i,
  0 <= i -> i + Z.of_nat n + 2 <= Int.max_int ->
  0 <= off -> off + i <= Int.max_int ->
  Z.of_nat (length procs) <= Int.max_int ->
  draw_rows n procs sel off i =
  Ok (rows_of (take n (drop (Z.to_nat (off + i)) procs)) sel (off + i) (i + 2)).
Proof.
  induction n as [ | n IH]; intros i Hi Hn Hoff Hidx Hsize; [reflexivity | ].
  assert (Hmin : Int.min_int <= 0) by (unfold Int.min_int; lia).
  simpl draw_rows. unfold Int.add.
  rewrite (checked_in_range (off + i)) by (unfold Int.in_range; lia).
  simpl bind. rewrite of_unsigned_small by lia.
  destruct (Z.leb_spec (Z.of_nat (length procs)) (off + i)) as [Hge | Hlt].
  - rewrite drop_ge by lia. reflexivity.
  - unfold vec_at. destruct (Z.ltb_spec (off + i) 0); [lia | ].
    destruct (procs !! Z.to_nat (off + i)) as [p | ] eqn:E;
      [ | apply lookup_ge_None in E; lia].
    simpl bind.
    rewrite (checked_in_range (i + 2)) by (unfold Int.in_range; lia).
    simpl bind.
    rewrite (checked_in_range (i + 1)) by (unfold Int.in_range; lia).
    simpl bind.
    rewrite (IH (i + 1)) by lia. simpl bind.
    rewrite (drop_S _ _ _ E). simpl take. simpl rows_of.
    replace (Z.to_nat (off + (i + 1))) with (S (Z.to_nat (off + i))) by lia.
    replace (off + (i + 1)) with (off + i + 1) by lia.
    replace (i + 1 + 2) with (i + 2 + 1) by lia.
    reflexivity.
Qed.

Lemma draw_processes_rows procs sel off maxy :
  0 <= off <= Int.max_int ->
  Int.in_range (maxy - 3) -> maxy <= Int.max_int ->
  Z.of_nat (length procs) <= Int.max_int ->
  draw_processes procs sel off maxy =
  Ok (rows_of (take (Z.to_nat (maxy - 3)) (drop (Z.to_nat off) procs)) sel off 2).
Proof.
  intros Hoff Hrows Hmaxy Hsize. unfold draw_processes, Int.sub.
  rewrite (checked_in_range _ Hrows). simpl bind.
  rewrite draw_rows_rows by (unfold Int.max_int in *; lia).
  rewrite Z.add_0_r. reflexivity.
Qed.

(** X21.  With a page offset between 0 and INT_MAX, a window height maxy
    in the range of int with maxy - 3 in that range too, and at most
    INT_MAX entries, draw_processes runs without a fault and prints the
    entries offset, offset + 1, ... of the vector, at most maxy - 3 of
    them and none when the offset is beyond the end: row j shows entry
    offset + j on screen line j + 2 and is in reverse video exactly when
    offset + j is the selected index. *)
Theorem draw_processes_window procs sel off maxy :
  0 <= off <= Int.max_int ->
  Int.in_range (maxy - 3) -> maxy <= Int.max_int ->
  Z.of_nat (length procs) <= Int.max_int ->
  exists rows,
    draw_processes procs sel off maxy = Ok rows /\
    row_proc <$> rows = take (Z.to_nat (maxy - 3)) (drop (Z.to_nat off) procs) /\
    forall j row, rows !! j = Some row ->
      row_y row = Z.of_nat j + 2 /\
      row_reverse row = (off + Z.of_nat j =? sel) /\
      procs !! (Z.to_nat off + j)%nat = Some (row_proc row).
Proof.
  intros Hoff Hrows Hmaxy Hsize.
  eexists. split; [apply draw_processes_rows; assumption | ].
  split; [apply rows_of_procs | ].
  intros j row Hj. rewrite rows_of_lookup in Hj.
  destruct (take _ _ !! j) as [p | ] eqn:E; [ | discriminate].
  injection Hj as <-. simpl.
  split; [lia | ]. split; [reflexivity | ].
  apply lookup_take_Some in E as [E _]. rewrite lookup_drop in E. exact E.
Qed.

(** X22.  After a refresh that started with a page offset of 0 or more,
    with a window height and a number of processes of at most INT_MAX: the
    vector, selection and offset handed to draw_processes are those of the
    new state, draw_processes prints without a fault, and when the body
    window has at least 4 lines and the list is not empty exactly one
    printed row is in reverse video, and it shows the entry at the
    selected index. *)
Theorem refresh_draws_selection inp st st' outs :
  refresh inp st = Ok (st', outs) ->
  0 <= page_offset st ->
  in_body_maxy inp <= Int.max_int ->
  Z.of_nat (length (kill_view st')) <= Int.max_int ->
  exists rows,
    ODrawProcesses (kill_view st') (selected st') (page_offset st') ∈ outs /\
    draw_processes (kill_view st') (selected st') (page_offset st') (in_body_maxy inp)
    = Ok rows /\
    (4 <= in_body_maxy inp -> kill_view st' <> [] ->
     exists j p,
       rows !! j = Some (mkRow (Z.of_nat j + 2) p true) /\
       kill_view st' !! Z.to_nat (selected st') = Some p /\
       forall j' row, rows !! j' = Some row -> row_reverse row = true -> j' = j).
Proof.
  intros H Hoff Hmaxy Hsize.
  pose proof (refresh_refreshed _ _ _ _ H) as R.
  pose proof (refresh_nonneg _ _ _ _ H Hoff) as [Hsel0 Hoff0].
  assert (Hview : refresh_view (cur_procs st') (mem_total_kb st') (sort_mode st)
                  = kill_view st').
  { rewrite (refresh_view_cur _ _ _ _ _ H). unfold kill_view.
    rewrite (rf_mode _ _ _ _ R). reflexivity. }
  pose proof (rf_selected _ _ _ _ R) as Hclamp. rewrite Hview in Hclamp.
  pose proof (rf_offset _ _ _ _ R) as Hadj.
  pose proof (clamp_selected_bounds _ _ _ (conj (Nat2Z.is_nonneg _) Hsize) Hclamp) as Hb.
  pose proof (adjust_page_offset_visible _ _ _ _ Hadj) as Hvis.
  assert (Hrows : Int.in_range (in_body_maxy inp - 3)).
  { unfold adjust_page_offset in Hadj. apply bind_Ok in Hadj as (r & Hr & _).
    apply checked_Ok in Hr as [_ Hr]. exact Hr. }
  assert (Hdraw := draw_processes_rows (kill_view st') (selected st') (page_offset st')
                     (in_body_maxy inp)).
  rewrite Hdraw by (try assumption; unfold Int.max_int in *; lia).
  eexists. split.
  { rewrite (rf_outs _ _ _ _ R), Hview. right. left. }
  split; [reflexivity | ].
  intros H4 Hne.
  assert (Hlen : 0 < Z.of_nat (length (kill_view st'))).
  { destruct (kill_view st'); [contradiction | simpl; lia]. }
  destruct (kill_view st' !! Z.to_nat (selected st')) as [p | ] eqn:Ep;
    [ | apply lookup_ge_None in Ep; lia].
  exists (Z.to_nat (selected st' - page_offset st')), p.
  split; [ | split; [reflexivity | ]].
  - rewrite rows_of_lookup.
    rewrite lookup_take_lt by lia. rewrite lookup_drop.
    replace (Z.to_nat (page_offset st') + Z.to_nat (selected st' - page_offset st'))%nat
      with (Z.to_nat (selected st')) by lia.
    rewrite Ep. simpl. f_equal. f_equal; [lia | ].
    apply Z.eqb_eq. lia.
  - intros j' row Hj' Hrev. rewrite rows_of_lookup in Hj'.
    destruct (take _ _ !! j') as [q | ]; [ | discriminate].
    injection Hj' as <-. simpl in Hrev. apply Z.eqb_eq in Hrev. lia.
Qed.

(** * The main loop, key by key *)

Lemma signals_app o1 o2 : signals (o1 ++ o2) = signals o1 ++ signals o2.
Proof. apply omap_app. Qed.

Lemma refresh_outputs inp st st' outs :
  refresh inp st = Ok (st', outs) ->
  exists mt cpu pv,
    outs = [ODrawHeader mt cpu (refresh_sec st) (sort_mode st);
            ODrawProcesses pv (selected st') (page_offset st')].
Proof.
  intros H. pose proof (refresh_refreshed _ _ _ _ H) as R.
  rewrite (rf_outs _ _ _ _ R). eauto.
Qed.

Lemma refresh_signals inp st st' outs :
  refresh inp st = Ok (st', outs) -> signals outs = [].
Proof. intros H. destruct (refresh_outputs _ _ _ _ H) as (? & ? & ? & ->). reflexivity. Qed.

(** The keys other than the kill key produce no output. *)
Lemma handle_key_silent inp st st' outs :
  handle_key inp st = Ok (st', outs) ->
  is_key (in_getch inp) "k" "K" = false -> outs = [].
Proof.
  intros H Hk. key_cases H; try congruence;
    repeat match type of H with
           | bind _ _ = Ok _ => apply bind_Ok in H as (? & _ & H)
           end;
    congruence.
Qed.

Lemma kill_view_listed st p :
  keyed_by_pid (cur_procs st) -> p ∈ kill_view st -> cur_procs st !! pid p = Some p.
Proof.
  intros Hkeyed Hp. unfold kill_view in Hp.
  rewrite (sort_processes_perm _ _) in Hp.
  apply elem_of_map_values in Hp as (k & Hk).
  rewrite (Hkeyed _ _ Hk). exact Hk.
Qed.

Lemma handle_kill_signals inp st st' outs :
  handle_kill inp st = Ok (st', outs) ->
  signals outs = [] \/
  exists p,
    signals outs = [(pid p, if is_key (in_dialog_key inp) "t" "T"
                            then SIGTERM else SIGKILL)] /\
    (is_key (in_dialog_key inp) "t" "T" || is_key (in_dialog_key inp) "k" "K") = true /\
    0 <= selected st /\
    kill_view st !! Z.to_nat (selected st) = Some p.
Proof.
  unfold handle_kill.
  destruct (_ && _) eqn:G; [ | intros [= _ <-]; left; reflexivity].
  apply andb_true_iff in G as [G1 _]. apply Z.leb_le in G1.
  intros H. apply bind_Ok in H as (p & Hp & H).
  unfold vec_at in Hp. destruct (selected st <? 0); [discriminate | ].
  destruct (kill_view st !! Z.to_nat (selected st)) as [q | ] eqn:E; [ | discriminate].
  injection Hp as ->.
  unfold confirm_kill in H.
  destruct (is_key (in_dialog_key inp) "t" "T") eqn:Kt.
  - right. exists p.
    destruct (in_kill_ret inp =? 0); injection H as _ <-; auto.
  - destruct (is_key (in_dialog_key inp) "k" "K") eqn:Kk.
    + right. exists p.
      destruct (in_kill_ret inp =? 0); injection H as _ <-; auto.
    + left. injection H as _ <-. reflexivity.
Qed.

(** X23.  One pass through the main loop sends at most one signal. When it
    sends one, the key was k or K, the answer in the dialog was t or T
    (then the signal is SIGTERM) or k or K (then SIGKILL), the selection
    index is 0 or more, and the target is the pid of the entry at that
    index of the processes of cur_procs sorted by the current sort mode;
    with the entries of cur_procs stored under their pids, as every
    refresh leaves them, it is a process of the last snapshot. *)
Theorem iteration_signals inp st st' outs :
  keyed_by_pid (cur_procs st) ->
  iteration inp st = Ok (st', outs) ->
  signals outs = [] \/
  exists p,
    signals outs = [(pid p, if is_key (in_dialog_key inp) "t" "T"
                            then SIGTERM else SIGKILL)] /\
    pressed inp "k" "K" /\
    (is_key (in_dialog_key inp) "t" "T" || is_key (in_dialog_key inp) "k" "K") = true /\
    0 <= selected st /\
    kill_view st !! Z.to_nat (selected st) = Some p /\
    cur_procs st !! pid p = Some p.
Proof.
  intros Hkeyed H. unfold iteration in H.
  apply bind_Ok in H as ([st1 outs1] & H1 & H).
  assert (Hrest : signals outs = signals outs1).
  { destruct (negb (running st1)); [injection H as _ <-; reflexivity | ].
    destruct (_ <=? _); [ | injection H as _ <-; reflexivity].
    apply bind_Ok in H as ([st2 outs2] & H2 & [= _ <-]).
    rewrite signals_app. simpl. rewrite (refresh_signals _ _ _ _ H2).
    apply app_nil_r. }
  rewrite Hrest. clear H Hrest.
  destruct (in_getch inp =? ERR); [injection H1 as _ <-; left; reflexivity | ].
  destruct (is_key (in_getch inp) "k" "K") eqn:Hk.
  - rewrite (handle_key_kill _ _ Hk) in H1.
    destruct (handle_kill_signals _ _ _ _ H1) as [Hnone | (p & Hs & Hd & Hsel & Hp)];
      [left; exact Hnone | ].
    right. exists p. repeat (split; [assumption | ]).
    apply (kill_view_listed _ _ Hkeyed). apply list_elem_of_lookup. eauto.
  - rewrite (handle_key_silent _ _ _ _ H1 Hk). left. reflexivity.
Qed.

Lemma refresh_ignores_timer inp st t :
  refresh inp (set_last_refresh st t) = refresh inp st.
Proof. reflexivity. Qed.

Lemma bind_eta {A B} (m : Res (A * B)) : (r <- m ;; Ok (r.1, r.2)) = m.
Proof. destruct m as [[a b] | f]; reflexivity. Qed.

(** X24.  When r or R is pressed while the program runs, and the clock
    read after the key handler is not before the one read in it, the same
    pass through the loop carries out the refresh cycle: the pass as a
    whole does exactly what the refresh cycle does from the state before
    the key, whatever the refresh timer was. *)
Theorem refresh_key_forces_refresh inp st :
  pressed inp "r" "R" -> running st = true ->
  in_clock_key inp <= in_now inp ->
  iteration inp st = refresh inp st.
Proof.
  intros Hr Hrun Hclock. unfold iteration.
  assert (Hkey : handle_key inp st =
                 Ok (set_last_refresh st (in_clock_key inp - seconds (refresh_sec st)), [])).
  { unfold handle_key. apply is_key_cases in Hr as [-> | ->]; reflexivity. }
  assert (Herr : (in_getch inp =? ERR) = false).
  { apply is_key_cases in Hr as [-> | ->]; reflexivity. }
  rewrite Herr, Hkey. simpl bind. cbv iota. simpl running. rewrite Hrun. simpl negb. cbv iota.
  simpl last_refresh. simpl refresh_sec.
  destruct (Z.leb_spec (seconds (refresh_sec st))
              (in_now inp - (in_clock_key inp - seconds (refresh_sec st)))); [ | lia].
  rewrite refresh_ignores_timer. apply bind_eta.
Qed.

(** * Runs *)

Lemma key_frame_trans a b c : key_frame a b -> key_frame b c -> key_frame a c.
Proof.
  intros [] []. constructor; congruence.
Qed.

Lemma handle_key_timer inp st st' outs :
  handle_key inp st = Ok (st', outs) ->
  is_key (in_getch inp) "r" "R" = false ->
  is_key (in_getch inp) "k" "K" = false ->
  last_refresh st' = last_refresh st.
Proof.
  intros H Hr Hk. key_cases H; try congruence;
    repeat match type of H with
           | bind _ _ = Ok _ => apply bind_Ok in H as (? & _ & H)
           end;
    try (injection H as <- _; reflexivity).
  injection H as <- _.
  destruct (0 <? selected st); simpl;
    match goal with |- context [if ?c then _ else _] => destruct c end; reflexivity.
Qed.

Lemma handle_key_running inp st st' outs :
  handle_key inp st = Ok (st', outs) ->
  running st' = if is_key (in_getch inp) "q" "Q" then false else running st.
Proof.
  intros H. unfold handle_key in H.
  destruct (is_key (in_getch inp) "q" "Q"); [injection H as <- _; reflexivity | ].
  repeat match type of H with
         | (if ?c then _ else _) = _ => destruct c eqn:?
         end;
    repeat match type of H with
           | bind _ _ = Ok _ => apply bind_Ok in H as (? & _ & H)
           end;
    try (injection H as <- _; reflexivity).
  - injection H as <- _.
    destruct (0 <? selected st); simpl;
      match goal with |- context [if ?c then _ else _] => destruct c end; reflexivity.
  - unfold handle_kill in H. destruct (_ && _).
    + apply bind_Ok in H as (p & _ & H). destruct (confirm_kill _ _ _).
      injection H as <- _. reflexivity.
    + injection H as <- _. reflexivity.
Qed.

Lemma iteration_running inp st st' outs :
  iteration inp st = Ok (st', outs) ->
  running st' = if (in_getch inp =? ERR) then running st
                else if is_key (in_getch inp) "q" "Q" then false else running st.
Proof.
  unfold iteration. intros H.
  apply bind_Ok in H as ([st1 outs1] & H1 & H).
  assert (Hrun1 : running st' = running st1).
  { destruct (negb (running st1)); [injection H as <- _; reflexivity | ].
    destruct (_ <=? _); [ | injection H as <- _; reflexivity].
    apply bind_Ok in H as ([st2 outs2] & H2 & [= <- _]).
    exact (rf_running _ _ _ _ (refresh_refreshed _ _ _ _ H2)). }
  rewrite Hrun1.
  destruct (in_getch inp =? ERR); [injection H1 as <- _; reflexivity | ].
  exact (handle_key_running _ _ _ _ H1).
Qed.

(** X26.  If the loop, started while running, ends with an exit code over
    a sequence of inputs, the code is 0, and the sequence holds a pass in
    which q or Q was pressed, before which no pass had that key: nothing
    else ends the loop. *)
Theorem exit_only_by_quit_key inputs : forall st outs code st' outs',
  running st = true ->
  run inputs st outs = Exited code st' outs' ->
  code = 0 /\
  exists (pre : list Input) (inp : Input) (post : list Input),
    inputs = pre ++ inp :: post /\
    pressed inp "q" "Q" /\
    Forall (fun i => ~ pressed i "q" "Q") pre.
Proof.
  induction inputs as [ | inp rest IH]; intros st outs code st' outs' Hrun H.
  - simpl in H. rewrite Hrun in H. discriminate.
  - split; [exact (run_exit_code _ _ _ _ _ _ H) | ].
    simpl in H. rewrite Hrun in H.
    destruct (iteration inp st) as [[st1 outs1] | f] eqn:Hit; [ | discriminate].
    pose proof (iteration_running _ _ _ _ Hit) as Hr1. rewrite Hrun in Hr1.
    destruct (Z.eqb_spec (in_getch inp) ERR) as [Herr | Herr].
    + destruct (IH _ _ _ _ _ Hr1 H) as (_ & pre & i & post & -> & Hq & Hpre).
      exists (inp :: pre), i, post. split; [reflexivity | ].
      split; [exact Hq | ]. constructor; [ | exact Hpre].
      unfold pressed. rewrite Herr. discriminate.
    + destruct (is_key (in_getch inp) "q" "Q") eqn:Hq.
      * exists [], inp, rest. split; [reflexivity | ]. split; [exact Hq | constructor].
      * destruct (IH _ _ _ _ _ Hr1 H) as (_ & pre & i & post & -> & Hq' & Hpre).
        exists (inp :: pre), i, post. split; [reflexivity | ].
        split; [exact Hq' | ]. constructor; [ | exact Hpre].
        unfold pressed. congruence.
Qed.

(** X27.  If the loop is still running after the inputs pre, a following
    pass with q or Q ends the program with exit code 0, in the state
    reached with the running flag cleared and with no further output: no
    refresh happens in that pass, and the inputs after it are ignored. *)
Theorem quit_key_exits pre : forall inp post st outs st1 outs1,
  run pre st outs = Pending st1 outs1 ->
  pressed inp "q" "Q" ->
  run (pre ++ inp :: post) st outs = Exited 0 (set_running st1 false) outs1.
Proof.
  induction pre as [ | i pre IH]; intros inp post st outs st1 outs1 H Hq.
  - simpl in H. destruct (running st) eqn:Hrun; [ | discriminate].
    injection H as <- <-. simpl. rewrite Hrun, (iteration_quit _ _ Hq).
    rewrite app_nil_r. apply run_stopped. reflexivity.
  - simpl in H. simpl. destruct (running st); [ | discriminate].
    destruct (iteration i st) as [[st' outs'] | f]; [ | discriminate].
    exact (IH _ _ _ _ _ _ H Hq).
Qed.

(** X28.  Over any sequence of passes through the loop in which none of q,
    r, k (either case) is pressed and the clock stays less than
    refresh_sec seconds after the last refresh, the program does not exit,
    draws nothing and sends nothing (no output is added, also not before a
    selection counter overflows); both process maps, the counters, the
    memory total, the interval and the refresh timer stay as they were. So
    a movement or sort key shows on the screen only with the next refresh. *)
Theorem no_redraw_between_refreshes inputs : forall st outs,
  running st = true ->
  Forall (fun inp =>
            ~ pressed inp "q" "Q" /\ ~ pressed inp "r" "R" /\ ~ pressed inp "k" "K" /\
            in_now inp - last_refresh st < seconds (refresh_sec st)) inputs ->
  match run inputs st outs with
  | Pending st' outs' =>
      outs' = outs /\ key_frame st st' /\ last_refresh st' = last_refresh st
  | Faulted _ outs' => outs' = outs
  | Exited _ _ _ => False
  end.
Proof.
  induction inputs as [ | inp rest IH]; intros st outs Hrun Hall.
  - simpl. rewrite Hrun. split; [reflexivity | ]. split; [apply key_frame_refl | reflexivity].
  - apply Forall_cons in Hall as [(Hq & Hr & Hk & Hnow) Hrest].
    unfold pressed in Hq, Hr, Hk.
    apply not_true_is_false in Hq, Hr, Hk.
    simpl. rewrite Hrun.
    destruct (iteration inp st) as [[st1 outs1] | f] eqn:Hit; [ | reflexivity].
    assert (Hstep : outs1 = [] /\ key_frame st st1 /\ last_refresh st1 = last_refresh st
                    /\ running st1 = true).
    { pose proof (iteration_running _ _ _ _ Hit) as Hr1. rewrite Hq, Hrun in Hr1.
      assert (Hr1' : running st1 = true) by (destruct (in_getch inp =? ERR); exact Hr1).
      unfold iteration in Hit.
      apply bind_Ok in Hit as ([st0 outs0] & H0 & Hit).
      assert (H0' : outs0 = [] /\ key_frame st st0 /\ last_refresh st0 = last_refresh st).
      { destruct (in_getch inp =? ERR).
        - injection H0 as <- <-. split; [reflexivity | ].
          split; [apply key_frame_refl | reflexivity].
        - split; [exact (handle_key_silent _ _ _ _ H0 Hk) | ].
          split; [exact (handle_key_frame _ _ _ _ H0) | ].
          exact (handle_key_timer _ _ _ _ H0 Hr Hk). }
      destruct H0' as (-> & Hf0 & Ht0).
      destruct (negb (running st0)); [injection Hit as <- <-; auto | ].
      rewrite Ht0, (kf_refresh_sec _ _ Hf0) in Hit.
      destruct (Z.leb_spec (seconds (refresh_sec st)) (in_now inp - last_refresh st));
        [lia | ].
      injection Hit as <- <-. auto. }
    destruct Hstep as (-> & Hf1 & Ht1 & Hrun1).
    rewrite app_nil_r.
    specialize (IH st1 outs Hrun1).
    rewrite Ht1, (kf_refresh_sec _ _ Hf1) in IH. specialize (IH Hrest).
    destruct (run rest st1 outs) as [ | st2 outs2 | f outs2]; [exact IH | | exact IH].
    destruct IH as (-> & Hf2 & Ht2).
    split; [reflexivity | ].
    split; [exact (key_frame_trans _ _ _ Hf1 Hf2) | congruence].
Qed.

(** X29.  Pressing s or S three times with nothing in between brings back
    the state it started from; each press produces no output, the three
    sort modes on the way are pairwise different, and the vector of the
    kill handler after a press is the same processes sorted by the new
    mode. *)
Theorem sort_key_cycle inp st :
  pressed inp "s" "S" ->
  exists st1 st2,
    handle_key inp st = Ok (st1, []) /\
    handle_key inp st1 = Ok (st2, []) /\
    handle_key inp st2 = Ok (st, []) /\
    sort_mode st1 <> sort_mode st /\ sort_mode st2 <> sort_mode st /\
    sort_mode st2 <> sort_mode st1 /\
    kill_view st1 = sort_processes (map_values (cur_procs st)) (sort_mode st1) /\
    kill_view st2 = sort_processes (map_values (cur_procs st)) (sort_mode st2).
Proof.
  intros Hs.
  assert (Hkey : forall s, handle_key inp s =
                           Ok (set_sort_mode s (next_sort_mode (sort_mode s)), [])).
  { intros s. unfold handle_key. apply is_key_cases in Hs as [-> | ->]; reflexivity. }
  exists (set_sort_mode st (next_sort_mode (sort_mode st))).
  exists (set_sort_mode st (next_sort_mode (next_sort_mode (sort_mode st)))).
  rewrite !Hkey. destruct st as [rs mode sel off op cp ofs cfs ot mt mf ma cpu rn last].
  simpl. destruct mode; simpl; repeat split; discriminate.
Qed.

(** X30.  The page offset that the refresh cycle computes makes the
    selected row visible (offset <= selected < offset + max(1, getmaxy -
    3)) and is, among all offsets that do, one closest to the previous
    offset; in particular the offset is left alone when the selected row
    is already visible. *)
Theorem adjust_page_offset_minimal sel off maxy off' :
  adjust_page_offset sel off maxy = Ok off' ->
  off' <= sel < off' + Z.max 1 (maxy - 3) /\
  forall o, o <= sel < o + Z.max 1 (maxy - 3) -> Z.abs (off' - off) <= Z.abs (o - off).
Proof.
  unfold adjust_page_offset. intros H.
  apply bind_Ok in H as (r & Hr & H). apply checked_Ok in Hr as [-> _].
  assert (Hrows : (if maxy - 3 <? 1 then 1 else maxy - 3) = Z.max 1 (maxy - 3))
    by (destruct (Z.ltb_spec (maxy - 3) 1); lia).
  rewrite Hrows in H.
  destruct (Z.ltb_spec sel off).
  - injection H as <-. split; [lia | intros o Ho; lia].
  - apply bind_Ok in H as (b & Hb & H). apply checked_Ok in Hb as [-> _].
    destruct (Z.leb_spec (off + Z.max 1 (maxy - 3)) sel).
    + apply bind_Ok in H as (d & Hd & H). apply checked_Ok in Hd as [-> _].
      apply checked_Ok in H as [-> _]. split; [lia | intros o Ho; lia].
    + injection H as <-. split; [lia | intros o Ho; lia].
Qed.


(** * The theorems at work on the sample files *)

(** Closed goals about numbers and strings. *)
Ltac closed :=
  vm_compute; repeat split; first [discriminate | reflexivity | exact I | lia].

Lemma refresh_interval_round_trip_witness :
  Int.min_int <= 5 <= Int.max_int /\
  stoi (to_string 5) = StoiOk 5 /\
  parse_refresh_sec ["sysmon"%string; to_string 5] = Z.max 1 5.
Proof.
  split; [closed | ].
  apply (refresh_interval_round_trip "sysmon" 5 []). closed.
Defined.

Lemma list_pids_sorted_members_witness :
  exists ps,
    list_pids (Some Proc.dir) = Done ps /\
    Sorted Z.le ps /\
    (forall v, v ∈ ps <-> exists e, e ∈ Proc.dir /\ pid_entry e v) /\
    Forall (fun v => 0 <= v <= Int.max_int) ps.
Proof.
  apply (list_pids_sorted_members Proc.dir).
  intros e v He (Hd & Ha & Hv). unfold Proc.dir in He.
  repeat (apply elem_of_cons in He as [-> | He]);
    [ | | | | inversion He];
    vm_compute in Hd, Ha, Hv; try discriminate;
    injection Hv as <-; closed.
Defined.

Lemma list_pids_out_of_range_witness :
  list_pids (Some [mkDirent true "42"; mkDirent true "2147483648"])
  = Fails (Thrown OutOfRange).
Proof.
  apply (list_pids_out_of_range _ (mkDirent true "2147483648") 2147483648).
  - right. left.
  - closed.
  - closed.
Defined.

Lemma list_pids_of_pid_dirs_witness :
  list_pids (Some (pid_dir <$> [300; 1; 25])) = Done (merge_sort Z.le [300; 1; 25]).
Proof.
  apply (list_pids_of_pid_dirs [300; 1; 25]).
  repeat constructor; closed.
Defined.

Lemma read_proc_times_comm_witness :
  exists r,
    read_proc_times (Some Proc.stat) (Some Proc.status) 4096 = Done (Some r) /\
    rd_comm r = Proc.comm /\ utime (rd_times r) = 3 /\ stime (rd_times r) = 4.
Proof.
  eexists. split; [vm_compute; reflexivity | ].
  pose proof (read_proc_times_comm (to_string 1234 ++ " ") Proc.comm
                (join_fields ("S"%string :: map to_string Proc.fields))
                EmptyString (Some Proc.status) 4096 _
                ltac:(closed) ltac:(closed) ltac:(closed) ltac:(closed) ltac:(closed)
                ltac:(vm_compute; reflexivity)) as H.
  cbv zeta in H. destruct H as (H1 & _ & H2 & H3 & _).
  split; [exact H1 | ]. split; [exact H2 | exact H3].
Defined.

Lemma read_proc_times_short_witness :
  read_proc_times (Some (with_line (stat_line "1 " "a" " S 1 2") EmptyString)) None 4096
  = Done None.
Proof.
  apply (read_proc_times_short "1 " "a" " " "S 1 2" EmptyString None 4096); closed.
Defined.

Lemma read_proc_times_line_ends_at_paren_witness :
  read_proc_times (Some Proc.cut_stat) (Some Proc.status) 4096
  = Fails (Thrown OutOfRange).
Proof.
  apply (read_proc_times_line_ends_at_paren (to_string 77 ++ " ") "sh" EmptyString
           (Some Proc.status) 4096); closed.
Defined.

Lemma read_proc_times_kernel_line_witness :
  read_proc_times (Some Proc.stat) (Some Proc.status) 4096
  = Done (Some (mkProcRead (mkProcTimes 3 4) 4096 Proc.comm 1000)).
Proof.
  apply (read_proc_times_kernel_line 1234 Proc.comm "S" Proc.fields EmptyString
           (Some Proc.status) 4096 1000); closed.
Defined.

Lemma read_uid_first_uid_line_witness :
  read_uid (Some Proc.status) = Done (1000 mod 2 ^ 32).
Proof.
  apply (read_uid_first_uid_line
           ["Name:" ++ Proc.tab ++ "tmux: server"; "Umask:" ++ Proc.tab ++ "0022"]%string
           Proc.tab 1000 (Proc.tab ++ "1000")%string
           ("Gid:" ++ Proc.tab ++ "100" ++ Proc.nl)%string); try closed.
  repeat constructor; closed.
Defined.

Lemma read_uid_without_uid_line_witness :
  read_uid None = Done uid_none /\
  read_uid (Some (lines_then ["Name:  sh"%string] "Gid:  0")) = Done uid_none.
Proof.
  apply (read_uid_without_uid_line ["Name:  sh"%string] "Gid:  0"); try closed.
  repeat constructor; closed.
Defined.

Lemma read_total_cpu_line_witness :
  read_total_cpu (Some (with_line (cpu_line Proc.counters) EmptyString)) []
  = (true, [100; 0; 50; 800; 50]).
Proof.
  apply (read_total_cpu_line Proc.counters EmptyString []).
  repeat constructor; closed.
Defined.

Lemma read_meminfo_text_witness :
  read_meminfo (Some (meminfo_text Proc.meminfo_entries Proc.meminfo_tail)) (0, 0, 0)
  = (true, (16318480, 1234567, 9876543)).
Proof.
  apply (read_meminfo_text Proc.meminfo_entries Proc.meminfo_tail (0, 0, 0)).
  - repeat constructor; closed.
  - closed.
Defined.

Lemma draw_header_memory_witness :
  exists mempct,
    header_memory (Some (meminfo_text Proc.meminfo_entries Proc.meminfo_tail)) 16318480
    = Done (Some (16318480 / 1024, mempct)) /\ nonneg mempct.
Proof.
  destruct (draw_header_memory Proc.meminfo_entries Proc.meminfo_tail 16318480)
    as (H1 & H2 & _).
  - repeat constructor; closed.
  - closed.
  - discriminate.
  - eexists. split; [exact H1 | ]. apply H2. reflexivity.
Defined.

Lemma collect_processes_entries_witness :
  collect_processes Sample.no_passwd (in_procs Sample.first_tick) 8000000 !! 10
  = Some (proc_of_read Sample.no_passwd 8000000 10 (Sample.reading 5 5 80000)).
Proof.
  apply (collect_processes_entries Sample.no_passwd (in_procs Sample.first_tick) 8000000 10).
  - refine (bool_decide_unpack _ _). vm_compute. exact I.
  - exists (Sample.reading 5 5 80000). split; [left | reflexivity].
Defined.

Lemma collect_from_proc_entries_witness :
  exists m p,
    collect_from_proc Sample.no_passwd (Some Proc.dir) Proc.files 4096 16318480 = Done m /\
    m !! 1234 = Some p /\ name p = Proc.comm /\ mem_kb p = 4096.
Proof.
  eexists _, _. split; [vm_compute; reflexivity | ].
  split.
  - eapply (collect_from_proc_entries Sample.no_passwd Proc.dir Proc.files 4096 16318480
              _ 1234 _).
    + vm_compute. reflexivity.
    + exists (mkDirent true "1234"), (mkProcRead (mkProcTimes 3 4) 4096 Proc.comm 1000).
      split; [left | ]. split; [closed | ]. split; [vm_compute; reflexivity | reflexivity].
  - split; reflexivity.
Defined.

Lemma collect_from_proc_failure_witness :
  collect_from_proc Sample.no_passwd (Some Proc.dir) Proc.cut_files 4096 16318480
  = Fails (Thrown OutOfRange).
Proof.
  apply (collect_from_proc_failure Sample.no_passwd Proc.dir Proc.cut_files 4096 16318480
           (mkDirent true "1234") 1234 OutOfRange).
  - left.
  - vm_compute; repeat split; first [discriminate | reflexivity | exact I | lia].
  - vm_compute. reflexivity.
  - intros e' k' x He' (Hd & Ha & Hn).
    repeat (apply elem_of_cons in He' as [-> | He']); try (inversion He'; fail);
      try discriminate;
      vm_compute in Hn; injection Hn as <-; vm_compute;
      intros [= <-]; eexists; reflexivity.
Defined.

Lemma draw_processes_window_witness :
  exists rows,
    draw_processes (kill_view Sample.after_first) 1 0 24 = Ok rows /\
    row_proc <$> rows = take (Z.to_nat (24 - 3)) (drop (Z.to_nat 0) (kill_view Sample.after_first)) /\
    forall j row, rows !! j = Some row ->
      row_y row = Z.of_nat j + 2 /\
      row_reverse row = (0 + Z.of_nat j =? 1) /\
      kill_view Sample.after_first !! (Z.to_nat 0 + j)%nat = Some (row_proc row).
Proof.
  apply (draw_processes_window (kill_view Sample.after_first) 1 0 24); closed.
Defined.

Lemma refresh_draws_selection_witness :
  exists rows,
    draw_processes (kill_view Sample.after_first) (selected Sample.after_first)
      (page_offset Sample.after_first) (in_body_maxy Sample.first_tick) = Ok rows.
Proof.
  destruct (refresh_draws_selection Sample.first_tick Sample.started Sample.after_first
              [ODrawHeader 8000000 (total_cpu_percent Sample.after_first) 2 SORT_CPU;
               ODrawProcesses (kill_view Sample.after_first) 0 0])
    as (rows & _ & H & _).
  - vm_compute. reflexivity.
  - closed.
  - closed.
  - closed.
  - exists rows. exact H.
Defined.

Lemma iteration_signals_witness :
  exists st' outs,
    iteration Sample.kill_tick Sample.after_first = Ok (st', outs) /\
    signals outs = [(10, SIGTERM)].
Proof.
  eexists _, _. split; [vm_compute; reflexivity | ].
  destruct (iteration_signals Sample.kill_tick Sample.after_first _ _
              (refresh_keyed Sample.first_tick Sample.started Sample.after_first _
                 ltac:(vm_compute; reflexivity))
              ltac:(vm_compute; reflexivity)) as [H | (p & H & _)].
  - vm_compute in H. discriminate H.
  - vm_compute. reflexivity.
Defined.

Lemma refresh_key_forces_refresh_witness :
  iteration (Proc.press (chr "r")) Sample.after_first
  = refresh (Proc.press (chr "r")) Sample.after_first.
Proof.
  apply (refresh_key_forces_refresh (Proc.press (chr "r")) Sample.after_first); closed.
Defined.

Lemma no_redraw_between_refreshes_witness :
  match run [Sample.down_tick; Sample.sort_tick] Sample.after_first [] with
  | Pending st' outs' =>
      outs' = [] /\ key_frame Sample.after_first st' /\
      last_refresh st' = last_refresh Sample.after_first
  | Faulted _ outs' => outs' = []
  | Exited _ _ _ => False
  end.
Proof.
  apply (no_redraw_between_refreshes [Sample.down_tick; Sample.sort_tick]
           Sample.after_first []).
  - reflexivity.
  - repeat constructor; closed.
Defined.

Lemma exit_only_by_quit_key_witness :
  exists code st' outs',
    run [Sample.down_tick; Proc.press (chr "q"); Sample.sort_tick] Sample.after_first []
    = Exited code st' outs' /\ code = 0.
Proof.
  eexists _, _, _. split; [vm_compute; reflexivity | ].
  eapply (exit_only_by_quit_key
            [Sample.down_tick; Proc.press (chr "q"); Sample.sort_tick]
            Sample.after_first [] _ _ _).
  - reflexivity.
  - vm_compute. reflexivity.
Defined.

Lemma quit_key_exits_witness :
  exists st1,
    run [Sample.down_tick; Proc.press (chr "Q"); Sample.sort_tick] Sample.after_first []
    = Exited 0 (set_running st1 false) [].
Proof.
  eexists.
  eapply (quit_key_exits [Sample.down_tick] (Proc.press (chr "Q")) [Sample.sort_tick]
            Sample.after_first [] _ []).
  - vm_compute. reflexivity.
  - reflexivity.
Defined.

Lemma sort_key_cycle_witness :
  exists st1 st2,
    handle_key Sample.sort_tick Sample.after_first = Ok (st1, []) /\
    handle_key Sample.sort_tick st1 = Ok (st2, []) /\
    handle_key Sample.sort_tick st2 = Ok (Sample.after_first, []).
Proof.
  destruct (sort_key_cycle Sample.sort_tick Sample.after_first eq_refl)
    as (st1 & st2 & H1 & H2 & H3 & _).
  exists st1, st2. auto.
Defined.

Lemma adjust_page_offset_minimal_witness :
  adjust_page_offset 30 0 24 = Ok 10 /\
  forall o, o <= 30 < o + Z.max 1 (24 - 3) -> Z.abs (10 - 0) <= Z.abs (o - 0).
Proof.
  split; [reflexivity | ].
  apply (adjust_page_offset_minimal 30 0 24 10). reflexivity.
Defined.
